(** * AT Pages: the paginated fetch, post cache and filter/sort layer

  A shallow embedding of the record-aggregation code of the repository
  (the browser editor's [state.js], [utils.js], [api.js], the reader's
  [api.js] and the command-line manager's [fetchAllRecords] and
  [exportPosts]) together with the properties its specification states.

  JavaScript strings are sequences of UTF-16 code units; they are
  modelled as [list N], one number per code unit.  Arrays are lists,
  [Set] objects are [gset]s, and the module-level variables of
  [state.js] are the fields of one state record that every operation
  takes and returns. *)

From Stdlib Require Import ZArith NArith List Lia Bool String Ascii.
From Stdlib Require Import DecimalN DecimalPos.
From stdpp Require Import base decidable list gmap sorting.

Local Open Scope N_scope.
#[local] Set Warnings "-clear-no-such-hyp".

(** ** JavaScript strings *)

Module JSString.

Abbreviation jsstring := (list N) (only parsing).

(** The code units of an ASCII literal. *)
Definition u16 (s : string) : jsstring :=
  List.map N_of_ascii (list_ascii_of_string s).

(** [WhiteSpace] and [LineTerminator] of ECMAScript: what [\s] matches
    and what [String.prototype.trim] removes. *)
Definition isWhiteSpace (c : N) : bool :=
  ((9 <=? c) && (c <=? 13)) || (c =? 32) || (c =? 160) || (c =? 5760)
  || ((8192 <=? c) && (c <=? 8202)) || (c =? 8232) || (c =? 8233)
  || (c =? 8239) || (c =? 8287) || (c =? 12288) || (c =? 65279).

Definition isUpperAscii (c : N) : bool := (65 <=? c) && (c <=? 90).
Definition isLowerAscii (c : N) : bool := (97 <=? c) && (c <=? 122).
Definition isDigit (c : N) : bool := (48 <=? c) && (c <=? 57).

(** [\w] without the [u] and [i] flags: [[A-Za-z0-9_]]. *)
Definition isWordChar (c : N) : bool :=
  isUpperAscii c || isLowerAscii c || isDigit c || (c =? 95).

Definition hyphen : N := 45.
Definition isHyphen (c : N) : bool := c =? hyphen.

(** Removal of the longest prefix, and of the longest suffix, of
    characters satisfying [P]. *)
Fixpoint stripStart (P : N -> bool) (s : jsstring) : jsstring :=
  match s with
  | [] => []
  | c :: s' => if P c then stripStart P s' else s
  end.

Fixpoint stripEnd (P : N -> bool) (s : jsstring) : jsstring :=
  match s with
  | [] => []
  | c :: s' =>
      match stripEnd P s' with
      | [] => if P c then [] else [c]
      | r => c :: r
      end
  end.

(** The first, and the last, character satisfies [P]. *)
Definition headIs (P : N -> bool) (s : jsstring) : bool :=
  match s with [] => false | c :: _ => P c end.

Fixpoint lastIs (P : N -> bool) (s : jsstring) : bool :=
  match s with
  | [] => false
  | c :: s' => match s' with [] => P c | _ :: _ => lastIs P s' end
  end.

(** [String.prototype.trim]. *)
Definition trim (s : jsstring) : jsstring :=
  stripEnd isWhiteSpace (stripStart isWhiteSpace s).

(** [s.replace(/P+/g, '-')]: every maximal run of characters
    satisfying [P] becomes one hyphen.  [in_run] tells whether the
    previous character belonged to a run. *)
Fixpoint collapseRuns (P : N -> bool) (in_run : bool) (s : jsstring)
  : jsstring :=
  match s with
  | [] => []
  | c :: s' =>
      if P c
      then (if in_run then collapseRuns P true s'
            else hyphen :: collapseRuns P true s')
      else c :: collapseRuns P false s'
  end.

(** [s.startsWith(p)] and [s.includes(p)]. *)
Fixpoint startsWith (s p : jsstring) : bool :=
  match p, s with
  | [], _ => true
  | _ :: _, [] => false
  | a :: p', b :: s' => (a =? b) && startsWith s' p'
  end.

Fixpoint includes (s p : jsstring) : bool :=
  startsWith s p ||
  match s with
  | [] => false
  | _ :: s' => includes s' p
  end.

(** The order of [Array.prototype.sort] without a comparator on
    strings: code unit by code unit, a proper prefix first. *)
Fixpoint compare (s t : jsstring) : comparison :=
  match s, t with
  | [], [] => Eq
  | [], _ :: _ => Lt
  | _ :: _, [] => Gt
  | a :: s', b :: t' =>
      match N.compare a b with
      | Eq => compare s' t'
      | o => o
      end
  end.

(** [s === t] on strings. *)
Fixpoint eqb (s t : jsstring) : bool :=
  match s, t with
  | [], [] => true
  | a :: s', b :: t' => (a =? b) && eqb s' t'
  | _, _ => false
  end.

(** Truthiness of a string, and of a value that is a string or
    [undefined]: the empty string and [undefined] are falsy. *)
Definition nonEmpty (s : jsstring) : bool :=
  match s with [] => false | _ :: _ => true end.

Definition truthy (o : option jsstring) : bool :=
  match o with Some s => nonEmpty s | None => false end.

(** Decimal digits of a number, as [String(n)] prints it. *)
Fixpoint uintCodes (u : Decimal.uint) : jsstring :=
  match u with
  | Decimal.Nil => []
  | Decimal.D0 u' => 48 :: uintCodes u'
  | Decimal.D1 u' => 49 :: uintCodes u'
  | Decimal.D2 u' => 50 :: uintCodes u'
  | Decimal.D3 u' => 51 :: uintCodes u'
  | Decimal.D4 u' => 52 :: uintCodes u'
  | Decimal.D5 u' => 53 :: uintCodes u'
  | Decimal.D6 u' => 54 :: uintCodes u'
  | Decimal.D7 u' => 55 :: uintCodes u'
  | Decimal.D8 u' => 56 :: uintCodes u'
  | Decimal.D9 u' => 57 :: uintCodes u'
  end.

Definition decimal (n : N) : jsstring := uintCodes (N.to_uint n).

(** ASCII case folding, an instance of the case mapping the slug
    sanitizer is parameterised over. *)
Definition asciiLower (c : N) : N := if isUpperAscii c then c + 32 else c.
Definition toLowerAscii (s : jsstring) : jsstring := List.map asciiLower s.

End JSString.

(** ** Slug sanitization ([utils.js]) *)

Module Slug.
Import JSString.

(** The characters a sanitized slug is made of: [[a-z0-9_-]]. *)
Definition isSlugChar (c : N) : bool :=
  isLowerAscii c || isDigit c || (c =? 95) || isHyphen c.

(** No two neighbouring characters both satisfy [P]. *)
Fixpoint noAdjacent (P : N -> bool) (s : jsstring) : bool :=
  match s with
  | [] => true
  | c :: s' =>
      match s' with
      | [] => true
      | d :: _ => negb (P c && P d) && noAdjacent P s'
      end
  end.

Section Sanitize.
(** [String.prototype.toLowerCase], the Unicode default case
    conversion, is the runtime's; the sanitizer is stated over any
    function with its two properties used here. *)
Variable toLowerCase : jsstring -> jsstring.

(** [[^\w-]+] replaced by the empty string: the characters of
    [[A-Za-z0-9_-]] are kept. *)
Definition stripNonWord (s : jsstring) : jsstring :=
  List.filter (fun c => isWordChar c || isHyphen c) s.

(** [sanitizeSlug(inputSlug, final)]. *)
Definition sanitizeSlug (inputSlug : jsstring) (final : bool) : jsstring :=
  match inputSlug with
  | [] => []
  | _ :: _ =>
      let slug :=
        collapseRuns isHyphen false
          (stripNonWord
             (collapseRuns isWhiteSpace false
                (trim (toLowerCase inputSlug)))) in
      if final then stripEnd isHyphen (stripStart isHyphen slug) else slug
  end.
End Sanitize.

(** What a sanitized slug looks like: characters of [[a-z0-9_-]], no
    two hyphens in a row and, when finalized, no hyphen at either
    end. *)
Definition sanitized (final : bool) (s : jsstring) : Prop :=
  forallb isSlugChar s = true /\
  noAdjacent isHyphen s = true /\
  (final = true -> headIs isHyphen s = false /\ lastIs isHyphen s = false).

End Slug.


(** ** Records and the sort of [Array.prototype.sort] *)

Module Post.
Import JSString.

(** The fields of a post's [value] that the code reads.  A field that
    is absent (or [undefined]) is [None]. *)
Record PostValue := mkValue {
  title : option jsstring;
  shortDescription : option jsstring;
  content : option jsstring;
  slug : option jsstring;
  category : option jsstring;
  tags : option (list jsstring);
  publishedAt : option jsstring;
  recommended : option bool
}.

(** One entry of a [listRecords] page: [{uri, cid, value}].  The cache
    operations never look inside [value], so its type is a parameter. *)
Record PostRecord (V : Type) := mkRecord {
  uri : jsstring;
  cid : jsstring;
  value : V
}.
Arguments mkRecord {V} _ _ _.
Arguments uri {V} _.
Arguments cid {V} _.
Arguments value {V} _.

(** The records of the scenarios: only [uri] and [publishedAt] matter. *)
Definition datedPost (u d : string) : PostRecord PostValue :=
  mkRecord (u16 u) (u16 "cid")
    (mkValue None None None None None None (Some (u16 d)) None).

Definition undatedPost (u : string) : PostRecord PostValue :=
  mkRecord (u16 u) (u16 "cid")
    (mkValue None None None None None None None None).

(** [post?.value?.recommended === true]. *)
Definition isRecommended (post : PostRecord PostValue) : bool :=
  match recommended (value post) with Some true => true | _ => false end.

(** [arr.sort(compareFn)]: the sort is stable, and for a consistent
    comparator the result is the stable arrangement in which
    [compareFn(a, b) <= 0] for [a] before [b].  Insertion from the right
    computes it: an element goes before the first one it does not
    exceed. *)
Fixpoint insertBy {A} (cmp : A -> A -> Z) (x : A) (l : list A) : list A :=
  match l with
  | [] => [x]
  | y :: l' => if (cmp x y <=? 0)%Z then x :: l else y :: insertBy cmp x l'
  end.

Fixpoint sortBy {A} (cmp : A -> A -> Z) (l : list A) : list A :=
  match l with
  | [] => []
  | x :: l' => insertBy cmp x (sortBy cmp l')
  end.

(** [a] may stand before [b] in a sorted array. *)
Definition cmpLe {A} (cmp : A -> A -> Z) (a b : A) : Prop := (cmp a b <= 0)%Z.

(** [z] and [y] are equal for the comparator. *)
Definition sameRank {A} (cmp : A -> A -> Z) (z y : A) : bool :=
  (cmp z y <=? 0)%Z && (cmp y z <=? 0)%Z.

(** The comparator [sort()] uses when none is given, on strings. *)
Definition defaultCompare (s t : jsstring) : Z :=
  match JSString.compare s t with Lt => (-1)%Z | Eq => 0%Z | Gt => 1%Z end.

End Post.

(** ** The filter/sort projection ([utils.js]) *)

Module Projection.
Import JSString Post.

(** Days from 1970-01-01 to a date of the proleptic Gregorian calendar. *)
Definition daysFromCivil (y m d : Z) : Z :=
  (let y' := if m <=? 2 then y - 1 else y in
   let era := y' / 400 in
   let yoe := y' - era * 400 in
   let mp := (m + 9) mod 12 in
   let doy := (153 * mp + 2) / 5 + d - 1 in
   let doe := yoe * 365 + yoe / 4 - yoe / 100 + doy in
   era * 146097 + doe - 719468)%Z.

Definition isLeapYear (y : Z) : bool :=
  ((y mod 4 =? 0) && (negb (y mod 100 =? 0) || (y mod 400 =? 0)))%Z.

Definition daysInMonth (y m : Z) : Z :=
  (if m =? 2 then (if isLeapYear y then 29 else 28)
   else if (m =? 4) || (m =? 6) || (m =? 9) || (m =? 11) then 30 else 31)%Z.

Definition digitValue (c : N) : option Z :=
  if isDigit c then Some (Z.of_N c - 48)%Z else None.

Fixpoint digitsValue (acc : Z) (s : jsstring) : option Z :=
  match s with
  | [] => Some acc
  | c :: s' =>
      match digitValue c with
      | Some d => digitsValue (acc * 10 + d)%Z s'
      | None => None
      end
  end.

(** A date parser for the counterexamples and scenarios: the date-only
    form [YYYY-MM-DD] of the ECMAScript date-time string format, read as
    midnight UTC, in milliseconds since the epoch.  Every other string
    is unparseable for this instance. *)
Definition parseIsoDate (s : jsstring) : option Z :=
  match s with
  | [y1; y2; y3; y4; h1; m1; m2; h2; d1; d2] =>
      if isHyphen h1 && isHyphen h2 then
        match digitsValue 0 [y1; y2; y3; y4], digitsValue 0 [m1; m2],
              digitsValue 0 [d1; d2] with
        | Some y, Some m, Some d =>
            if ((1 <=? m) && (m <=? 12) && (1 <=? d) && (d <=? daysInMonth y m))%Z
            then Some (daysFromCivil y m d * 86400000)%Z
            else None
        | _, _, _ => None
        end
      else None
  | _ => None
  end.

Section Runtime.
(** [String.prototype.toLowerCase] and the parse of [new Date(string)]
    are the runtime's: [parseDate s] is the time value in milliseconds,
    or [None] for an Invalid Date. *)
Variable toLowerCase : jsstring -> jsstring.
Variable parseDate : jsstring -> option Z.

Abbreviation record := (PostRecord PostValue).

(** [x ? new Date(x) : new Date(0)] for [x = a?.value?.publishedAt]:
    the time value of the date, [None] when it is invalid. *)
Definition dateOf (a : record) : option Z :=
  match publishedAt (value a) with
  | Some s => if nonEmpty s then parseDate s else Some 0%Z
  | None => Some 0%Z
  end.

(** [compareAsc] and [compareDesc] of date-fns, on valid dates. *)
Definition compareAsc (x y : Z) : Z :=
  (if x <? y then -1 else if y <? x then 1 else 0)%Z.

Definition compareDesc (x y : Z) : Z :=
  (if y <? x then -1 else if x <? y then 1 else 0)%Z.

Definition sortCompareFn (sortOrder : jsstring) (a b : record) : Z :=
  match dateOf a, dateOf b with
  | None, None => 0%Z
  | None, Some _ => 1%Z
  | Some _, None => (-1)%Z
  | Some x, Some y =>
      if JSString.eqb sortOrder (u16 "oldest") then compareAsc x y
      else compareDesc x y
  end.

(** [field?.toLowerCase().includes(term)]. *)
Definition fieldIncludes (field : option jsstring) (term : jsstring) : bool :=
  match field with
  | Some s => includes (toLowerCase s) term
  | None => false
  end.

Definition matchesSearch (lowerSearchTerm : jsstring) (post : record) : bool :=
  let p := value post in
  fieldIncludes (title p) lowerSearchTerm
  || fieldIncludes (shortDescription p) lowerSearchTerm
  || fieldIncludes (content p) lowerSearchTerm
  || fieldIncludes (slug p) lowerSearchTerm
  || fieldIncludes (category p) lowerSearchTerm
  || match tags p with
     | Some ts => existsb (fun tag => includes (toLowerCase tag) lowerSearchTerm) ts
     | None => false
     end.

Definition hasCategory (c : jsstring) (post : record) : bool :=
  match category (value post) with
  | Some c' => JSString.eqb c' c
  | None => false
  end.

(** [getFilteredAndSortedPosts(posts, searchTerm, category, sortOrder)]. *)
Definition getFilteredAndSortedPosts (posts : list record)
    (searchTerm category sortOrder : jsstring) : list record :=
  let filteredPosts :=
    if nonEmpty category then
      if JSString.eqb category (u16 "Recommended")
      then List.filter isRecommended posts
      else List.filter (hasCategory category) posts
    else posts in
  let filteredPosts :=
    if nonEmpty searchTerm
    then List.filter (matchesSearch (toLowerCase searchTerm)) filteredPosts
    else filteredPosts in
  sortBy (sortCompareFn sortOrder) filteredPosts.


(** [publishedAt] is a string that [new Date] cannot read. *)
Definition unparseableDate (a : record) : bool :=
  match publishedAt (value a) with
  | Some s => nonEmpty s && match parseDate s with Some _ => false | None => true end
  | None => false
  end.



End Runtime.

End Projection.

(** ** The record store: [com.atproto.repo.listRecords] *)

Module Store.
Import JSString Post.

Abbreviation record := (PostRecord PostValue).

(** A list-page request: [limit] and [cursor] ([None] when the
    parameter is [undefined] or left out of the URL).  The repository,
    the collection and [reverse: true] are the same in every request of
    a walk. *)
Record ListRequest := mkRequest {
  limit : N;
  cursorParam : option jsstring
}.

(** What a request comes back with: a body [{records?, cursor?}]; an
    HTTP status that is not ok, with its status text and, when the body
    is JSON, the body's [message] if it has one; or no response at all
    (the request itself is rejected). *)
Inductive ListResponse :=
| RespOk (records : option (list record)) (cursor : option jsstring)
| RespStatus (status : N) (statusText : jsstring)
    (body : option (option jsstring))
| RespReject (message : jsstring).

Definition isFailure (r : ListResponse) : bool :=
  match r with RespOk _ _ => false | _ => true end.

(** The message of the error thrown for a failed call of the agent:
    the message of the body when it has one, the status text otherwise.
    The editor only shows it. *)
Definition agentErrorMessage (r : ListResponse) : jsstring :=
  match r with
  | RespOk _ _ => []
  | RespStatus _ statusText (Some (Some m)) => if nonEmpty m then m else statusText
  | RespStatus _ statusText _ => statusText
  | RespReject m => m
  end.

(** What a fetch function hands to its caller.  [OutOfFuel] is the
    model's own: the bound on the number of iterations was reached
    before the loop ended. *)
Inductive Outcome :=
| Returned (records : list record)
| Thrown (message : jsstring)
| OutOfFuel.

(** A store that answers from a script, whatever the request; once the
    script is used up it answers with an empty last page. *)
Definition scripted (s : list ListResponse) (_ : ListRequest)
  : ListResponse * list ListResponse :=
  match s with
  | [] => (RespOk (Some []) None, [])
  | r :: s' => (r, s')
  end.

Section World.
Variable Store : Type.
Variable listRecords : Store -> ListRequest -> ListResponse * Store.

(** The store together with the exchanges made with it so far. *)
Record World := mkWorld {
  store : Store;
  exchanges : list (ListRequest * ListResponse)
}.

Definition call (w : World) (req : ListRequest) : ListResponse * World :=
  let (resp, s') := listRecords (store w) req in
  (resp, mkWorld s' (exchanges w ++ [(req, resp)])).

End World.

Arguments mkWorld {Store} _ _.
Arguments store {Store} _.
Arguments exchanges {Store} _.
Arguments call {Store} _ _ _.

(** A walk's exchanges follow a continuation rule: the first request
    carries [cur], and after the [i]-th page the next request is made,
    with the cursor of the page, exactly when [continue i page] says
    so. *)
Fixpoint follows (lim : N) (continue : nat -> ListResponse -> bool)
    (i : nat) (cur : option jsstring)
    (tr : list (ListRequest * ListResponse)) : Prop :=
  match tr with
  | [] => False
  | (req, resp) :: tr' =>
      req = mkRequest lim cur /\
      if continue i resp
      then match resp with
           | RespOk _ c => follows lim continue (S i) c tr'
           | _ => False
           end
      else tr' = []
  end.

(** The same for a walk that has not ended yet: every page so far
    was one to go on from. *)
Fixpoint followsOpen (lim : N) (continue : nat -> ListResponse -> bool)
    (i : nat) (cur : option jsstring)
    (tr : list (ListRequest * ListResponse)) : Prop :=
  match tr with
  | [] => True
  | (req, resp) :: tr' =>
      req = mkRequest lim cur /\ continue i resp = true /\
      match resp with
      | RespOk _ c => followsOpen lim continue (S i) c tr'
      | _ => False
      end
  end.

(** The records of the pages of a walk, in order. *)
Definition pageRecords (tr : list (ListRequest * ListResponse)) : list record :=
  flat_map (fun e => match snd e with
                     | RespOk (Some records) _ => records
                     | _ => []
                     end) tr.

(** A page that has a cursor to go on from. *)
Definition hasCursor (r : ListResponse) : bool :=
  match r with RespOk _ c => truthy c | _ => false end.

(** A page with as many records as were asked for. *)
Definition fullPage (lim : N) (r : ListResponse) : bool :=
  match r with
  | RespOk (Some recs) _ => (lim <=? N.of_nat (length recs))
  | _ => false
  end.

(** The rule of the specification: go on exactly when the page has a
    cursor, is not short, and the budget of pages is not used up. *)
Definition continueBySpec (lim : N) (pageBudget : nat)
    (i : nat) (r : ListResponse) : bool :=
  hasCursor r && fullPage lim r && (i <? pageBudget)%nat.

End Store.

(** ** The command-line manager: [fetchAllRecords] *)

Module Cli.
Import JSString Post Store.

Section CliWalk.
Variable Store : Type.
Variable listRecords : Store -> ListRequest -> ListResponse * Store.

(** One turn of the [do ... while (cursor)] loop of [fetchAllRecords],
    and the turns after it.  A failed request ends the walk with
    [return []]; a body without [records] resets the cursor. *)
Fixpoint fetchAllRecords_loop (fuel : nat) (w : World Store)
    (cursor : option jsstring) (allRecords : list record)
  : Outcome * World Store :=
  match fuel with
  | O => (OutOfFuel, w)
  | S fuel' =>
      let (resp, w') := call listRecords w (mkRequest 100 cursor) in
      match resp with
      | RespOk (Some records) cursor' =>
          let allRecords' := allRecords ++ records in
          if truthy cursor'
          then fetchAllRecords_loop fuel' w' cursor' allRecords'
          else (Returned allRecords', w')
      | RespOk None _ => (Returned allRecords, w')
      | _ => (Returned [], w')
      end
  end.

(** [fetchAllRecords(collection)]. *)
Definition fetchAllRecords (fuel : nat) (w : World Store)
  : Outcome * World Store :=
  fetchAllRecords_loop fuel w None [].

(** The loop goes on after a page exactly when the page has records and
    a cursor. *)
Definition continueCli (_ : nat) (r : ListResponse) : bool :=
  match r with
  | RespOk (Some _) c => truthy c
  | _ => false
  end.

End CliWalk.
End Cli.

(** ** The reader: [fetchRecords] and [fetchAllRecordsForUser] *)

Module Reader.
Import JSString Post Store.

Definition MAX_LIST_LIMIT : N := 100.
Definition MAX_PAGES_FOR_INITIAL_LOAD : nat := 30.
Definition BLOG_POST_NSID : jsstring := u16 "app.blog.post".

(** One page, or the error [fetchRecords] throws. *)
Inductive Page :=
| PageOk (records : list record) (cursor : option jsstring)
| PageThrown (message : jsstring).

(** The message of the error thrown for a response that is not ok. *)
Definition httpErrorMessage (collection : jsstring) (status : N)
    (statusText : jsstring) (body : option (option jsstring)) : jsstring :=
  if status =? 400 then
    u16 "Could not list records. User may not exist, have posts in this format ("
    ++ collection ++ u16 "), or repo is invalid. (Status 400)"
  else
    u16 "HTTP error! Status: " ++ decimal status ++ u16 " " ++ statusText
    ++ match body with
       | Some m =>
           u16 " - " ++ (if truthy m then default [] m
                         else u16 "No specific error message.")
       | None => []
       end.

(** The message of the error [fetchRecords] throws for a response. *)
Definition failureMessage (collection : jsstring) (r : ListResponse) : jsstring :=
  match r with
  | RespOk _ _ => []
  | RespStatus status statusText body =>
      httpErrorMessage collection status statusText body
  | RespReject m => m
  end.

(** The test of the [catch] in [fetchAllRecordsForUser]: such an error
    is taken for a user without posts. *)
Definition isNotFoundMessage (m : jsstring) : bool :=
  includes m (u16 "Could not list records") || includes m (u16 "Status 400").

Section ReaderWalk.
Variable Store : Type.
Variable listRecords : Store -> ListRequest -> ListResponse * Store.
(** [sanitize] escapes a string through the DOM. *)
Variable sanitize : jsstring -> jsstring.

(** [fetchRecords(did, collection, limit, cursor)]. *)
Definition fetchRecords (w : World Store) (collection : jsstring)
    (lim : N) (cursor : option jsstring) : Page * World Store :=
  let req := mkRequest (N.min lim MAX_LIST_LIMIT)
                       (if truthy cursor then cursor else None) in
  let (resp, w') := call listRecords w req in
  match resp with
  | RespOk records cursor' => (PageOk (default [] records) cursor', w')
  | RespStatus status statusText body =>
      (PageThrown (httpErrorMessage collection status statusText body), w')
  | RespReject m => (PageThrown m, w')
  end.

(** [accumulatedCategories.add(sanitize(record.value.category))] for the
    records of a page that have a category. *)
Definition addCategories (cats : gset jsstring) (records : list record)
  : gset jsstring :=
  fold_left
    (fun acc r =>
       match category (value r) with
       | Some c => if nonEmpty c then {[sanitize c]} ∪ acc else acc
       | None => acc
       end)
    records cats.

(** The [do ... while (currentCursor)] loop of [fetchAllRecordsForUser];
    [pagesFetched] counts the pages before this turn.  The result is the
    outcome of the [try], before the [catch] looks at it. *)
Fixpoint fetchAllRecordsForUser_loop (fuel : nat) (w : World Store)
    (collection : jsstring) (maxPages : nat) (pagesFetched : nat)
    (currentCursor : option jsstring) (allRecords : list record)
    (cats : gset jsstring) : Outcome * gset jsstring * World Store :=
  match fuel with
  | O => (OutOfFuel, cats, w)
  | S fuel' =>
      let pagesFetched' := S pagesFetched in
      let (page, w') := fetchRecords w collection MAX_LIST_LIMIT currentCursor in
      match page with
      | PageThrown m => (Thrown m, cats, w')
      | PageOk batchRecords nextCursor =>
          let allRecords' :=
            if (0 <? length batchRecords)%nat
            then allRecords ++ batchRecords else allRecords in
          let cats' :=
            if (0 <? length batchRecords)%nat
            then addCategories cats batchRecords else cats in
          if negb (truthy nextCursor) then (Returned allRecords', cats', w')
          else if (maxPages <=? pagesFetched')%nat
               then (Returned allRecords', cats', w')
               else fetchAllRecordsForUser_loop fuel' w' collection maxPages
                      pagesFetched' nextCursor allRecords' cats'
      end
  end.

(** [fetchAllRecordsForUser(did, collection, accumulatedCategories,
    maxPages)]: the caller's set is cleared, the loop runs, and an error
    whose message passes [isNotFoundMessage] becomes [return []].  The
    loop makes at most [max 1 maxPages] turns. *)
Definition fetchAllRecordsForUser (w : World Store) (collection : jsstring)
    (maxPages : nat) : Outcome * gset jsstring * World Store :=
  match fetchAllRecordsForUser_loop (S maxPages) w collection maxPages
          0 None [] ∅ with
  | (Thrown m, cats, w') =>
      if isNotFoundMessage m then (Returned [], cats, w')
      else (Thrown m, cats, w')
  | r => r
  end.

(** The loop goes on after the [i]-th page exactly when the page has a
    cursor and [i] is below the budget. *)
Definition continueReader (maxPages : nat) (i : nat) (r : ListResponse)
  : bool :=
  hasCursor r && (i <? maxPages)%nat.

End ReaderWalk.
End Reader.

(** ** The editor: [state.js] and [api.js] *)

Module Editor.
Import JSString Post Store.

Definition POSTS_PER_PAGE : N := 25.

(** The module-level variables of [state.js].  [loggedIn] stands for
    [_agent && _session?.did]. *)
Record State := mkState {
  fetchedPostsCache : list record;
  cursor : option jsstring;
  isLoadingMore : bool;
  allPostsLoaded : bool;
  searchTerm : jsstring;
  filterCategory : jsstring;
  sortOrder : jsstring;
  uniqueCategories : gset jsstring;
  loggedIn : bool
}.

Definition initialState : State :=
  mkState [] None false false [] [] (u16 "newest") ∅ false.

Definition setFetchedPostsCache (c : list record) (st : State) : State :=
  mkState c (cursor st) (isLoadingMore st) (allPostsLoaded st) (searchTerm st)
    (filterCategory st) (sortOrder st) (uniqueCategories st) (loggedIn st).

Definition setCursor (c : option jsstring) (st : State) : State :=
  mkState (fetchedPostsCache st) c (isLoadingMore st) (allPostsLoaded st)
    (searchTerm st) (filterCategory st) (sortOrder st) (uniqueCategories st)
    (loggedIn st).

Definition setIsLoadingMore (b : bool) (st : State) : State :=
  mkState (fetchedPostsCache st) (cursor st) b (allPostsLoaded st)
    (searchTerm st) (filterCategory st) (sortOrder st) (uniqueCategories st)
    (loggedIn st).

Definition setAllPostsLoaded (b : bool) (st : State) : State :=
  mkState (fetchedPostsCache st) (cursor st) (isLoadingMore st) b
    (searchTerm st) (filterCategory st) (sortOrder st) (uniqueCategories st)
    (loggedIn st).

Definition setSearchTerm (term : jsstring) (st : State) : State :=
  mkState (fetchedPostsCache st) (cursor st) (isLoadingMore st)
    (allPostsLoaded st) (trim term) (filterCategory st) (sortOrder st)
    (uniqueCategories st) (loggedIn st).

Definition setFilterCategory (c : jsstring) (st : State) : State :=
  mkState (fetchedPostsCache st) (cursor st) (isLoadingMore st)
    (allPostsLoaded st) (searchTerm st) c (sortOrder st)
    (uniqueCategories st) (loggedIn st).

Definition setSortOrder (o : jsstring) (st : State) : State :=
  mkState (fetchedPostsCache st) (cursor st) (isLoadingMore st)
    (allPostsLoaded st) (searchTerm st) (filterCategory st) o
    (uniqueCategories st) (loggedIn st).

Definition setUniqueCategories (s : gset jsstring) (st : State) : State :=
  mkState (fetchedPostsCache st) (cursor st) (isLoadingMore st)
    (allPostsLoaded st) (searchTerm st) (filterCategory st) (sortOrder st)
    s (loggedIn st).

Definition setLoggedIn (b : bool) (st : State) : State :=
  mkState (fetchedPostsCache st) (cursor st) (isLoadingMore st)
    (allPostsLoaded st) (searchTerm st) (filterCategory st) (sortOrder st)
    (uniqueCategories st) b.

(** The body of [appendPostsToCache] on the cache itself: the posts
    whose [uri] is not in the cache yet are added at its end. *)
Definition appendPosts {V} (cache newPosts : list (PostRecord V))
  : list (PostRecord V) :=
  let existingUris : gset jsstring := list_to_set (List.map uri cache) in
  let postsToAdd :=
    List.filter (fun p => negb (bool_decide (uri p ∈ existingUris))) newPosts in
  cache ++ postsToAdd.

Definition appendPostsToCache (newPosts : list record) (st : State) : State :=
  setFetchedPostsCache (appendPosts (fetchedPostsCache st) newPosts) st.

Definition resetPostsCacheAndPagination (st : State) : State :=
  mkState [] None false false (searchTerm st) (filterCategory st)
    (sortOrder st) ∅ (loggedIn st).

(** [post?.value?.category?.trim()] when it passes the test of
    [updateUniqueCategories]: not empty and not ["Recommended"]. *)
Definition actualCategory (post : record) : option jsstring :=
  match category (value post) with
  | Some c =>
      let c' := trim c in
      if nonEmpty c' && negb (JSString.eqb c' (u16 "Recommended"))
      then Some c' else None
  | None => None
  end.

(** What every category of the set looks like. *)
Definition actualCategories (cats : gset jsstring) : Prop :=
  forall c, c ∈ cats ->
    c <> u16 "Recommended" /\ nonEmpty c = true /\ trim c = c.

Definition addCategory (cats : gset jsstring) (post : record) : gset jsstring :=
  match actualCategory post with
  | Some c => if bool_decide (c ∈ cats) then cats else {[c]} ∪ cats
  | None => cats
  end.

(** [updateUniqueCategories(posts)]; the refresh of the category menu
    is outside the model. *)
Definition updateUniqueCategories (posts : list record) (st : State) : State :=
  setUniqueCategories (fold_left addCategory posts (uniqueCategories st)) st.

(** [getUniqueCategories()]. *)
Definition getUniqueCategories (st : State) : list jsstring :=
  let actualCategories := sortBy defaultCompare (elements (uniqueCategories st)) in
  let hasRecommended := existsb isRecommended (fetchedPostsCache st) in
  if hasRecommended then
    if negb (existsb (JSString.eqb (u16 "Recommended")) actualCategories)
    then u16 "Recommended" :: actualCategories
    else actualCategories
  else actualCategories.

(** The cache update of [handleSavePost] once the record is saved:
    with an [rkey] the entries with the saved [uri] are replaced, without
    one the new record is put in front. *)
Definition replacePost {V} (newRecord : PostRecord V) (cache : list (PostRecord V))
  : list (PostRecord V) :=
  List.map (fun p => if JSString.eqb (uri p) (uri newRecord) then newRecord else p)
    cache.

Definition handleSavePost_saved (rkey : option jsstring) (newRecord : record)
    (st : State) : State :=
  setAllPostsLoaded false
    (setFetchedPostsCache
       (if truthy rkey then replacePost newRecord (fetchedPostsCache st)
        else newRecord :: fetchedPostsCache st)
       st).

(** The cache update of [handleDeletePost] once the record is deleted. *)
Definition handleDeletePost_deleted (u : jsstring) (st : State) : State :=
  setAllPostsLoaded false
    (setFetchedPostsCache
       (List.filter (fun p => negb (JSString.eqb (uri p) u)) (fetchedPostsCache st))
       st).

(** One batch, or the error [fetchBlogPostsBatch] throws. *)
Inductive Batch :=
| BatchOk (records : list record) (cursor : option jsstring)
| BatchThrown (message : jsstring).

Section EditorStore.
Variable Store : Type.
Variable listRecords : Store -> ListRequest -> ListResponse * Store.

(** [fetchBlogPostsBatch(limit, cursor)] of [api.js]. *)
Definition fetchBlogPostsBatch (st : State) (w : World Store) (lim : N)
    (cur : option jsstring) : Batch * World Store :=
  if negb (loggedIn st) then (BatchThrown (u16 "Not logged in"), w)
  else
    let (resp, w') := call listRecords w (mkRequest lim cur) in
    match resp with
    | RespOk records cursor' => (BatchOk (default [] records) cursor', w')
    | _ =>
        let m := agentErrorMessage resp in
        (BatchThrown (u16 "Failed to fetch posts batch: "
                      ++ (if nonEmpty m then m else u16 "Unknown error")), w')
    end.

(** [fetchAndAppendPosts(cursor)] in three parts: the state while the
    request is awaited, what the answer does to it, and the whole
    call. *)
Definition fetchAndAppendPosts_pending (st : State) : State :=
  setIsLoadingMore true st.

Definition fetchAndAppendPosts_settle (st1 : State) (batch : Batch) : State :=
  let st2 :=
    match batch with
    | BatchOk batchPosts newCursor =>
        let s := appendPostsToCache batchPosts st1 in
        let s := setCursor newCursor s in
        let s := updateUniqueCategories batchPosts s in
        if negb (truthy newCursor)
           || (N.of_nat (length batchPosts) <? POSTS_PER_PAGE)
        then setAllPostsLoaded true s
        else setAllPostsLoaded false s
    | BatchThrown _ => st1
    end in
  setIsLoadingMore false st2.

Definition fetchAndAppendPosts (st : State) (w : World Store)
    (cur : option jsstring) : State * World Store :=
  if isLoadingMore st then (st, w)
  else
    let st1 := fetchAndAppendPosts_pending st in
    let (batch, w') := fetchBlogPostsBatch st1 w POSTS_PER_PAGE cur in
    (fetchAndAppendPosts_settle st1 batch, w').

(** [handleLoadMore()]. *)
Definition handleLoadMore (st : State) (w : World Store) : State * World Store :=
  if allPostsLoaded st || isLoadingMore st then (st, w)
  else fetchAndAppendPosts st w (cursor st).

(** [loadInitialData()]; [fetchAndAppendPosts] catches its own errors,
    so the [catch] of [loadInitialData] is never entered. *)
Definition loadInitialData (st : State) (w : World Store) : State * World Store :=
  fetchAndAppendPosts (resetPostsCacheAndPagination st) w None.

(** [handleLogout()]. *)
Definition handleLogout (st : State) : State :=
  setSortOrder (u16 "newest")
    (setFilterCategory []
       (setSearchTerm [] (resetPostsCacheAndPagination (setLoggedIn false st)))).

(** What happens to the editor: the user's actions, and the store's
    answers to a save and to a delete. *)
Inductive Action :=
| Login
| Logout
| LoadInitialData
| LoadMore
| Saved (rkey : option jsstring) (newRecord : record)
| Deleted (u : jsstring)
| SearchChange (term : jsstring)
| FilterChange (c : jsstring)
| SortChange (o : jsstring).

Definition step (sw : State * World Store) (a : Action) : State * World Store :=
  let (st, w) := sw in
  match a with
  | Login => loadInitialData (setLoggedIn true st) w
  | Logout => (handleLogout st, w)
  | LoadInitialData => loadInitialData st w
  | LoadMore => handleLoadMore st w
  | Saved rkey r => (handleSavePost_saved rkey r st, w)
  | Deleted u => (handleDeletePost_deleted u st, w)
  | SearchChange term => (setSearchTerm term st, w)
  | FilterChange c => (setFilterCategory c st, w)
  | SortChange o => (setSortOrder o st, w)
  end.

Definition run (sw : State * World Store) (actions : list Action)
  : State * World Store :=
  fold_left step actions sw.

End EditorStore.
End Editor.

(** ** The JSON export: [JSON.stringify(data, null, 2)] and [JSON.parse] *)

Module Json.
Import JSString Post.

(** The values JSON can carry.  Numbers are the integers (the record
    format has no other numbers, and they are taken in the range that
    JavaScript prints digit by digit); an object lists its properties
    in the order JavaScript enumerates them, each key once. *)
#[local] Unset Elimination Schemes.
Inductive Json :=
| JNull
| JBool (b : bool)
| JNum (n : Z)
| JStr (s : jsstring)
| JArr (items : list Json)
| JObj (members : list (jsstring * Json)).
#[local] Set Elimination Schemes.

Definition isHighSurrogate (c : N) : bool := (55296 <=? c) && (c <=? 56319).
Definition isLowSurrogate (c : N) : bool := (56320 <=? c) && (c <=? 57343).

Definition hexDigit (d : N) : N := if d <? 10 then 48 + d else 87 + d.

(** [\uXXXX], four lower-case hexadecimal digits. *)
Definition unicodeEscape (c : N) : jsstring :=
  [92; 117; hexDigit ((c / 4096) mod 16); hexDigit ((c / 256) mod 16);
   hexDigit ((c / 16) mod 16); hexDigit (c mod 16)].

(** One code unit of a quoted string; [paired] tells whether a
    surrogate has its partner next to it. *)
Definition quoteUnit (paired : bool) (c : N) : jsstring :=
  if c =? 34 then [92; 34]
  else if c =? 92 then [92; 92]
  else if c =? 8 then [92; 98]
  else if c =? 12 then [92; 102]
  else if c =? 10 then [92; 110]
  else if c =? 13 then [92; 114]
  else if c =? 9 then [92; 116]
  else if c <? 32 then unicodeEscape c
  else if (isHighSurrogate c || isLowSurrogate c) && negb paired
       then unicodeEscape c
  else [c].

(** The characters between the quotes; [prevHigh] tells whether the
    unit before was a high surrogate. *)
Fixpoint quoteUnits (prevHigh : bool) (s : jsstring) : jsstring :=
  match s with
  | [] => []
  | c :: s' =>
      let paired :=
        if isHighSurrogate c
        then match s' with d :: _ => isLowSurrogate d | [] => false end
        else if isLowSurrogate c then prevHigh else false in
      quoteUnit paired c ++ quoteUnits (isHighSurrogate c) s'
  end.

(** [QuoteJSONString]. *)
Definition quote (s : jsstring) : jsstring := 34 :: quoteUnits false s ++ [34].

Definition serializeNumber (n : Z) : jsstring :=
  if (n <? 0)%Z then 45 :: decimal (Z.to_N (- n)) else decimal (Z.to_N n).

(** The gap of [JSON.stringify(_, null, 2)]: two spaces. *)
Definition gap : jsstring := [32; 32].

(** What follows the first element of an array, and the first member
    of an object: the other ones, each after a comma and a line break,
    and the closing bracket on a line of its own.  [ser] prints a value
    at the inner indentation. *)
Fixpoint itemsTail (ser : Json -> jsstring) (indent indent' : jsstring)
    (l : list Json) : jsstring :=
  match l with
  | [] => 10 :: indent ++ [93]
  | y :: l' => 44 :: 10 :: indent' ++ ser y ++ itemsTail ser indent indent' l'
  end.

Fixpoint membersTail (ser : Json -> jsstring) (indent indent' : jsstring)
    (l : list (jsstring * Json)) : jsstring :=
  match l with
  | [] => 10 :: indent ++ [125]
  | (k, y) :: l' =>
      44 :: 10 :: indent' ++ quote k ++ 58 :: 32 :: ser y
      ++ membersTail ser indent indent' l'
  end.

(** [SerializeJSONProperty] with that gap, at the indentation
    [indent]. *)
Fixpoint serialize (indent : jsstring) (v : Json) : jsstring :=
  match v with
  | JNull => u16 "null"
  | JBool true => u16 "true"
  | JBool false => u16 "false"
  | JNum n => serializeNumber n
  | JStr s => quote s
  | JArr [] => [91; 93]
  | JArr (x :: xs) =>
      let indent' := indent ++ gap in
      91 :: 10 :: indent' ++ serialize indent' x
      ++ itemsTail (serialize indent') indent indent' xs
  | JObj [] => [123; 125]
  | JObj ((k, x) :: ms) =>
      let indent' := indent ++ gap in
      123 :: 10 :: indent' ++ quote k ++ 58 :: 32 :: serialize indent' x
      ++ membersTail (serialize indent') indent indent' ms
  end.

(** A bound on the fuel the parser needs for the text of a value. *)
Fixpoint weight (v : Json) : nat :=
  match v with
  | JArr l => S (list_sum (List.map (fun x => S (weight x)) l))
  | JObj ms => S (list_sum (List.map (fun kx => S (weight (snd kx))) ms))
  | _ => 1%nat
  end.

(** Induction on a value, with the property at hand for the elements
    of an array and the values of an object. *)
Fixpoint Json_ind (P : Json -> Prop)
    (HNull : P JNull) (HBool : forall b, P (JBool b))
    (HNum : forall n, P (JNum n)) (HStr : forall s, P (JStr s))
    (HArr : forall l, Forall P l -> P (JArr l))
    (HObj : forall ms, Forall (fun kx => P (snd kx)) ms -> P (JObj ms))
    (v : Json) {struct v} : P v :=
  match v with
  | JNull => HNull
  | JBool b => HBool b
  | JNum n => HNum n
  | JStr s => HStr s
  | JArr l =>
      HArr l ((fix go (l : list Json) : Forall P l :=
                 match l with
                 | [] => @List.Forall_nil Json P
                 | x :: l' =>
                     @List.Forall_cons Json P x l'
                       (Json_ind P HNull HBool HNum HStr HArr HObj x) (go l')
                 end) l)
  | JObj ms =>
      HObj ms ((fix go (l : list (jsstring * Json))
                  : Forall (fun kx => P (snd kx)) l :=
                  match l with
                  | [] => @List.Forall_nil _ (fun kx => P (snd kx))
                  | kx :: l' =>
                      @List.Forall_cons _ (fun kx => P (snd kx)) kx l'
                        (Json_ind P HNull HBool HNum HStr HArr HObj (snd kx))
                        (go l')
                  end) ms)
  end.

(** [JSON.stringify(value, null, 2)]. *)
Definition JSON_stringify (v : Json) : jsstring := serialize [] v.

(** The white space of the JSON grammar. *)
Definition isJsonWs (c : N) : bool :=
  (c =? 32) || (c =? 9) || (c =? 10) || (c =? 13).

Definition skipWs (s : jsstring) : jsstring := stripStart isJsonWs s.

Definition hexValue (c : N) : option N :=
  if isDigit c then Some (c - 48)
  else if (97 <=? c) && (c <=? 102) then Some (c - 87)
  else if (65 <=? c) && (c <=? 70) then Some (c - 55)
  else None.

Definition simpleEscape (c : N) : option N :=
  if c =? 34 then Some 34
  else if c =? 92 then Some 92
  else if c =? 47 then Some 47
  else if c =? 98 then Some 8
  else if c =? 102 then Some 12
  else if c =? 110 then Some 10
  else if c =? 114 then Some 13
  else if c =? 116 then Some 9
  else None.

(** The characters of a string up to its closing quote, and what
    follows it. *)
Fixpoint parseChars (s : jsstring) : option (jsstring * jsstring) :=
  match s with
  | [] => None
  | c :: r =>
      if c =? 34 then Some ([], r)
      else if c =? 92 then
        match r with
        | [] => None
        | e :: r1 =>
            if e =? 117 then
              match r1 with
              | h1 :: h2 :: h3 :: h4 :: r2 =>
                  match hexValue h1, hexValue h2, hexValue h3, hexValue h4,
                        parseChars r2 with
                  | Some a, Some b, Some c', Some d, Some (str, r3) =>
                      Some (((a * 16 + b) * 16 + c') * 16 + d :: str, r3)
                  | _, _, _, _, _ => None
                  end
              | _ => None
              end
            else
              match simpleEscape e, parseChars r1 with
              | Some v, Some (str, r2) => Some (v :: str, r2)
              | _, _ => None
              end
        end
      else if c <? 32 then None
      else
        match parseChars r with
        | Some (str, r1) => Some (c :: str, r1)
        | None => None
        end
  end.

(** The longest run of digits. *)
Fixpoint readDigits (s : jsstring) : Decimal.uint * jsstring :=
  match s with
  | [] => (Decimal.Nil, [])
  | c :: r =>
      let (u, r') := readDigits r in
      if c =? 48 then (Decimal.D0 u, r')
      else if c =? 49 then (Decimal.D1 u, r')
      else if c =? 50 then (Decimal.D2 u, r')
      else if c =? 51 then (Decimal.D3 u, r')
      else if c =? 52 then (Decimal.D4 u, r')
      else if c =? 53 then (Decimal.D5 u, r')
      else if c =? 54 then (Decimal.D6 u, r')
      else if c =? 55 then (Decimal.D7 u, r')
      else if c =? 56 then (Decimal.D8 u, r')
      else if c =? 57 then (Decimal.D9 u, r')
      else (Decimal.Nil, s)
  end.

(** An integer: an optional minus sign and digits. *)
Definition parseNumber (s : jsstring) : option (Json * jsstring) :=
  match s with
  | [] => None
  | c :: r =>
      if c =? 45 then
        match readDigits r with
        | (Decimal.Nil, _) => None
        | (u, r') => Some (JNum (- Z.of_N (N.of_uint u)), r')
        end
      else
        match readDigits s with
        | (Decimal.Nil, _) => None
        | (u, r') => Some (JNum (Z.of_N (N.of_uint u)), r')
        end
  end.

(** [s] starts with [p]: what follows [p]. *)
Fixpoint expect (p s : jsstring) : option jsstring :=
  match p with
  | [] => Some s
  | a :: p' =>
      match s with
      | b :: s' => if a =? b then expect p' s' else None
      | [] => None
      end
  end.

(** A value and what follows it; the elements of an array after its
    bracket; the members of an object after its brace.  [fuel] bounds
    the nesting and the number of elements. *)
Fixpoint parseValue (fuel : nat) (s : jsstring) {struct fuel}
  : option (Json * jsstring) :=
  match fuel with
  | O => None
  | S f =>
      match skipWs s with
      | [] => None
      | c :: r =>
          if c =? 110 then
            match expect (u16 "ull") r with
            | Some r' => Some (JNull, r') | None => None end
          else if c =? 116 then
            match expect (u16 "rue") r with
            | Some r' => Some (JBool true, r') | None => None end
          else if c =? 102 then
            match expect (u16 "alse") r with
            | Some r' => Some (JBool false, r') | None => None end
          else if c =? 34 then
            match parseChars r with
            | Some (str, r') => Some (JStr str, r') | None => None end
          else if c =? 91 then
            match skipWs r with
            | [] => None
            | d :: r' =>
                if d =? 93 then Some (JArr [], r')
                else match parseElements f r with
                     | Some (items, r'') => Some (JArr items, r'')
                     | None => None
                     end
            end
          else if c =? 123 then
            match skipWs r with
            | [] => None
            | d :: r' =>
                if d =? 125 then Some (JObj [], r')
                else match parseMembers f r with
                     | Some (members, r'') => Some (JObj members, r'')
                     | None => None
                     end
            end
          else parseNumber (c :: r)
      end
  end
with parseElements (fuel : nat) (s : jsstring) {struct fuel}
  : option (list Json * jsstring) :=
  match fuel with
  | O => None
  | S f =>
      match parseValue f s with
      | None => None
      | Some (v, r) =>
          match skipWs r with
          | [] => None
          | d :: r' =>
              if d =? 44 then
                match parseElements f r' with
                | Some (items, r'') => Some (v :: items, r'')
                | None => None
                end
              else if d =? 93 then Some ([v], r')
              else None
          end
      end
  end
with parseMembers (fuel : nat) (s : jsstring) {struct fuel}
  : option (list (jsstring * Json) * jsstring) :=
  match fuel with
  | O => None
  | S f =>
      match skipWs s with
      | [] => None
      | q :: r0 =>
          if q =? 34 then
            match parseChars r0 with
            | None => None
            | Some (k, r1) =>
                match skipWs r1 with
                | [] => None
                | colon :: r2 =>
                    if colon =? 58 then
                      match parseValue f r2 with
                      | None => None
                      | Some (v, r) =>
                          match skipWs r with
                          | [] => None
                          | d :: r' =>
                              if d =? 44 then
                                match parseMembers f r' with
                                | Some (members, r'') => Some ((k, v) :: members, r'')
                                | None => None
                                end
                              else if d =? 125 then Some ([(k, v)], r')
                              else None
                          end
                      end
                    else None
                end
            end
          else None
      end
  end.

(** The characters a value's text can start with. *)
Definition valueStart (c : N) : bool :=
  (c =? 110) || (c =? 116) || (c =? 102) || (c =? 34) || (c =? 91)
  || (c =? 123) || (c =? 45) || isDigit c.

(** [JSON.parse(text)]: one value, and nothing but white space after
    it.  The length of the text is fuel enough. *)
Definition JSON_parse (text : jsstring) : option Json :=
  match parseValue (S (length text)) text with
  | Some (v, r) => match skipWs r with [] => Some v | _ :: _ => None end
  | None => None
  end.

(** The text of a value, at any indentation and whatever follows it
    (short of a digit), is read back as the value. *)
Definition parsesBack (v : Json) : Prop :=
  forall (indent : jsstring) (fuel : nat) (rest : jsstring),
    forallb isJsonWs indent = true -> headIs isDigit rest = false ->
    (weight v <= fuel)%nat ->
    parseValue fuel (serialize indent v ++ rest) = Some (v, rest).

(** A record of a page as the object [{uri, cid, value}]. *)
Definition recordJson (r : PostRecord Json) : Json :=
  JObj [(u16 "uri", JStr (uri r)); (u16 "cid", JStr (cid r));
        (u16 "value", value r)].

(** [exportData] of [exportPosts], and the text written to the file. *)
Definition exportData (records : list (PostRecord Json)) : Json :=
  JArr (List.map recordJson records).

Definition exportPosts (records : list (PostRecord Json)) : jsstring :=
  JSON_stringify (exportData records).

(** [triggerJsonExport(data, filename)] of [ui.js]: the text of the
    download, for records that are [{uri, cid, value}] objects. *)
Definition triggerJsonExport (data : list (PostRecord Json)) : jsstring :=
  JSON_stringify (JArr (List.map recordJson data)).

(** [obj[key]]. *)
Fixpoint getMember (key : jsstring) (members : list (jsstring * Json))
  : option Json :=
  match members with
  | [] => None
  | (k, v) :: ms => if JSString.eqb k key then Some v else getMember key ms
  end.

(** The entry an object of the file stands for. *)
Definition entryOf (j : Json) : option (PostRecord Json) :=
  match j with
  | JObj ms =>
      match getMember (u16 "uri") ms, getMember (u16 "cid") ms,
            getMember (u16 "value") ms with
      | Some (JStr u), Some (JStr c), Some v => Some (mkRecord u c v)
      | _, _, _ => None
      end
  | _ => None
  end.

End Json.

(** ** The editor's list view, export and delete ([ui.js], [state.js]) *)

Module EditorView.
Import JSString Post Store Projection Editor.

(** The Load More button, as far as [updateLoadMoreButton] sets it. *)
Record Button := mkButton {
  hidden : bool;
  disabled : bool;
  textContent : jsstring
}.

(** [updateLoadMoreButton()], for a button that is in the page. *)
Definition updateLoadMoreButton (st : State) (button : Button) : Button :=
  let allLoaded := allPostsLoaded st in
  let isLoading := isLoadingMore st in
  let shouldBeVisible := negb allLoaded in
  let shouldBeEnabled := negb isLoading && shouldBeVisible in
  mkButton (negb shouldBeVisible) (negb shouldBeEnabled)
    (if shouldBeVisible
     then (if isLoading then u16 "Loading..." else u16 "Load More Posts")
     else textContent button).

(** What [renderPostList] puts in the list: one message, or the items
    of the records to display. *)
Inductive PostList :=
| ListMessage (html : jsstring)
| ListItems (records : list record).

Definition loadingMessage : jsstring := u16 "<li>Loading posts...</li>".
Definition noPostsYetMessage : jsstring :=
  u16 "<li>You have no posts yet. Create one!</li>".
Definition noPostsFoundMessage : jsstring :=
  u16 "<li>No posts found. Create one!</li>".
Definition noMatchMessage : jsstring :=
  u16 "<li>No posts match your current search/filter criteria.</li>".

(** What [handleExport] does: a warning and no file, or the file of
    the sorted posts. *)
Inductive Export :=
| NothingToExport
| ExportFile (sortedPosts : list record).

Section View.
Variable toLowerCase : jsstring -> jsstring.
Variable parseDate : jsstring -> option Z.

(** [renderPostList()]. *)
Definition renderPostList (st : State) : PostList :=
  let allCachedPosts := fetchedPostsCache st in
  let postsToDisplay :=
    getFilteredAndSortedPosts toLowerCase parseDate allCachedPosts
      (searchTerm st) (filterCategory st) (sortOrder st) in
  if (length allCachedPosts =? 0)%nat then
    if isLoadingMore st then ListMessage loadingMessage
    else if allPostsLoaded st then ListMessage noPostsYetMessage
    else ListMessage noPostsFoundMessage
  else if (length postsToDisplay =? 0)%nat then ListMessage noMatchMessage
  else ListItems postsToDisplay.

(** [handleExport()]: the posts handed to [triggerJsonExport]. *)
Definition handleExport (st : State) : Export :=
  let postsToExport := fetchedPostsCache st in
  if (length postsToExport =? 0)%nat then NothingToExport
  else ExportFile
         (getFilteredAndSortedPosts toLowerCase parseDate postsToExport [] []
            (sortOrder st)).

(** A post passes the category filter and the search filter of
    [getFilteredAndSortedPosts]. *)
Definition passesFilters (searchTerm category : jsstring) (post : record) : bool :=
  (if nonEmpty category then
     if JSString.eqb category (u16 "Recommended")
     then isRecommended post else hasCategory category post
   else true)
  && (if nonEmpty searchTerm
      then matchesSearch toLowerCase (toLowerCase searchTerm) post
      else true).

End View.

(** [handleDeletePost(uri)]: [confirmed] is the answer of the user to
    [confirm], [failure] the message of the error
    [api.deleteBlogPostRecord] threw, if it threw. *)
Definition handleDeletePost (u : jsstring) (confirmed : bool)
    (failure : option jsstring) (st : State) : State :=
  if negb confirmed then st
  else match failure with
       | None => handleDeletePost_deleted u st
       | Some _ => st
       end.

(** [handleSearchChange], [handleFilterChange], [handleSortChange]. *)
Definition handleSearchChange (term : jsstring) (st : State) : State :=
  setSearchTerm term st.
Definition handleFilterChange (c : jsstring) (st : State) : State :=
  setFilterCategory c st.
Definition handleSortChange (o : jsstring) (st : State) : State :=
  setSortOrder o st.

(** A store of one page that answers every request alike. *)
Definition onePage (recs : list record) (_ : unit) (_ : ListRequest)
  : ListResponse * unit :=
  (RespOk (Some recs) None, tt).

Section Creates.
Variable Store : Type.
Variable listRecords : Store -> ListRequest -> ListResponse * Store.

(** A record created by [handleSavePost] has a [uri] the store has just
    made: one that is not in the cache. *)
Definition freshCreate (st : State) (a : Action) : Prop :=
  match a with
  | Saved rkey r =>
      truthy rkey = false -> ~ In (uri r) (List.map uri (fetchedPostsCache st))
  | _ => True
  end.

Fixpoint freshCreates (sw : State * World Store) (actions : list Action) : Prop :=
  match actions with
  | [] => True
  | a :: rest =>
      freshCreate (fst sw) a /\ freshCreates (step Store listRecords sw a) rest
  end.

End Creates.

End EditorView.

(** ** Handles and DIDs: the reader's validators ([utils.js]) *)

Module Validate.
Import JSString.

Definition isAlnum (c : N) : bool :=
  isLowerAscii c || isUpperAscii c || isDigit c.

Definition dot : N := 46.

(** [s.endsWith(p)]. *)
Definition endsWith (s p : jsstring) : bool := startsWith (rev s) (rev p).

(** [s.split(sep)] for a separator of one character: the pieces
    between the separators, one more than there are separators. *)
Fixpoint split (sep : N) (s : jsstring) : list jsstring :=
  match s with
  | [] => [[]]
  | c :: s' =>
      if c =? sep then [] :: split sep s'
      else match split sep s' with
           | p :: ps => (c :: p) :: ps
           | [] => [[c]]
           end
  end.

(** [[a-zA-Z0-9.-]]. *)
Definition isHandleChar (c : N) : bool := isAlnum c || (c =? dot) || isHyphen c.

(** [isValidHandle(handle)], for a string. *)
Definition isValidHandle (handle : jsstring) : bool :=
  if (length handle <? 3)%nat || (256 <? length handle)%nat then false
  else if negb (nonEmpty handle && forallb isHandleChar handle) then false
  else if includes handle (u16 "..") || startsWith handle (u16 ".")
          || endsWith handle (u16 ".") || startsWith handle (u16 "-")
          || endsWith handle (u16 "-") then false
  else if negb (includes handle (u16 ".")) then false
  else if (length (List.last (split dot handle) []) <? 2)%nat then false
  else true.

(** [[a-zA-Z0-9._:%-]]. *)
Definition isDidChar (c : N) : bool :=
  isAlnum c || (c =? 46) || (c =? 95) || (c =? 58) || (c =? 37) || (c =? 45).

(** What follows the prefix [p] in [s], when [s] starts with it. *)
Fixpoint dropPrefix (p s : jsstring) : option jsstring :=
  match p with
  | [] => Some s
  | a :: p' =>
      match s with
      | b :: s' => if a =? b then dropPrefix p' s' else None
      | [] => None
      end
  end.

(** [[a-zA-Z0-9._:%-]*[a-zA-Z0-9]$]: characters of the class, the last
    one a letter or a digit. *)
Definition didTail (s : jsstring) : bool :=
  forallb isDidChar s && lastIs isAlnum s.

(** [isValidDID(did)], for a string: the pattern
    [^did:(plc:|web:)[a-zA-Z0-9._:%-]*[a-zA-Z0-9]$]. *)
Definition isValidDID (did : jsstring) : bool :=
  match dropPrefix (u16 "did:") did with
  | Some r =>
      match dropPrefix (u16 "plc:") r with
      | Some t => didTail t
      | None =>
          match dropPrefix (u16 "web:") r with
          | Some t => didTail t
          | None => false
          end
      end
  | None => false
  end.

(** The view [handleRouteChange] of the reader's [main.js] opens for the
    parameters [DID], [view-post] and [category] of the address ([None]
    when the parameter is not there).  [decodeURIComponent] is the
    runtime's; it throws for a malformed escape ([None]), and the
    handler does not catch that. *)
Inductive View :=
| SinglePostView (did slug : jsstring)
| ListView (did : jsstring)
| SearchView
| RouteThrows.

Definition handleRouteChange (decodeURIComponent : jsstring -> option jsstring)
    (didParam viewPostSlug categoryParam : option jsstring) : View :=
  match (if truthy categoryParam
         then decodeURIComponent (default [] categoryParam) else Some []) with
  | None => RouteThrows
  | Some _ =>
      let did := default [] didParam in
      if truthy viewPostSlug && truthy didParam && isValidDID did then
        match decodeURIComponent (default [] viewPostSlug) with
        | Some slug => SinglePostView did slug
        | None => RouteThrows
        end
      else if truthy didParam && isValidDID did then ListView did
      else SearchView
  end.

(** Where [handleSearchSubmit] goes for the trimmed text of the search
    field: nowhere for an empty query or while a search is loading,
    straight to the posts of a DID, through the resolution of a handle,
    or to an error. *)
Inductive SearchTarget :=
| SearchNothing
| SearchDid (did : jsstring)
| SearchHandle (handle : jsstring)
| SearchInvalid.

Definition handleSearchSubmit (isLoading : bool) (query : jsstring)
  : SearchTarget :=
  if negb (nonEmpty query) || isLoading then SearchNothing
  else if isValidDID query then SearchDid query
  else if isValidHandle query then SearchHandle query
  else SearchInvalid.

End Validate.

(** ** The command-line manager: prompts and the pages of [managePosts] *)

Module CliManage.
Import JSString Post Store Slug.

(** What a validator of a prompt answers: [true], or a message. *)
Inductive Validation :=
| Valid
| Invalid (message : jsstring).

Definition isLowerOrDigit (c : N) : bool := isLowerAscii c || isDigit c.

(** The rest of [[a-z0-9]+(?:-[a-z0-9]+)*$] after a first character of
    [[a-z0-9]]: more of them, or a hyphen with one of them behind it. *)
Fixpoint slugGroups (s : jsstring) : bool :=
  match s with
  | [] => true
  | c :: s' =>
      if isLowerOrDigit c then slugGroups s'
      else if isHyphen c then
        match s' with
        | d :: _ => isLowerOrDigit d && slugGroups s'
        | [] => false
        end
      else false
  end.

(** [/^[a-z0-9]+(?:-[a-z0-9]+)*$/.test(input)]. *)
Definition slugPattern (input : jsstring) : bool :=
  match input with
  | c :: s => isLowerOrDigit c && slugGroups s
  | [] => false
  end.

(** [validateSlug(input)]. *)
Definition validateSlug (input : jsstring) : Validation :=
  if negb (nonEmpty input) then Invalid (u16 "Slug cannot be empty.")
  else if negb (slugPattern input) then
    Invalid (u16 "Slug must contain only lowercase letters, numbers, and single hyphens (not at start/end).")
  else Valid.

(** [validateCharacterLimit(limit)(input)]. *)
Definition validateCharacterLimit (limit : N) (input : jsstring) : Validation :=
  if nonEmpty input && (limit <? N.of_nat (length input))
  then Invalid (u16 "Input cannot exceed " ++ decimal limit ++ u16 " characters.")
  else Valid.

(** What [promptForField] does to the text entered for the slug:
    [value.toLowerCase().trim().replace(/\s+/g, '-').replace(/[^\w-]+/g, '')]. *)
Definition cleanSlug (toLowerCase : jsstring -> jsstring) (value : jsstring)
  : jsstring :=
  stripNonWord (collapseRuns isWhiteSpace false (trim (toLowerCase value))).

(** Where [managePosts] is in the list: the cursor of the page on
    display, its number, and the cursors of the pages before it, the one
    pushed last first. *)
Record Nav := mkNav {
  currentCursor : option jsstring;
  pageNumber : Z;
  history : list (option jsstring)
}.

Definition initialNav : Nav := mkNav None 1 [].

(** The choices of the list prompt that move through the pages or pick
    a post to look at; editing and deleting a post, which change the
    store, are not among them. *)
Inductive Selection :=
| SelectNext
| SelectPrev
| SelectBack
| SelectPost (i : nat).

(** The choice is one the prompt offers for a page of [n] posts that
    came with [nextCursor]. *)
Definition offered (n : nat) (nextCursor : option jsstring) (nav : Nav)
    (sel : Selection) : bool :=
  match sel with
  | SelectNext => truthy nextCursor
  | SelectPrev => (1 <? pageNumber nav)%Z
  | SelectBack => true
  | SelectPost i => (i <? n)%nat
  end.

(** One turn of the loop of [managePosts] after the prompt: where the
    list is next, or [None] when the loop is left. *)
Definition navigate (nextCursor : option jsstring) (sel : Selection)
    (nav : Nav) : option Nav :=
  match sel with
  | SelectNext =>
      if truthy nextCursor
      then Some (mkNav nextCursor (pageNumber nav + 1)
                   (currentCursor nav :: history nav))
      else Some nav
  | SelectPrev =>
      match history nav with
      | c :: h => Some (mkNav c (pageNumber nav - 1) h)
      | [] => Some nav
      end
  | SelectBack => None
  | SelectPost _ => Some nav
  end.

(** The cursors the store has returned in the exchanges [tr]. *)
Definition returnedCursors (tr : list (ListRequest * ListResponse))
  : list (option jsstring) :=
  flat_map (fun e => match snd e with RespOk _ c => [c] | _ => [] end) tr.

(** The page number counts the cursors of the history, and every cursor
    kept is none (the first page) or one of [known]. *)
Definition goodNav (known : list (option jsstring)) (nav : Nav) : Prop :=
  pageNumber nav = (1 + Z.of_nat (length (history nav)))%Z
  /\ Forall (fun c => c = None \/ In c known) (currentCursor nav :: history nav).

Definition POSTS_PER_PAGE_CLI : N := 15.

(** The page [fetchRecordPage] returns for an answer of the store: its
    records and its cursor, and for a failed request the empty page
    without a cursor. *)
Definition pageOf (resp : ListResponse) : list record * option jsstring :=
  match resp with
  | RespOk records cursor' => (default [] records, cursor')
  | _ => ([], None)
  end.

(** The exchanges of a run of [managePosts] from [nav] with the choices
    [selections]: a request for the page at the cursor of [nav]; after
    it nothing more when the page on display is empty on page 1, when no
    choice is left, or when the choice is to go back; and otherwise the
    exchanges of the run from where the choice leads. *)
Fixpoint manages (nav : Nav) (selections : list Selection)
    (tr : list (ListRequest * ListResponse)) {struct tr} : Prop :=
  match tr with
  | [] => False
  | (req, resp) :: tr' =>
      req = mkRequest POSTS_PER_PAGE_CLI (currentCursor nav)
      /\ if (length (fst (pageOf resp)) =? 0)%nat && (pageNumber nav =? 1)%Z
         then tr' = []
         else
           match selections with
           | [] => tr' = []
           | sel :: rest =>
               match navigate (snd (pageOf resp)) sel nav with
               | Some nav' => manages nav' rest tr'
               | None => tr' = []
               end
           end
  end.

Section Pages.
Variable Store : Type.
Variable listRecords : Store -> ListRequest -> ListResponse * Store.

(** [fetchRecordPage(collection, limit, cursor)]: a failed request
    gives an empty page without a cursor. *)
Definition fetchRecordPage (w : World Store) (lim : N)
    (cursor : option jsstring)
  : list record * option jsstring * World Store :=
  let (resp, w') := call listRecords w (mkRequest lim cursor) in
  match resp with
  | RespOk records cursor' => (default [] records, cursor', w')
  | _ => ([], None, w')
  end.

(** The loop of [managePosts] for the choices the user makes, one at
    each prompt; it ends when the user goes back, when the first page
    has no post, or (in the model only) at the prompt no choice is left
    for. *)
Fixpoint managePosts_loop (w : World Store) (nav : Nav)
    (selections : list Selection) {struct selections} : Nav * World Store :=
  let '(records, nextCursor, w') :=
    fetchRecordPage w POSTS_PER_PAGE_CLI (currentCursor nav) in
  if (length records =? 0)%nat && (pageNumber nav =? 1)%Z then (nav, w')
  else
    match selections with
    | [] => (nav, w')
    | sel :: rest =>
        match navigate nextCursor sel nav with
        | Some nav' => managePosts_loop w' nav' rest
        | None => (nav, w')
        end
    end.

Definition managePosts (w : World Store) (selections : list Selection)
  : Nav * World Store :=
  managePosts_loop w initialNav selections.

End Pages.

End CliManage.

(** ** The reader: [findRecordBySlug] *)

Module ReaderFind.
Import JSString Post Store Reader.

(** What [findRecordBySlug] returns: the record, or [null].
    [FindOutOfFuel] is the model's own. *)
Inductive Found :=
| FoundRecord (r : record)
| NotFound
| FindOutOfFuel.

(** [record?.value?.slug === slug]. *)
Definition slugIs (slug : jsstring) (r : record) : bool :=
  match Post.slug (value r) with
  | Some s => JSString.eqb s slug
  | None => false
  end.

Section Find.
Variable Store : Type.
Variable listRecords : Store -> ListRequest -> ListResponse * Store.

(** The [do ... while (currentCursor)] loop of [findRecordBySlug];
    an error of [fetchRecords] is caught and becomes [return null]. *)
Fixpoint findRecordBySlug_loop (fuel : nat) (w : World Store)
    (collection slug : jsstring) (maxPagesToCheck pagesFetched : nat)
    (currentCursor : option jsstring) : Found * World Store :=
  match fuel with
  | O => (FindOutOfFuel, w)
  | S fuel' =>
      let pagesFetched' := S pagesFetched in
      let (page, w') :=
        fetchRecords Store listRecords w collection MAX_LIST_LIMIT currentCursor in
      match page with
      | PageThrown _ => (NotFound, w')
      | PageOk records nextCursor =>
          match List.find (slugIs slug) records with
          | Some r => (FoundRecord r, w')
          | None =>
              if negb (truthy nextCursor) then (NotFound, w')
              else if (maxPagesToCheck <=? pagesFetched')%nat then (NotFound, w')
              else findRecordBySlug_loop fuel' w' collection slug
                     maxPagesToCheck pagesFetched' nextCursor
          end
      end
  end.

(** [findRecordBySlug(did, collection, slug, maxPagesToCheck)]; the
    loop makes at most [max 1 maxPagesToCheck] turns. *)
Definition findRecordBySlug (w : World Store) (collection slug : jsstring)
    (maxPagesToCheck : nat) : Found * World Store :=
  findRecordBySlug_loop (S maxPagesToCheck) w collection slug
    maxPagesToCheck 0 None.

End Find.
End ReaderFind.

(** ** The bookmark bot: [escapeMarkdownV2] and [listAllRecords] *)

Module Bot.
Import JSString Post Store.

(** The characters of ['_*[]()~`>#+=|{}.!'], which the first
    replacement of [escapeMarkdownV2] puts a backslash before. *)
Definition charsToEscape : jsstring := u16 "_*[]()~`>#+=|{}.!".

Definition isCharToEscape (c : N) : bool := existsb (N.eqb c) charsToEscape.

Definition backslash : N := 92.

(** [s.replace(/[...]/g, '\$&')] for the class of the characters
    satisfying [P]: a backslash before each of them. *)
Fixpoint escapeChars (P : N -> bool) (s : jsstring) : jsstring :=
  match s with
  | [] => []
  | c :: s' =>
      if P c then backslash :: c :: escapeChars P s'
      else c :: escapeChars P s'
  end.

(** [escapeMarkdownV2(text)]: the characters of [charsToEscape] first,
    the hyphen after them. *)
Definition escapeMarkdownV2 (text : jsstring) : jsstring :=
  if negb (nonEmpty text) then []
  else escapeChars isHyphen (escapeChars isCharToEscape text).

(** The characters Telegram's MarkdownV2 wants escaped, as the function
    treats them: the seventeen and the hyphen; and a character with the
    backslash it gets when it is one of them. *)
Definition isMarkdownSpecial (c : N) : bool := isCharToEscape c || isHyphen c.

Definition escaped (c : N) : jsstring :=
  if isMarkdownSpecial c then [backslash; c] else [c].

Section List.
Variable Store : Type.
Variable listRecords : Store -> ListRequest -> ListResponse * Store.

(** The [do ... while (cursor)] loop of [listAllRecords]: a response
    that is not ok, and an error of the request, end it with
    [return []]. *)
Fixpoint listAllRecords_loop (fuel : nat) (w : World Store)
    (cursor : option jsstring) (allRecords : list record)
  : Outcome * World Store :=
  match fuel with
  | O => (OutOfFuel, w)
  | S fuel' =>
      let req := mkRequest 100 (if truthy cursor then cursor else None) in
      let (resp, w') := call listRecords w req in
      match resp with
      | RespOk records cursor' =>
          let allRecords' := allRecords ++ default [] records in
          if truthy cursor'
          then listAllRecords_loop fuel' w' cursor' allRecords'
          else (Returned allRecords', w')
      | _ => (Returned [], w')
      end
  end.

(** [listAllRecords(collection, env)]; [authorized] stands for the
    session and the headers being there. *)
Definition listAllRecords (authorized : bool) (fuel : nat) (w : World Store)
  : Outcome * World Store :=
  if negb authorized then (Returned [], w)
  else listAllRecords_loop fuel w None [].

End List.
End Bot.

(** ** The editor's stored session ([state.js]) *)

Module Session.
Import JSString Json.

(** [JSON.stringify(value)], without a gap: no white space at all. *)
Fixpoint itemsRest (ser : Json -> jsstring) (l : list Json) : jsstring :=
  match l with
  | [] => [93]
  | y :: l' => 44 :: ser y ++ itemsRest ser l'
  end.

Fixpoint membersRest (ser : Json -> jsstring) (l : list (jsstring * Json))
  : jsstring :=
  match l with
  | [] => [125]
  | (k, y) :: l' => 44 :: quote k ++ 58 :: ser y ++ membersRest ser l'
  end.

Fixpoint stringify (v : Json) : jsstring :=
  match v with
  | JNull => u16 "null"
  | JBool true => u16 "true"
  | JBool false => u16 "false"
  | JNum n => serializeNumber n
  | JStr s => quote s
  | JArr [] => [91; 93]
  | JArr (x :: xs) => 91 :: stringify x ++ itemsRest stringify xs
  | JObj [] => [123; 125]
  | JObj ((k, x) :: ms) =>
      123 :: quote k ++ 58 :: stringify x ++ membersRest stringify ms
  end.

(** The text of a value, whatever follows it (short of a digit), is
    read back as the value. *)
Definition readsBack (v : Json) : Prop :=
  forall (fuel : nat) (rest : jsstring),
    headIs isDigit rest = false -> (weight v <= fuel)%nat ->
    parseValue fuel (stringify v ++ rest) = Some (v, rest).

(** Truthiness of a value of JSON: [null], [false], [0] and the empty
    string are falsy. *)
Definition jsTruthy (v : Json) : bool :=
  match v with
  | JNull => false
  | JBool b => b
  | JNum n => negb (n =? 0)%Z
  | JStr s => nonEmpty s
  | JArr _ | JObj _ => true
  end.

(** [v[key]] for a parsed value: [None] is [undefined], which is what
    every value but an object gives for the keys used here. *)
Definition member (key : jsstring) (v : Json) : option Json :=
  match v with
  | JObj ms => getMember key ms
  | _ => None
  end.

Definition LOCALSTORAGE_SESSION_KEY : jsstring := u16 "bskyBlogManagerSession".

(** [SESSION_MAX_AGE_HOURS * 60 * 60 * 1000] for the quarter of an hour
    of [config.js], in milliseconds. *)
Definition maxAgeMillis : Z := 900000.

(** [localStorage]: the strings stored under their keys. *)
Abbreviation Storage := (gmap jsstring jsstring) (only parsing).

(** [dataToStore] of [saveSessionToLocal]. *)
Definition dataToStore (now : Z) (sessionData : Json) (isInitialLogin : bool)
    (existingInitialLoginAt : Json) : Json :=
  let initialLoginAt := if isInitialLogin then JNum now else existingInitialLoginAt in
  let initialLoginAt :=
    if negb isInitialLogin && negb (jsTruthy initialLoginAt)
    then JNum now else initialLoginAt in
  JObj [(u16 "session", sessionData); (u16 "savedAt", JNum now);
        (u16 "initialLoginAt", initialLoginAt)].

(** [saveSessionToLocal(sessionData, isInitialLogin,
    existingInitialLoginAt)] at the time [now], for a storage that takes
    the item. *)
Definition saveSessionToLocal (now : Z) (sessionData : Json)
    (isInitialLogin : bool) (existingInitialLoginAt : Json) (ls : Storage)
  : Storage :=
  <[LOCALSTORAGE_SESSION_KEY :=
      stringify (dataToStore now sessionData isInitialLogin existingInitialLoginAt)]> ls.

Definition clearLocalSessionData (ls : Storage) : Storage :=
  delete LOCALSTORAGE_SESSION_KEY ls.

(** [loadSessionFromLocal()]: the parsed item, [None] for [null]; a
    text that does not parse is removed. *)
Definition loadSessionFromLocal (ls : Storage) : option Json * Storage :=
  match ls !! LOCALSTORAGE_SESSION_KEY with
  | Some s =>
      if nonEmpty s then
        match JSON_parse s with
        | Some v => (Some v, ls)
        | None => (None, clearLocalSessionData ls)
        end
      else (None, ls)
  | None => (None, ls)
  end.

(** What [attemptResumeSession] finds before it calls the server. *)
Inductive ResumeCheck :=
| NoStoredSession
| SessionExpired
| NoLoginTime
| CallResume (session initialLoginAt : Json).

Section Resume.
(** [Date.now() - t > maxAgeMillis] for a stored [t] that is not a
    number: the runtime's coercion decides. *)
Variable expiredByCoercion : Z -> Json -> bool.

Definition sessionExpired (now : Z) (initialLoginAt : Json) : bool :=
  match initialLoginAt with
  | JNum t => (maxAgeMillis <? now - t)%Z
  | other => expiredByCoercion now other
  end.

(** [attemptResumeSession()] up to the call of [api.resumeSession]. *)
Definition attemptResumeSession_check (now : Z) (ls : Storage)
  : ResumeCheck * Storage :=
  let (stored, ls1) := loadSessionFromLocal ls in
  match stored with
  | None => (NoStoredSession, ls1)
  | Some data =>
      match member (u16 "session") data with
      | Some session =>
          if negb (jsTruthy data) || negb (jsTruthy session)
          then (NoStoredSession, ls1)
          else
            match member (u16 "initialLoginAt") data with
            | Some t =>
                if jsTruthy t then
                  if sessionExpired now t
                  then (SessionExpired, clearLocalSessionData ls1)
                  else (CallResume session t, ls1)
                else (NoLoginTime, clearLocalSessionData ls1)
            | None => (NoLoginTime, clearLocalSessionData ls1)
            end
      | None => (NoStoredSession, ls1)
      end
  end.

(** [attemptResumeSession()] as far as the storage goes: [now] is the
    time of the age test, [later] the time at which the resumed session
    is saved, [resumed] the session [api.resumeSession] comes back with,
    [None] when it throws.  The result tells whether the session was
    resumed. *)
Definition attemptResumeSession (now later : Z) (resumed : option Json)
    (ls : Storage) : bool * Storage :=
  match attemptResumeSession_check now ls with
  | (CallResume session t, ls1) =>
      match resumed with
      | Some resumedSession =>
          (true, saveSessionToLocal later resumedSession false t ls1)
      | None => (false, clearLocalSessionData ls1)
      end
  | (_, ls1) => (false, ls1)
  end.

(** What [handleLogin] stores at the time [t0] of a login. *)
Definition handleLogin_saved (t0 : Z) (session : Json) (ls : Storage) : Storage :=
  saveSessionToLocal t0 session true JNull ls.

(** Page loads after it, each resuming the session: the times of the
    age test and of the save, and the members of the session object the
    server answers with. *)
Fixpoint resumes (loads : list (Z * Z * list (jsstring * Json)))
    (ls : Storage) : Storage :=
  match loads with
  | [] => ls
  | (now, later, ms) :: rest =>
      resumes rest (snd (attemptResumeSession now later (Some (JObj ms)) ls))
  end.

End Resume.
End Session.

(** ** The command line tool: the tags of a post *)

Module CliTags.
Import JSString Validate.

Definition comma : N := 44.
Definition noComma (s : jsstring) : bool := forallb (fun c => negb (c =? comma)) s.

Definition CLEAR_INPUT_COMMAND : jsstring := u16 "(clear)".

(** [l.join(sep)]. *)
Fixpoint join (sep : jsstring) (l : list jsstring) : jsstring :=
  match l with
  | [] => []
  | x :: l' =>
      match l' with
      | [] => x
      | _ :: _ => x ++ sep ++ join sep l'
      end
  end.

(** The [tags] of the post being entered: not set, the text of an
    answer, or an array of strings. *)
Inductive TagsField :=
| TagsUndefined
| TagsString (s : jsstring)
| TagsArray (l : list jsstring).

(** What [promptForField] returns for an optional text field: the
    answer, or the symbol [clear]. *)
Inductive Prompted :=
| Typed (value : jsstring)
| Cleared.

(** [promptConfig.default] of [promptForField] for the field [tags]. *)
Definition tagsDefault (currentValue : TagsField) : jsstring :=
  match currentValue with
  | TagsArray l => join (u16 ", ") l
  | TagsString s => s
  | TagsUndefined => []
  end.

(** [promptForField('tags', ...)] for the answer [value] of the
    prompt. *)
Definition promptForField_tags (value : jsstring) : Prompted :=
  if JSString.eqb value CLEAR_INPUT_COMMAND then Cleared else Typed value.

(** What [createPost] and [editPost] do with it: [post.tags] after
    [post[field] = null; post.tags = []], or after
    [post[field] = value]. *)
Definition storeTags (p : Prompted) : TagsField :=
  match p with
  | Cleared => TagsArray []
  | Typed value => TagsString value
  end.

(** [post.tags] after the answers to the prompts for the field, the
    one of the entry and the ones of the edits. *)
Definition enterTags (answers : list jsstring) (tags : TagsField) : TagsField :=
  fold_left (fun _ value => storeTags (promptForField_tags value)) answers tags.

(** [reviewData.tags]. *)
Definition reviewTags (tags : TagsField) : jsstring :=
  match tags with
  | TagsArray l => join (u16 ", ") l
  | _ => []
  end.

(** [l.map(t => t.trim()).filter(Boolean)]. *)
Definition trimmedTags (l : list jsstring) : list jsstring :=
  List.filter nonEmpty (List.map trim l).

(** [recordToSave.tags] of [createPost]. *)
Definition createPost_tags (tags : TagsField) : list jsstring :=
  match tags with
  | TagsArray l => trimmedTags l
  | _ => []
  end.

(** [postToEdit.tags] of [editPost] when the changes are saved. *)
Definition editPost_tags (tags : TagsField) : list jsstring :=
  match tags with
  | TagsString s => if nonEmpty s then trimmedTags (split comma s) else []
  | TagsArray l => trimmedTags l
  | TagsUndefined => []
  end.

(** A tag as [editPost] saves it. *)
Definition cleanTag (tag : jsstring) : Prop :=
  nonEmpty tag = true /\ trim tag = tag /\ noComma tag = true.

End CliTags.

(** ** The reader: the list of a user's posts ([renderer.js]) *)

Module ReaderList.
Import JSString Post Projection Validate.

(** The messages shown in place of an empty list. *)
Inductive NoResults :=
| NoneInCategoryMatching
| NoneMatching
| NoneInCategory
| NoBlogPosts (profileLink : bool)
| NoneForFilters.

Inductive ListView :=
| ShowPosts (posts : list (PostRecord PostValue))
| ShowMessage (m : NoResults).

Section Runtime.
Variable toLowerCase : jsstring -> jsstring.
Variable parseDate : jsstring -> option Z.

(** The test of [postsToProcess.filter]. *)
Definition passesListFilters (currentListSearchTerm currentCategoryFilter : jsstring)
    (record : PostRecord PostValue) : bool :=
  let lowerSearchTerm := toLowerCase currentListSearchTerm in
  let value := value record in
  if JSString.eqb currentCategoryFilter (u16 "recommended")
     && negb (isRecommended record)
  then false
  else
    let category := toLowerCase (default [] (category value)) in
    if nonEmpty currentCategoryFilter
       && negb (JSString.eqb currentCategoryFilter (u16 "recommended"))
       && negb (JSString.eqb category (toLowerCase currentCategoryFilter))
    then false
    else if nonEmpty lowerSearchTerm then
      let title := toLowerCase (default [] (title value)) in
      let description := toLowerCase (default [] (shortDescription value)) in
      let content := toLowerCase (default [] (content value)) in
      includes title lowerSearchTerm || includes description lowerSearchTerm
      || includes category lowerSearchTerm || includes content lowerSearchTerm
    else true.

(** The comparator of the sort: [0] when one of the dates is invalid. *)
Definition listCompareFn (currentSort : jsstring) (a b : PostRecord PostValue) : Z :=
  match dateOf parseDate a, dateOf parseDate b with
  | Some dateA, Some dateB =>
      if JSString.eqb currentSort (u16 "oldest") then (dateA - dateB)%Z
      else (dateB - dateA)%Z
  | _, _ => 0%Z
  end.

(** [applyFiltersSortAndRenderList(postsToProcess, ...)]: the posts
    handed to [renderPostList], or the message shown instead. *)
Definition applyFiltersSortAndRenderList (postsToProcess : list (PostRecord PostValue))
    (currentViewDID currentListSearchTerm currentCategoryFilter currentSort : jsstring)
  : ListView :=
  let filteredPosts :=
    List.filter (passesListFilters currentListSearchTerm currentCategoryFilter)
      postsToProcess in
  let sortedPosts := sortBy (listCompareFn currentSort) filteredPosts in
  if (0 <? length sortedPosts)%nat then ShowPosts sortedPosts
  else if nonEmpty currentListSearchTerm && nonEmpty currentCategoryFilter
  then ShowMessage NoneInCategoryMatching
  else if nonEmpty currentListSearchTerm then ShowMessage NoneMatching
  else if nonEmpty currentCategoryFilter then ShowMessage NoneInCategory
  else if (length postsToProcess =? 0)%nat
  then ShowMessage (NoBlogPosts (isValidDID currentViewDID))
  else ShowMessage NoneForFilters.

(** [a] may stand before [b] in the list: both dates are valid, and in
    the order asked for. *)
Definition inDateOrder (currentSort : jsstring) (a b : PostRecord PostValue) : Prop :=
  exists dateA dateB,
    dateOf parseDate a = Some dateA /\ dateOf parseDate b = Some dateB
    /\ if JSString.eqb currentSort (u16 "oldest") then (dateA <= dateB)%Z
       else (dateB <= dateA)%Z.

End Runtime.
End ReaderList.

(** * Properties *)

(** ** Strings *)

Module JSStringProps.
Import JSString.

Ltac bool_arith H :=
  repeat first
    [ rewrite orb_true_iff in H | rewrite andb_true_iff in H
    | rewrite N.leb_le in H | rewrite N.eqb_eq in H ].

Lemma stripStart_suffix P s : exists t, s = t ++ stripStart P s.
Proof.
  induction s as [|c s IH]; simpl.
  - exists []. reflexivity.
  - destruct (P c).
    + destruct IH as [t Ht]. exists (c :: t). simpl. congruence.
    + exists []. reflexivity.
Qed.

Lemma stripEnd_prefix P s : exists t, s = stripEnd P s ++ t.
Proof.
  induction s as [|c s IH]; simpl.
  - exists []. reflexivity.
  - destruct IH as [t Ht]. destruct (stripEnd P s) as [|d r] eqn:E.
    + destruct (P c).
      * exists (c :: s). reflexivity.
      * exists s. reflexivity.
    + exists t. simpl in *. congruence.
Qed.

Lemma headIs_stripStart P s : headIs P (stripStart P s) = false.
Proof.
  induction s as [|c s IH]; simpl; [reflexivity|].
  destruct (P c) eqn:E; [exact IH | simpl; exact E].
Qed.

Lemma lastIs_stripEnd P s : lastIs P (stripEnd P s) = false.
Proof.
  induction s as [|c s IH]; simpl; [reflexivity|].
  destruct (stripEnd P s) as [|d r] eqn:E.
  - destruct (P c) eqn:Ec; simpl; [reflexivity | exact Ec].
  - exact IH.
Qed.

Lemma headIs_app_l P s t : headIs P (s ++ t) = false -> headIs P s = false.
Proof. destruct s; simpl; auto. Qed.

Lemma headIs_stripEnd P Q s : headIs P s = false -> headIs P (stripEnd Q s) = false.
Proof.
  intros H. destruct (stripEnd_prefix Q s) as [t Ht].
  rewrite Ht in H. eapply headIs_app_l, H.
Qed.

Lemma stripStart_id P s : headIs P s = false -> stripStart P s = s.
Proof. destruct s as [|c s]; simpl; [reflexivity|]. intros ->. reflexivity. Qed.

Lemma stripEnd_id P s : lastIs P s = false -> stripEnd P s = s.
Proof.
  induction s as [|c s IH]; simpl; [reflexivity|].
  destruct s as [|d s'].
  - simpl. intros ->. reflexivity.
  - intros H. rewrite (IH H). reflexivity.
Qed.

Lemma eqb_eq (s t : jsstring) : JSString.eqb s t = true <-> s = t.
Proof.
  revert t. induction s as [|a s IH]; intros [|b t]; simpl; split;
    try congruence; try discriminate.
  - intros H. apply andb_true_iff in H as [H1 H2].
    apply N.eqb_eq in H1. apply IH in H2. congruence.
  - intros H. injection H as -> ->. rewrite N.eqb_refl. simpl. now apply IH.
Qed.

Lemma eqb_neq (s t : jsstring) : JSString.eqb s t = false <-> s <> t.
Proof.
  rewrite <- eqb_eq. destruct (JSString.eqb s t); split; congruence.
Qed.

Lemma compare_eq_iff (s t : jsstring) : JSString.compare s t = Eq <-> s = t.
Proof.
  revert t. induction s as [|a s IH]; intros [|b t]; simpl; split;
    try congruence; try discriminate.
  - destruct (N.compare_spec a b) as [Hab|Hab|Hab]; try discriminate.
    intros H. apply IH in H. congruence.
  - intros H. injection H as -> ->. rewrite N.compare_refl. now apply IH.
Qed.

Lemma compare_total (s t : jsstring) :
  JSString.compare s t <> Gt \/ JSString.compare t s <> Gt.
Proof.
  revert t. induction s as [|a s IH]; intros [|b t]; simpl;
    try (left; discriminate); try (right; discriminate).
  destruct (N.compare_spec a b), (N.compare_spec b a); try lia;
    try (left; discriminate); try (right; discriminate).
  apply IH.
Qed.

Lemma compare_trans (a b c : jsstring) :
  JSString.compare a b <> Gt -> JSString.compare b c <> Gt ->
  JSString.compare a c <> Gt.
Proof.
  revert b c. induction a as [|x a IH]; intros [|y b] [|z c]; simpl;
    try congruence; try discriminate.
  destruct (N.compare_spec x y), (N.compare_spec y z), (N.compare_spec x z);
    subst; try lia; try congruence; try discriminate.
  apply IH.
Qed.

Lemma trim_trimmed (c : jsstring) : trim (trim c) = trim c.
Proof.
  unfold trim.
  rewrite (stripStart_id isWhiteSpace (stripEnd _ _))
    by apply headIs_stripEnd, headIs_stripStart.
  rewrite stripEnd_id by apply lastIs_stripEnd. reflexivity.
Qed.

End JSStringProps.

(** ** The slug sanitizer is idempotent *)

Module SlugProps.
Import JSString Slug JSStringProps.

Lemma noAdjacent_app_l P s t : noAdjacent P (s ++ t) = true -> noAdjacent P s = true.
Proof.
  induction s as [|c s IH]; simpl; [reflexivity|].
  destruct s as [|d s']; simpl in *; [reflexivity|].
  intros H. apply andb_true_iff in H as [H1 H2].
  rewrite H1. simpl. apply IH, H2.
Qed.

Lemma noAdjacent_app_r P s t : noAdjacent P (s ++ t) = true -> noAdjacent P t = true.
Proof.
  induction s as [|c s IH]; simpl; [auto|].
  destruct (s ++ t) as [|d u] eqn:E.
  - destruct s; [simpl in E; subst; reflexivity | discriminate].
  - intros H. apply andb_true_iff in H as [_ H2]. apply IH, H2.
Qed.

Lemma forallb_collapseRuns Q P b s :
  Q hyphen = true -> forallb Q s = true -> forallb Q (collapseRuns P b s) = true.
Proof.
  intros Hh. revert b. induction s as [|c s IH]; intros b H; simpl in *; [reflexivity|].
  apply andb_true_iff in H as [H1 H2].
  destruct (P c); [destruct b|]; simpl; rewrite ?Hh, ?H1; simpl; auto.
Qed.

Lemma forallb_stripStart Q P s : forallb Q s = true -> forallb Q (stripStart P s) = true.
Proof.
  intros H. destruct (stripStart_suffix P s) as [t Ht]. rewrite Ht in H.
  rewrite forallb_app in H. apply andb_true_iff in H. tauto.
Qed.

Lemma forallb_stripEnd Q P s : forallb Q s = true -> forallb Q (stripEnd P s) = true.
Proof.
  intros H. destruct (stripEnd_prefix P s) as [t Ht]. rewrite Ht in H.
  rewrite forallb_app in H. apply andb_true_iff in H. tauto.
Qed.

Lemma slugChar_of_word c :
  isWordChar c || isHyphen c = true -> isUpperAscii c = false -> isSlugChar c = true.
Proof.
  unfold isWordChar, isSlugChar. intros H Hu. rewrite Hu in H. simpl in H.
  destruct (isLowerAscii c), (isDigit c), (c =? 95), (isHyphen c); simpl in *; congruence.
Qed.

Lemma forallb_stripNonWord s :
  forallb (fun c => negb (isUpperAscii c)) s = true ->
  forallb isSlugChar (stripNonWord s) = true.
Proof.
  unfold stripNonWord. induction s as [|c s IH]; simpl; [reflexivity|].
  intros H. apply andb_true_iff in H as [H1 H2].
  destruct (isWordChar c || isHyphen c) eqn:E; simpl; [|auto].
  rewrite slugChar_of_word; auto. now apply negb_true_iff in H1.
Qed.

Lemma collapseRuns_noAdjacent b s :
  noAdjacent isHyphen (collapseRuns isHyphen b s) = true /\
  (b = true -> headIs isHyphen (collapseRuns isHyphen b s) = false).
Proof.
  revert b. induction s as [|c s IH]; intros b; simpl; [split; auto|].
  destruct (isHyphen c) eqn:E.
  - destruct b.
    + apply IH.
    + split; [|discriminate].
      destruct (IH true) as [H1 H2]. specialize (H2 eq_refl).
      destruct (collapseRuns isHyphen true s) as [|d r]; [reflexivity|].
      simpl in H2.
      change (negb (isHyphen hyphen && isHyphen d) && noAdjacent isHyphen (d :: r) = true).
      rewrite H2, andb_false_r. exact H1.
  - split; [|intros _; simpl; exact E].
    destruct (IH false) as [H1 _].
    destruct (collapseRuns isHyphen false s) as [|d r]; [reflexivity|].
    change (negb (isHyphen c && isHyphen d) && noAdjacent isHyphen (d :: r) = true).
    rewrite E. exact H1.
Qed.

Lemma slugChar_not_whitespace c : isSlugChar c = true -> isWhiteSpace c = false.
Proof.
  unfold isSlugChar, isWhiteSpace, isLowerAscii, isDigit, isHyphen, hyphen.
  intros H. apply not_true_is_false. intros W.
  bool_arith H. bool_arith W. lia.
Qed.

Lemma slugChar_word c : isSlugChar c = true -> isWordChar c || isHyphen c = true.
Proof.
  unfold isSlugChar, isWordChar.
  destruct (isUpperAscii c), (isLowerAscii c), (isDigit c), (c =? 95), (isHyphen c); simpl; congruence.
Qed.

Lemma collapseRuns_none P b s :
  forallb (fun c => negb (P c)) s = true -> collapseRuns P b s = s.
Proof.
  revert b. induction s as [|c s IH]; intros b H; simpl in *; [reflexivity|].
  apply andb_true_iff in H as [H1 H2]. apply negb_true_iff in H1. rewrite H1.
  f_equal. auto.
Qed.

Lemma collapseRuns_hyphen_id b s :
  noAdjacent isHyphen s = true ->
  (b = true -> headIs isHyphen s = false) ->
  collapseRuns isHyphen b s = s.
Proof.
  revert b. induction s as [|c s IH]; intros b Hn Hb; simpl in *; [reflexivity|].
  destruct (isHyphen c) eqn:E.
  - destruct b; [specialize (Hb eq_refl); congruence|].
    apply N.eqb_eq in E. subst c. f_equal.
    destruct s as [|d s']; [reflexivity|].
    apply andb_true_iff in Hn as [H1 H2].
    apply IH; [exact H2|]. intros _. simpl.
    apply negb_true_iff in H1. simpl in H1. exact H1.
  - f_equal. destruct s as [|d s']; [reflexivity|].
    apply andb_true_iff in Hn as [_ H2]. apply IH; [exact H2 | discriminate].
Qed.

Lemma forallb_weaken (P Q : N -> bool) s :
  (forall c, P c = true -> Q c = true) -> forallb P s = true -> forallb Q s = true.
Proof.
  intros HPQ. induction s as [|c s IH]; simpl; [reflexivity|].
  intros H. apply andb_true_iff in H as [H1 H2]. rewrite HPQ, IH; auto.
Qed.

Lemma filter_all (f : N -> bool) s : forallb f s = true -> List.filter f s = s.
Proof.
  induction s as [|c s IH]; simpl; [reflexivity|].
  intros H. apply andb_true_iff in H as [H1 H2]. rewrite H1, IH; auto.
Qed.

Lemma forallb_head_last P s :
  forallb (fun c => negb (P c)) s = true -> headIs P s = false /\ lastIs P s = false.
Proof.
  induction s as [|c s IH]; simpl; [auto|].
  intros H. apply andb_true_iff in H as [H1 H2]. apply negb_true_iff in H1.
  split; [exact H1|]. destruct s; [exact H1 | apply IH, H2].
Qed.

Section Idempotence.
Variable toLowerCase : jsstring -> jsstring.
Hypothesis toLowerCase_no_upper :
  forall s, forallb (fun c => negb (isUpperAscii c)) (toLowerCase s) = true.
Hypothesis toLowerCase_slug :
  forall s, forallb isSlugChar s = true -> toLowerCase s = s.

Lemma sanitizeSlug_sanitized x final : sanitized final (sanitizeSlug toLowerCase x final).
Proof using toLowerCase_no_upper.
  unfold sanitizeSlug. destruct x as [|c x]; [repeat split; destruct final; reflexivity|].
  set (l := toLowerCase (c :: x)).
  assert (H0 : forallb (fun c => negb (isUpperAscii c)) l = true) by apply toLowerCase_no_upper.
  assert (H3 : forallb isSlugChar
                 (stripNonWord (collapseRuns isWhiteSpace false (trim l))) = true).
  { apply forallb_stripNonWord, forallb_collapseRuns; [reflexivity|].
    unfold trim. apply forallb_stripEnd, forallb_stripStart, H0. }
  set (l3 := stripNonWord _) in *.
  assert (H4 : forallb isSlugChar (collapseRuns isHyphen false l3) = true)
    by (apply forallb_collapseRuns; [reflexivity | exact H3]).
  destruct (collapseRuns_noAdjacent false l3) as [H5 _].
  set (l4 := collapseRuns isHyphen false l3) in *.
  cbv zeta. destruct final.
  - repeat split.
    + apply forallb_stripEnd, forallb_stripStart, H4.
    + destruct (stripStart_suffix isHyphen l4) as [t Ht].
      destruct (stripEnd_prefix isHyphen (stripStart isHyphen l4)) as [u Hu].
      rewrite Ht in H5. apply noAdjacent_app_r in H5.
      rewrite Hu in H5. apply noAdjacent_app_l in H5. exact H5.
    + apply headIs_stripEnd, headIs_stripStart.
    + apply lastIs_stripEnd.
  - repeat split; auto; discriminate.
Qed.

Lemma sanitizeSlug_fixes_sanitized s final :
  sanitized final s -> sanitizeSlug toLowerCase s final = s.
Proof using toLowerCase_slug.
  intros (Hc & Hn & Hf). unfold sanitizeSlug. destruct s as [|c s]; [reflexivity|].
  rewrite (toLowerCase_slug _ Hc).
  assert (Hw : forallb (fun c => negb (isWhiteSpace c)) (c :: s) = true).
  { eapply forallb_weaken; [|exact Hc]. intros d Hd.
    now rewrite (slugChar_not_whitespace d Hd). }
  destruct (forallb_head_last _ _ Hw) as [Hh Hl].
  unfold trim. rewrite (stripStart_id _ _ Hh), (stripEnd_id _ _ Hl).
  rewrite (collapseRuns_none _ _ _ Hw).
  unfold stripNonWord. rewrite filter_all
    by (eapply forallb_weaken; [|exact Hc]; apply slugChar_word).
  rewrite collapseRuns_hyphen_id by (auto; discriminate).
  cbv zeta. destruct final; [|reflexivity].
  destruct (Hf eq_refl) as [Hh' Hl'].
  rewrite (stripStart_id _ _ Hh'), (stripEnd_id _ _ Hl'). reflexivity.
Qed.

(** C8.  The slug sanitizer is idempotent: for every string [x] and
    flag [final], sanitizing [sanitizeSlug x final] again with the same
    flag gives it back.  The runtime's [toLowerCase] is any function that
    leaves no letter [A-Z] and fixes the strings over [[a-z0-9_-]]. *)
Theorem sanitizeSlug_idempotent (x : jsstring) (final : bool) :
  sanitizeSlug toLowerCase (sanitizeSlug toLowerCase x final) final
  = sanitizeSlug toLowerCase x final.
Proof using toLowerCase_no_upper toLowerCase_slug.
  apply sanitizeSlug_fixes_sanitized, sanitizeSlug_sanitized.
Qed.
End Idempotence.

Lemma toLowerAscii_no_upper s :
  forallb (fun c => negb (isUpperAscii c)) (toLowerAscii s) = true.
Proof.
  unfold toLowerAscii. induction s as [|c s IH]; simpl; [reflexivity|].
  rewrite IH, andb_true_r. unfold asciiLower.
  destruct (isUpperAscii c) eqn:E; [|now rewrite E].
  unfold isUpperAscii in *. apply andb_true_iff in E as [E1 E2].
  apply N.leb_le in E1, E2. apply negb_true_iff, andb_false_iff. right.
  apply N.leb_gt. lia.
Qed.

Lemma slugChar_not_upper c : isSlugChar c = true -> isUpperAscii c = false.
Proof.
  unfold isSlugChar, isUpperAscii, isLowerAscii, isDigit, isHyphen, hyphen.
  intros H. apply not_true_is_false. intros W.
  bool_arith H. bool_arith W. lia.
Qed.

Lemma toLowerAscii_slug s : forallb isSlugChar s = true -> toLowerAscii s = s.
Proof.
  unfold toLowerAscii. induction s as [|c s IH]; simpl; [reflexivity|].
  intros H. apply andb_true_iff in H as [H1 H2]. rewrite (IH H2).
  unfold asciiLower. now rewrite (slugChar_not_upper c H1).
Qed.

Lemma sanitizeSlug_idempotent_witness :
  let x := u16 "  My First Post!! " in
  sanitizeSlug toLowerAscii (sanitizeSlug toLowerAscii x true) true
  = sanitizeSlug toLowerAscii x true
  /\ sanitizeSlug toLowerAscii x true = u16 "my-first-post".
Proof.
  split.
  - exact (sanitizeSlug_idempotent toLowerAscii toLowerAscii_no_upper toLowerAscii_slug
             (u16 "  My First Post!! ") true).
  - reflexivity.
Defined.
End SlugProps.

(** ** Insertion sort *)

Module SortProps.
Import JSString Post.

Section SortBy.
Context {A : Type} (cmp : A -> A -> Z).

Lemma insertBy_Permutation x l : Permutation (insertBy cmp x l) (x :: l).
Proof.
  induction l as [|y l IH]; simpl; [reflexivity|].
  destruct (cmp x y <=? 0)%Z; [reflexivity|].
  rewrite IH. apply perm_swap.
Qed.

Lemma sortBy_Permutation l : Permutation (sortBy cmp l) l.
Proof.
  induction l as [|x l IH]; simpl; [reflexivity|].
  rewrite insertBy_Permutation. now constructor.
Qed.

Hypothesis cmp_total : forall a b, cmpLe cmp a b \/ cmpLe cmp b a.
Hypothesis cmp_trans : forall a b c, cmpLe cmp a b -> cmpLe cmp b c -> cmpLe cmp a c.

Lemma insertBy_sorted x l :
  StronglySorted (cmpLe cmp) l -> StronglySorted (cmpLe cmp) (insertBy cmp x l).
Proof using cmp_total cmp_trans.
  induction l as [|y l IH]; simpl; intros Hs.
  - repeat constructor.
  - apply StronglySorted_inv in Hs as [Hl Hy].
    destruct (Z.leb_spec (cmp x y) 0) as [Hxy|Hxy].
    + constructor; [constructor; assumption|].
      constructor; [exact Hxy|].
      eapply Forall_impl; [exact Hy|]. intros z Hz. eapply cmp_trans; eauto.
    + constructor; [apply IH, Hl|].
      rewrite (insertBy_Permutation x l). constructor; [|exact Hy].
      destruct (cmp_total x y) as [H|H]; [unfold cmpLe in H; lia | exact H].
Qed.

(** The sort is stable: the elements of one rank keep their order. *)
Lemma insertBy_stable x l z :
  List.filter (sameRank cmp z) (insertBy cmp x l)
  = List.filter (sameRank cmp z) (x :: l).
Proof using cmp_trans.
  induction l as [|y l IH]; [reflexivity|].
  cbn [insertBy]. destruct (Z.leb_spec (cmp x y) 0) as [Hxy|Hxy]; [reflexivity|].
  cbn [List.filter] in *. rewrite IH.
  destruct (sameRank cmp z x) eqn:Ex, (sameRank cmp z y) eqn:Ey; try reflexivity.
  exfalso. unfold sameRank in Ex, Ey.
  apply andb_true_iff in Ex as [_ Ex], Ey as [Ey _].
  apply Z.leb_le in Ex, Ey. pose proof (cmp_trans x z y Ex Ey) as H.
  unfold cmpLe in H. lia.
Qed.

Lemma sortBy_stable l z :
  List.filter (sameRank cmp z) (sortBy cmp l) = List.filter (sameRank cmp z) l.
Proof using cmp_trans.
  induction l as [|x l IH]; [reflexivity|].
  cbn [sortBy]. rewrite insertBy_stable. cbn [List.filter]. rewrite IH. reflexivity.
Qed.

Lemma sortBy_sorted l : StronglySorted (cmpLe cmp) (sortBy cmp l).
Proof using cmp_total cmp_trans.
  induction l as [|x l IH]; simpl; [constructor|].
  apply insertBy_sorted, IH.
Qed.
End SortBy.

Lemma sublist_filter_stdlib {A} (f : A -> bool) (l : list A) :
  sublist (List.filter f l) l.
Proof.
  induction l as [|x l IH]; simpl; [constructor|].
  destruct (f x); [apply sublist_skip | apply sublist_cons]; exact IH.
Qed.


Lemma sorted_before {A} (R : A -> A -> Prop) l1 u l2 v :
  StronglySorted R (l1 ++ u :: l2) -> In v l1 -> R v u.
Proof.
  intros Hs Hv. eapply StronglySorted_app_1_elem_of; [exact Hs| |].
  - apply list_elem_of_In, Hv.
  - apply list_elem_of_In. left. reflexivity.
Qed.
End SortProps.

(** ** The order of the projection *)

Module ProjectionProps.
Import JSString Post Projection SortProps.

Section Order.
Variable toLowerCase : jsstring -> jsstring.
Variable parseDate : jsstring -> option Z.

Abbreviation record := (PostRecord PostValue).

Lemma sortCompareFn_total sortOrder (a b : record) :
  cmpLe (sortCompareFn parseDate sortOrder) a b
  \/ cmpLe (sortCompareFn parseDate sortOrder) b a.
Proof.
  unfold cmpLe, sortCompareFn, compareAsc, compareDesc.
  destruct (dateOf parseDate a) as [x|], (dateOf parseDate b) as [y|];
    destruct (JSString.eqb sortOrder (u16 "oldest"));
    repeat match goal with |- context [(?p <? ?q)%Z] => destruct (Z.ltb_spec p q) end;
    lia.
Qed.

Lemma sortCompareFn_trans sortOrder (a b c : record) :
  cmpLe (sortCompareFn parseDate sortOrder) a b ->
  cmpLe (sortCompareFn parseDate sortOrder) b c ->
  cmpLe (sortCompareFn parseDate sortOrder) a c.
Proof.
  unfold cmpLe, sortCompareFn, compareAsc, compareDesc.
  destruct (dateOf parseDate a) as [x|], (dateOf parseDate b) as [y|],
           (dateOf parseDate c) as [z|];
    destruct (JSString.eqb sortOrder (u16 "oldest"));
    repeat match goal with |- context [(?p <? ?q)%Z] => destruct (Z.ltb_spec p q) end;
    lia.
Qed.

(** The projection's output is in comparator order. *)
Lemma projection_sorted posts searchTerm category sortOrder :
  StronglySorted (cmpLe (sortCompareFn parseDate sortOrder))
    (getFilteredAndSortedPosts toLowerCase parseDate posts searchTerm category sortOrder).
Proof.
  unfold getFilteredAndSortedPosts. apply sortBy_sorted.
  - apply sortCompareFn_total.
  - apply sortCompareFn_trans.
Qed.

(** Records of one date keep the order the filters leave them in. *)
Lemma projection_stable posts searchTerm category sortOrder z :
  exists filtered,
    sublist filtered posts
    /\ getFilteredAndSortedPosts toLowerCase parseDate posts searchTerm category
         sortOrder = sortBy (sortCompareFn parseDate sortOrder) filtered
    /\ List.filter (sameRank (sortCompareFn parseDate sortOrder) z)
         (getFilteredAndSortedPosts toLowerCase parseDate posts searchTerm category
            sortOrder)
       = List.filter (sameRank (sortCompareFn parseDate sortOrder) z) filtered.
Proof.
  unfold getFilteredAndSortedPosts.
  eexists. split; [|split; [reflexivity|]].
  - destruct (nonEmpty category), (nonEmpty searchTerm);
      try destruct (JSString.eqb category (u16 "Recommended"));
      repeat (etransitivity; [apply sublist_filter_stdlib|]); reflexivity.
  - apply sortBy_stable. apply sortCompareFn_trans.
Qed.

Lemma dateOf_unparseable (a : record) :
  dateOf parseDate a = None <-> unparseableDate parseDate a = true.
Proof.
  unfold dateOf, unparseableDate.
  destruct (publishedAt (value a)) as [s|]; [|split; discriminate].
  destruct (nonEmpty s); simpl; [|split; discriminate].
  destruct (parseDate s); split; congruence.
Qed.



End Order.




End ProjectionProps.

(** ** The cache *)

Module CacheProps.
Import JSString Post Store Editor JSStringProps.

Section Append.
Context {V : Type}.
Implicit Types (cache batch : list (PostRecord V)).

Lemma NoDup_uri_filter (f : PostRecord V -> bool) batch :
  NoDup (List.map uri batch) -> NoDup (List.map uri (List.filter f batch)).
Proof.
  induction batch as [|p b IH]; simpl; [auto|].
  intros H. apply NoDup_cons in H as [Hp Hb].
  destruct (f p); simpl; [|auto].
  apply NoDup_cons. split; [|auto].
  intros Hin. apply Hp. apply list_elem_of_In in Hin. apply list_elem_of_In.
  apply in_map_iff in Hin as (q & Hq & Hin).
  apply filter_In in Hin as [Hin _]. apply in_map_iff. eauto.
Qed.

Lemma appendPosts_added cache batch p :
  In p (List.filter (fun p => negb (bool_decide (uri p ∈ (list_to_set (List.map uri cache) : gset jsstring)))) batch) ->
  ~ In (uri p) (List.map uri cache).
Proof.
  intros H Hin. apply filter_In in H as [_ H].
  apply negb_true_iff, bool_decide_eq_false in H. apply H.
  apply elem_of_list_to_set, list_elem_of_In, Hin.
Qed.

Lemma appendPosts_NoDup cache batch :
  NoDup (List.map uri cache) -> NoDup (List.map uri batch) ->
  NoDup (List.map uri (appendPosts cache batch)).
Proof.
  intros Hc Hb. unfold appendPosts. rewrite List.map_app.
  apply NoDup_app. repeat split.
  - exact Hc.
  - intros u Hu Hu'. apply list_elem_of_In in Hu, Hu'.
    apply in_map_iff in Hu' as (p & <- & Hp).
    exact (appendPosts_added _ _ _ Hp Hu).
  - apply NoDup_uri_filter, Hb.
Qed.

Lemma appendPosts_present cache batch :
  (forall p, In p batch -> In (uri p) (List.map uri cache)) ->
  appendPosts cache batch = cache.
Proof.
  intros H. unfold appendPosts.
  replace (List.filter _ batch) with (@nil (PostRecord V)); [apply app_nil_r|].
  symmetry. induction batch as [|p b IH]; simpl; [reflexivity|].
  rewrite bool_decide_eq_true_2.
  - simpl. apply IH. intros q Hq. apply H. now right.
  - apply elem_of_list_to_set, list_elem_of_In, H. now left.
Qed.

(** C3.  Starting from a cache with one entry per [uri], after any
    sequence of appends of batches, each a page of the store and so
    without a repeated [uri] of its own (the batches may repeat or
    overlap one another), the cache has one entry per [uri]; and
    appending a batch whose [uri]s are all in the cache leaves the cache
    as it is. *)
Theorem appendPosts_one_entry_per_uri cache (batches : list (list (PostRecord V))) :
  NoDup (List.map uri cache) ->
  Forall (fun batch => NoDup (List.map uri batch)) batches ->
  NoDup (List.map uri (fold_left appendPosts batches cache))
  /\ (forall batch,
        (forall p, In p batch ->
                   In (uri p) (List.map uri (fold_left appendPosts batches cache))) ->
        appendPosts (fold_left appendPosts batches cache) batch
        = fold_left appendPosts batches cache).
Proof.
  intros Hc Hb. split; [|intros batch; apply appendPosts_present].
  revert cache Hc. induction Hb as [|b bs Hb _ IH]; intros cache Hc; simpl; [exact Hc|].
  apply IH, appendPosts_NoDup; assumption.
Qed.
End Append.

(** The filter of [appendPosts] looks at the cache only: a batch that
    repeated a [uri] not cached yet would be added with the repetition.
    A page of the store does not repeat a [uri]. *)
Lemma appendPosts_repeats_within_batch :
  let a := undatedPost "at://did:plc:x/app.blog.post/1" in
  fold_left appendPosts [[a; a]] [] = [a; a]
  /\ ~ NoDup (List.map uri (fold_left appendPosts [[a; a]] [])).
Proof.
  split; [vm_compute; reflexivity|].
  intros H. vm_compute in H. apply NoDup_cons in H as [H _].
  apply H. left.
Qed.

Lemma appendPosts_one_entry_per_uri_witness :
  let a := undatedPost "at://did:plc:x/app.blog.post/1" in
  let b := undatedPost "at://did:plc:x/app.blog.post/2" in
  NoDup (List.map uri (fold_left appendPosts [[a; b]; [b]; [a; b]] []))
  /\ fold_left appendPosts [[a; b]; [b]; [a; b]] [] = [a; b].
Proof.
  split; [|vm_compute; reflexivity].
  refine (proj1 (appendPosts_one_entry_per_uri [] _ _ _)).
  - apply NoDup_nil_2.
  - repeat (apply Forall_cons; split); try apply Forall_nil_2; compute_done.
Defined.
Lemma replacePost_lookup {V} (r : PostRecord V) cache (i : nat) :
  replacePost r cache !! i
  = (fun p => if JSString.eqb (uri p) (uri r) then r else p) <$> (cache !! i).
Proof. unfold replacePost. apply list_lookup_fmap. Qed.

Lemma replacePost_absent {V} (r : PostRecord V) cache :
  (forall p, In p cache -> uri p <> uri r) -> replacePost r cache = cache.
Proof.
  unfold replacePost. induction cache as [|p c IH]; simpl; [reflexivity|].
  intros H. rewrite (proj2 (eqb_neq _ _) (H p (or_introl eq_refl))).
  f_equal. apply IH. intros q Hq. apply H. now right.
Qed.

(** C5, as the code has it.  After a successful update (an [rkey] is
    set) the cache keeps its length, every entry with the saved [uri] is
    the new record at the same position, every other entry is as before;
    and when no entry has that [uri] the cache is unchanged: nothing is
    inserted. *)
Theorem handleSavePost_replaces_in_place (rkey : jsstring) (r : record) (st : State) :
  nonEmpty rkey = true ->
  let cache := fetchedPostsCache st in
  let cache' := fetchedPostsCache (handleSavePost_saved (Some rkey) r st) in
  length cache' = length cache
  /\ (forall i p, cache !! i = Some p ->
        cache' !! i = Some (if JSString.eqb (uri p) (uri r) then r else p))
  /\ ((forall p, In p cache -> uri p <> uri r) -> cache' = cache).
Proof.
  intros Hk cache cache'. subst cache cache'.
  unfold handleSavePost_saved. simpl. rewrite Hk.
  split; [|split].
  - unfold replacePost. apply length_map.
  - intros i p Hp. rewrite replacePost_lookup, Hp. reflexivity.
  - apply replacePost_absent.
Qed.

Lemma handleSavePost_replaces_in_place_witness :
  let a := undatedPost "at://did:plc:x/app.blog.post/1" in
  let b := undatedPost "at://did:plc:x/app.blog.post/2" in
  let b' := datedPost "at://did:plc:x/app.blog.post/2" "2024-06-01" in
  let st := setFetchedPostsCache [a; b] initialState in
  fetchedPostsCache (handleSavePost_saved (Some (u16 "2")) b' st) = [a; b']
  /\ length (fetchedPostsCache (handleSavePost_saved (Some (u16 "2")) b' st)) = 2%nat.
Proof.
  split; [vm_compute; reflexivity|].
  exact (proj1 (handleSavePost_replaces_in_place (u16 "2")
                  (datedPost "at://did:plc:x/app.blog.post/2" "2024-06-01")
                  (setFetchedPostsCache
                     [undatedPost "at://did:plc:x/app.blog.post/1";
                      undatedPost "at://did:plc:x/app.blog.post/2"] initialState)
                  eq_refl)).
Defined.

(** Replacing in a cache without the [uri] does not put the record in
    the cache. *)
Lemma replace_of_absent_uri_inserts_nothing :
  let r := undatedPost "at://did:plc:x/app.blog.post/9" in
  (forall p, In p (fetchedPostsCache initialState) -> uri p <> uri r)
  /\ ~ In r (fetchedPostsCache (handleSavePost_saved (Some (u16 "9")) r initialState)).
Proof.
  split; [intros p []|]. vm_compute. intros [].
Qed.

Section Guard.
Variable Store : Type.
Variable listRecords : Store -> ListRequest -> ListResponse * Store.

(** C7.  While a fetch is in flight ([isLoadingMore] is set), a call of
    [fetchAndAppendPosts] or of [handleLoadMore] returns the state as it
    was (records, cursor, flags, categories) and makes no exchange with
    the store. *)
Theorem load_more_while_loading_is_noop (st : State) (w : World Store)
    (cur : option jsstring) :
  isLoadingMore st = true ->
  fetchAndAppendPosts Store listRecords st w cur = (st, w)
  /\ handleLoadMore Store listRecords st w = (st, w).
Proof.
  intros H. unfold handleLoadMore, fetchAndAppendPosts.
  rewrite H, orb_true_r. split; reflexivity.
Qed.
End Guard.

Lemma load_more_while_loading_is_noop_witness :
  let st := fetchAndAppendPosts_pending (setLoggedIn true initialState) in
  let w := mkWorld [RespOk (Some [undatedPost "at://did:plc:x/app.blog.post/1"]) None] [] in
  handleLoadMore _ scripted st w = (st, w).
Proof.
  exact (proj2 (load_more_while_loading_is_noop _ scripted
                  (fetchAndAppendPosts_pending (setLoggedIn true initialState))
                  (mkWorld [RespOk (Some [undatedPost "at://did:plc:x/app.blog.post/1"]) None] [])
                  None eq_refl)).
Defined.
End CacheProps.

(** ** The category menu *)

Module CategoryProps.
Import JSString Post Store Editor SortProps JSStringProps.

Lemma cmpLe_defaultCompare (s t : jsstring) :
  cmpLe defaultCompare s t <-> JSString.compare s t <> Gt.
Proof.
  unfold cmpLe, defaultCompare. destruct (JSString.compare s t); split;
    intros; try lia; try discriminate; congruence.
Qed.

Lemma sortBy_defaultCompare_sorted (l : list jsstring) :
  StronglySorted (cmpLe defaultCompare) (sortBy defaultCompare l).
Proof.
  apply sortBy_sorted.
  - intros a b. rewrite !cmpLe_defaultCompare. apply compare_total.
  - intros a b c. rewrite !cmpLe_defaultCompare. apply compare_trans.
Qed.

Lemma sorted_NoDup_strict (l : list jsstring) :
  StronglySorted (cmpLe defaultCompare) l -> NoDup l ->
  StronglySorted (fun s t => JSString.compare s t = Lt) l.
Proof.
  induction 1 as [|x l Hs IH Hx]; intros Hn; [constructor|].
  apply NoDup_cons in Hn as [Hx' Hn]. constructor; [auto|].
  rewrite List.Forall_forall in *. intros y Hy.
  specialize (Hx y Hy). apply cmpLe_defaultCompare in Hx.
  destruct (JSString.compare x y) eqn:E; [|reflexivity|congruence].
  apply compare_eq_iff in E. subst y. exfalso. apply Hx'.
  apply list_elem_of_In, Hy.
Qed.

Lemma actualCategory_spec post c :
  actualCategory post = Some c ->
  c <> u16 "Recommended" /\ nonEmpty c = true /\ trim c = c.
Proof.
  unfold actualCategory. destruct (category (value post)) as [c'|]; [|discriminate].
  destruct (nonEmpty (trim c')) eqn:E1; simpl; [|discriminate].
  destruct (JSString.eqb (trim c') (u16 "Recommended")) eqn:E2; simpl; [discriminate|].
  intros [= <-]. repeat split; [now apply eqb_neq | exact E1 | apply trim_trimmed].
Qed.

Lemma addCategory_union cats post :
  addCategory cats post = cats ∪ list_to_set (omap actualCategory [post]).
Proof.
  unfold addCategory. simpl. destruct (actualCategory post) as [c|]; simpl.
  - case_bool_decide; set_solver.
  - set_solver.
Qed.

Lemma fold_addCategory posts cats :
  fold_left addCategory posts cats = cats ∪ list_to_set (omap actualCategory posts).
Proof.
  revert cats. induction posts as [|p ps IH]; intros cats; simpl.
  - set_solver.
  - rewrite IH, addCategory_union. simpl.
    destruct (actualCategory p); simpl; set_solver.
Qed.

Lemma updateUniqueCategories_cats posts st :
  uniqueCategories (updateUniqueCategories posts st)
  = uniqueCategories st ∪ list_to_set (omap actualCategory posts).
Proof. unfold updateUniqueCategories. simpl. apply fold_addCategory. Qed.

Lemma actualCategories_update posts st :
  actualCategories (uniqueCategories st) ->
  actualCategories (uniqueCategories (updateUniqueCategories posts st)).
Proof.
  intros H c. rewrite updateUniqueCategories_cats, elem_of_union.
  intros [Hc|Hc]; [auto|].
  apply elem_of_list_to_set, list_elem_of_omap in Hc as (p & _ & Hp).
  eapply actualCategory_spec; eassumption.
Qed.

Lemma actualCategory_Some post c :
  actualCategory post = Some c
  <-> exists raw, category (value post) = Some raw /\ c = trim raw
                  /\ nonEmpty c = true /\ c <> u16 "Recommended".
Proof.
  unfold actualCategory. destruct (category (value post)) as [raw|].
  - destruct (nonEmpty (trim raw)) eqn:E1; simpl.
    + destruct (JSString.eqb (trim raw) (u16 "Recommended")) eqn:E2; simpl.
      * split; [discriminate|]. intros (r & [= <-] & -> & _ & H).
        apply eqb_eq in E2. contradiction.
      * split.
        -- intros [= <-]. exists raw. repeat split; auto. now apply eqb_neq.
        -- intros (r & [= <-] & -> & _). reflexivity.
    + split; [discriminate|]. intros (r & [= <-] & -> & H & _). congruence.
  - split; [discriminate|]. intros (r & H & _). discriminate.
Qed.

Lemma updateUniqueCategories_elem posts st c :
  c ∈ uniqueCategories (updateUniqueCategories posts st)
  <-> c ∈ uniqueCategories st
      \/ exists post raw, In post posts /\ category (value post) = Some raw
                          /\ c = trim raw /\ nonEmpty c = true
                          /\ c <> u16 "Recommended".
Proof.
  rewrite updateUniqueCategories_cats, elem_of_union, elem_of_list_to_set,
    list_elem_of_omap.
  split; (intros [H|H]; [now left|right]).
  - destruct H as (post & Hin & Hp). apply list_elem_of_In in Hin.
    apply actualCategory_Some in Hp as (raw & Hp). eauto.
  - destruct H as (post & raw & Hin & Hp). exists post.
    split; [now apply list_elem_of_In|]. apply actualCategory_Some. eauto.
Qed.

Lemma actualCategories_empty : actualCategories ∅.
Proof. intros c Hc. set_solver. Qed.

Section Reachable.
Variable Store : Type.
Variable listRecords : Store -> ListRequest -> ListResponse * Store.

Lemma actualCategories_settle st batch :
  actualCategories (uniqueCategories st) ->
  actualCategories (uniqueCategories (fetchAndAppendPosts_settle st batch)).
Proof.
  intros H. unfold fetchAndAppendPosts_settle.
  destruct batch as [posts c|m]; simpl; [|exact H].
  destruct (negb (truthy c) || _); simpl;
    apply (actualCategories_update posts
             (setCursor c (appendPostsToCache posts st))), H.
Qed.

Lemma actualCategories_fetchAndAppendPosts st w cur :
  actualCategories (uniqueCategories st) ->
  actualCategories
    (uniqueCategories (fst (fetchAndAppendPosts Store listRecords st w cur))).
Proof.
  intros H. unfold fetchAndAppendPosts.
  destruct (isLoadingMore st); [exact H|].
  destruct (fetchBlogPostsBatch _ _ _ _ _ _) as [batch w'].
  simpl. apply actualCategories_settle, H.
Qed.

Lemma actualCategories_step sw a :
  actualCategories (uniqueCategories (fst sw)) ->
  actualCategories (uniqueCategories (fst (step Store listRecords sw a))).
Proof.
  destruct sw as [st w]. simpl. intros H.
  destruct a; simpl; try exact H;
    try (apply actualCategories_fetchAndAppendPosts; simpl;
         apply actualCategories_empty);
    try apply actualCategories_empty.
  unfold handleLoadMore. destruct (_ || _); [exact H|].
  apply actualCategories_fetchAndAppendPosts, H.
Qed.

Lemma actualCategories_run actions sw :
  actualCategories (uniqueCategories (fst sw)) ->
  actualCategories (uniqueCategories (fst (run Store listRecords sw actions))).
Proof.
  unfold run. revert sw. induction actions as [|a l IH]; intros sw H; simpl; [exact H|].
  apply IH, actualCategories_step, H.
Qed.

Lemma existsb_Recommended_false (l : list jsstring) :
  ~ In (u16 "Recommended") l ->
  existsb (JSString.eqb (u16 "Recommended")) l = false.
Proof.
  intros H. apply not_true_is_false. intros E.
  apply existsb_exists in E as (c & Hc & E). apply eqb_eq in E. congruence.
Qed.

Lemma sortBy_elements_In (cats : gset jsstring) c :
  In c (sortBy defaultCompare (elements cats)) <-> c ∈ cats.
Proof.
  rewrite <- list_elem_of_In, (sortBy_Permutation defaultCompare (elements cats)).
  apply elem_of_elements.
Qed.

Lemma getUniqueCategories_In st c :
  c ∈ uniqueCategories st -> In c (getUniqueCategories st).
Proof.
  intros H. apply sortBy_elements_In in H. unfold getUniqueCategories.
  destruct (existsb isRecommended (fetchedPostsCache st)); [|exact H].
  destruct (negb _); [now right|exact H].
Qed.

Lemma appendPosts_In {V} (cache batch : list (PostRecord V)) p :
  In p (appendPosts cache batch) -> In p cache \/ In p batch.
Proof.
  unfold appendPosts. intros H. apply in_app_or in H as [H|H]; [now left|right].
  now apply filter_In in H as [H _].
Qed.

(** What a call of [fetchAndAppendPosts] does to the categories and to
    the cache, by the records of the page it was answered with. *)
Lemma fetchAndAppendPosts_categories st (w : World Store) cur :
  let r := fetchAndAppendPosts Store listRecords st w cur in
  exists tr,
    exchanges (snd r) = exchanges w ++ tr
    /\ uniqueCategories (fst r)
       = uniqueCategories st ∪ list_to_set (omap actualCategory (pageRecords tr))
    /\ (forall post, In post (fetchedPostsCache (fst r)) ->
          In post (fetchedPostsCache st) \/ In post (pageRecords tr)).
Proof.
  cbv zeta. unfold fetchAndAppendPosts.
  assert (Hnone : exists tr : list (ListRequest * ListResponse),
             exchanges w = exchanges w ++ tr
             /\ uniqueCategories st
                = uniqueCategories st ∪ list_to_set (omap actualCategory (pageRecords tr))
             /\ (forall post, In post (fetchedPostsCache st) ->
                   In post (fetchedPostsCache st) \/ In post (pageRecords tr))).
  { exists []. rewrite app_nil_r. split; [reflexivity|]. split; [|auto].
    simpl. set_solver. }
  destruct (isLoadingMore st); [exact Hnone|].
  unfold fetchBlogPostsBatch, fetchAndAppendPosts_pending.
  cbn [loggedIn setIsLoadingMore]. destruct (loggedIn st); cbn [negb]; [|exact Hnone].
  unfold call.
  destruct (listRecords (store w) (mkRequest POSTS_PER_PAGE cur)) as [resp s1].
  exists [(mkRequest POSTS_PER_PAGE cur, resp)].
  destruct resp as [records c|status statusText body|m]; cbn [fst snd exchanges].
  - assert (Hp : pageRecords [(mkRequest POSTS_PER_PAGE cur, RespOk records c)]
                 = default [] records).
    { unfold pageRecords. simpl. rewrite app_nil_r. now destruct records. }
    rewrite Hp. split; [reflexivity|]. unfold fetchAndAppendPosts_settle. split.
    + destruct (negb (truthy c) || _); cbn [uniqueCategories setIsLoadingMore
        setAllPostsLoaded]; rewrite updateUniqueCategories_cats; reflexivity.
    + intros post. destruct (negb (truthy c) || _); simpl; apply appendPosts_In.
  - split; [reflexivity|]. split; [simpl; set_solver|auto].
  - split; [reflexivity|]. split; [simpl; set_solver|auto].
Qed.

Lemma replacePost_In {V} (r : PostRecord V) cache p :
  In p (replacePost r cache) -> p = r \/ In p cache.
Proof.
  unfold replacePost. intros H. apply in_map_iff in H as (q & <- & Hq).
  destruct (JSString.eqb (uri q) (uri r)); [now left|now right].
Qed.

(** One action: the exchanges it adds, where the categories after it
    come from, and where the records of the cache after it come from. *)
Lemma step_categories (st : State) (w : World Store) (a : Action) :
  let r := step Store listRecords (st, w) a in
  exists tr,
    exchanges (snd r) = exchanges w ++ tr
    /\ (forall c, c ∈ uniqueCategories (fst r) ->
          c ∈ uniqueCategories st
          \/ exists post, In post (pageRecords tr) /\ actualCategory post = Some c)
    /\ (forall post, In post (fetchedPostsCache (fst r)) ->
          (exists rkey, a = Saved rkey post)
          \/ (forall c, actualCategory post = Some c -> c ∈ uniqueCategories (fst r))
          \/ (In post (fetchedPostsCache st)
              /\ uniqueCategories st ⊆ uniqueCategories (fst r))).
Proof.
  cbv zeta.
  assert (Hfetch : forall st0 cur,
    uniqueCategories st0 ⊆ uniqueCategories st ->
    (forall post, In post (fetchedPostsCache st0) -> In post (fetchedPostsCache st)
                                                    /\ uniqueCategories st0 = uniqueCategories st) ->
    let r := fetchAndAppendPosts Store listRecords st0 w cur in
    exists tr,
      exchanges (snd r) = exchanges w ++ tr
      /\ (forall c, c ∈ uniqueCategories (fst r) ->
            c ∈ uniqueCategories st
            \/ exists post, In post (pageRecords tr) /\ actualCategory post = Some c)
      /\ (forall post, In post (fetchedPostsCache (fst r)) ->
            (exists rkey, a = Saved rkey post)
            \/ (forall c, actualCategory post = Some c -> c ∈ uniqueCategories (fst r))
            \/ (In post (fetchedPostsCache st)
                /\ uniqueCategories st ⊆ uniqueCategories (fst r)))).
  { intros st0 cur Hsub Hold. cbv zeta.
    destruct (fetchAndAppendPosts_categories st0 w cur) as (tr & Hex & Hcats & Hcache).
    exists tr. split; [exact Hex|]. split.
    - intros c. rewrite Hcats, elem_of_union, elem_of_list_to_set, list_elem_of_omap.
      intros [H|(post & Hin & Hp)]; [left; now apply Hsub|right].
      exists post. split; [now apply list_elem_of_In|exact Hp].
    - intros post Hin. destruct (Hcache post Hin) as [H|H].
      + right. right. destruct (Hold post H) as [H1 H2]. split; [exact H1|].
        rewrite Hcats, <- H2. set_solver.
      + right. left. intros c Hc. rewrite Hcats.
        apply elem_of_union_r, elem_of_list_to_set, list_elem_of_omap.
        exists post. split; [now apply list_elem_of_In|exact Hc]. }
  assert (Hsame : forall st' : State,
    uniqueCategories st' = uniqueCategories st ->
    (forall post, In post (fetchedPostsCache st') ->
       (exists rkey, a = Saved rkey post) \/ In post (fetchedPostsCache st)) ->
    exists tr,
      exchanges w = exchanges w ++ tr
      /\ (forall c, c ∈ uniqueCategories st' ->
            c ∈ uniqueCategories st
            \/ exists post, In post (pageRecords tr) /\ actualCategory post = Some c)
      /\ (forall post, In post (fetchedPostsCache st') ->
            (exists rkey, a = Saved rkey post)
            \/ (forall c, actualCategory post = Some c -> c ∈ uniqueCategories st')
            \/ (In post (fetchedPostsCache st)
                /\ uniqueCategories st ⊆ uniqueCategories st'))).
  { intros st' Hc Hp. exists []. rewrite app_nil_r. split; [reflexivity|]. split.
    - intros c H. left. now rewrite <- Hc.
    - intros post Hin. destruct (Hp post Hin) as [H|H]; [now left|].
      right. right. split; [exact H|]. now rewrite Hc. }
  destruct a; cbn [step fst snd].
  - apply Hfetch; [set_solver|intros post []].
  - exists []. rewrite app_nil_r. split; [reflexivity|].
    split; [intros c H; set_solver|intros post []].
  - apply Hfetch; [set_solver|intros post []].
  - unfold handleLoadMore. destruct (allPostsLoaded st || isLoadingMore st).
    + cbn [fst snd]. apply Hsame; auto.
    + apply Hfetch; [reflexivity|auto].
  - apply Hsame; [reflexivity|]. intros post Hin.
    unfold handleSavePost_saved in Hin. simpl in Hin.
    destruct (truthy rkey).
    + apply replacePost_In in Hin as [-> |Hin]; [left; eauto|now right].
    + destruct Hin as [<- |Hin]; [left; eauto|now right].
  - apply Hsame; [reflexivity|]. intros post Hin. simpl in Hin.
    apply filter_In in Hin as [Hin _]. now right.
  - apply Hsame; [reflexivity|]. intros post Hin. now right.
  - apply Hsame; [reflexivity|]. intros post Hin. now right.
  - apply Hsame; [reflexivity|]. intros post Hin. now right.
Qed.

Lemma pageRecords_app tr1 tr2 :
  pageRecords (tr1 ++ tr2) = pageRecords tr1 ++ pageRecords tr2.
Proof. unfold pageRecords. apply flat_map_app. Qed.

(** Through a run from the initial state: every category of the set is
    the one of a record of a page of the run, and every record of the
    cache was put there by a save or has its category in the set. *)
Lemma run_categories (w : World Store) (actions : list Action) :
  let r := run Store listRecords (initialState, w) actions in
  (exists tr,
     exchanges (snd r) = exchanges w ++ tr
     /\ forall c, c ∈ uniqueCategories (fst r) ->
          exists post, In post (pageRecords tr) /\ actualCategory post = Some c)
  /\ (forall post, In post (fetchedPostsCache (fst r)) ->
        (exists rkey, In (Saved rkey post) actions)
        \/ forall c, actualCategory post = Some c -> c ∈ uniqueCategories (fst r)).
Proof.
  cbv zeta. induction actions as [|a actions IH] using rev_ind.
  - simpl. split; [|intros post []].
    exists []. rewrite app_nil_r. split; [reflexivity|]. intros c H. set_solver.
  - unfold run in *. rewrite fold_left_app. cbn [fold_left].
    destruct (fold_left (step Store listRecords) actions (initialState, w))
      as [st1 w1].
    destruct IH as [(tr & Hex & Hsound) Hcache]. cbn [fst snd] in *.
    destruct (step_categories st1 w1 a) as (tr2 & Hex2 & Hs2 & Hc2).
    cbv zeta in Hex2, Hs2, Hc2. split.
    + exists (tr ++ tr2). split; [rewrite Hex2, Hex, app_assoc; reflexivity|].
      intros c Hc. rewrite pageRecords_app.
      destruct (Hs2 c Hc) as [H|(post & Hin & Hp)].
      * destruct (Hsound c H) as (post & Hin & Hp).
        exists post. split; [apply in_or_app; now left|exact Hp].
      * exists post. split; [apply in_or_app; now right|exact Hp].
    + intros post Hin. destruct (Hc2 post Hin) as [[rkey ->]|[H|[H Hsub]]].
      * left. exists rkey. apply in_or_app. right. now left.
      * now right.
      * destruct (Hcache post H) as [[rkey Hk]|Hk].
        -- left. exists rkey. apply in_or_app. now left.
        -- right. intros c Hc. apply Hsub, Hk, Hc.
Qed.

(** Short of a reset (a login, a logout, a reload), no action takes a
    category out of the set. *)
Lemma step_keeps_categories (st : State) (w : World Store) (a : Action) :
  a <> Login -> a <> Logout -> a <> LoadInitialData ->
  uniqueCategories st ⊆ uniqueCategories (fst (step Store listRecords (st, w) a)).
Proof.
  intros H1 H2 H3. destruct a; try contradiction; cbn [step fst]; try reflexivity.
  unfold handleLoadMore. destruct (allPostsLoaded st || isLoadingMore st);
    [reflexivity|].
  destruct (fetchAndAppendPosts_categories st w (cursor st)) as (tr & _ & Hc & _).
  cbv zeta in Hc. rewrite Hc. set_solver.
Qed.

(** C10.  In every state the editor reaches, [getUniqueCategories] is
    the list of the categories of the set in strictly increasing
    code-unit order, with "Recommended" put in front exactly when a
    cached record has [recommended === true]; every category of the set
    is trimmed, not empty and not "Recommended"; [updateUniqueCategories]
    adds the trimmed categories of the posts that pass its test, and a
    post whose category is "Recommended" adds nothing.  The categories
    are those of the records fetched: [updateUniqueCategories] adds
    exactly the trimmed [category] of each of its posts that is not
    empty and not "Recommended"; after [fetchAndAppendPosts] the list has
    such a category of every record of the page it was answered with;
    every category of the list of a reached state is the trimmed
    [category] of a record of a page of the run; every cached record
    that no save put in the cache has its category in the list; and
    short of a reset no action takes a category out of the set. *)
Theorem getUniqueCategories_sorted_actual_categories
    (w : World Store) (actions : list Action) :
  let st := fst (run Store listRecords (initialState, w) actions) in
  let w' := snd (run Store listRecords (initialState, w) actions) in
  let actual := sortBy defaultCompare (elements (uniqueCategories st)) in
  getUniqueCategories st
  = (if existsb isRecommended (fetchedPostsCache st)
     then [u16 "Recommended"] else []) ++ actual
  /\ StronglySorted (fun s t => JSString.compare s t = Lt) actual
  /\ (forall c, In c actual <-> c ∈ uniqueCategories st)
  /\ (forall c, c ∈ uniqueCategories st ->
        c <> u16 "Recommended" /\ nonEmpty c = true /\ trim c = c)
  /\ (forall posts st0,
        uniqueCategories (updateUniqueCategories posts st0)
        = uniqueCategories st0 ∪ list_to_set (omap actualCategory posts))
  /\ (forall post, category (value post) = Some (u16 "Recommended") ->
        actualCategory post = None)
  /\ (forall posts st0 c,
        c ∈ uniqueCategories (updateUniqueCategories posts st0)
        <-> c ∈ uniqueCategories st0
            \/ exists post raw,
                 In post posts /\ category (value post) = Some raw
                 /\ c = trim raw /\ nonEmpty c = true
                 /\ c <> u16 "Recommended")
  /\ (forall st0 (w0 : World Store) cur,
        let r := fetchAndAppendPosts Store listRecords st0 w0 cur in
        exists tr,
          exchanges (snd r) = exchanges w0 ++ tr
          /\ forall post raw,
               In post (pageRecords tr) -> category (value post) = Some raw ->
               nonEmpty (trim raw) = true -> trim raw <> u16 "Recommended" ->
               In (trim raw) (getUniqueCategories (fst r)))
  /\ (exists tr,
        exchanges w' = exchanges w ++ tr
        /\ forall c, In c actual ->
             exists post raw,
               In post (pageRecords tr) /\ category (value post) = Some raw
               /\ c = trim raw)
  /\ (forall post raw,
        In post (fetchedPostsCache st) -> category (value post) = Some raw ->
        nonEmpty (trim raw) = true -> trim raw <> u16 "Recommended" ->
        (exists rkey, In (Saved rkey post) actions)
        \/ In (trim raw) (getUniqueCategories st))
  /\ (forall st0 (w0 : World Store) a,
        a <> Login -> a <> Logout -> a <> LoadInitialData ->
        uniqueCategories st0
        ⊆ uniqueCategories (fst (step Store listRecords (st0, w0) a))).
Proof.
  intros st w' actual.
  assert (Hinv : actualCategories (uniqueCategories st)).
  { apply actualCategories_run. simpl. apply actualCategories_empty. }
  assert (Hin : forall c, In c actual <-> c ∈ uniqueCategories st)
    by apply sortBy_elements_In.
  destruct (run_categories w actions) as [(tr & Hex & Hsound) Hcache].
  fold st in Hsound, Hcache. fold w' in Hex.
  split; [|split; [|split; [|split; [|split; [|split; [|split; [|split;
    [|split; [|split]]]]]]]]].
  - unfold getUniqueCategories. fold actual.
    rewrite existsb_Recommended_false.
    + destruct (existsb isRecommended (fetchedPostsCache st)); reflexivity.
    + intros Hr. apply Hin in Hr. destruct (Hinv _ Hr) as [Hne _]. congruence.
  - apply sorted_NoDup_strict; [apply sortBy_defaultCompare_sorted|].
    unfold actual. rewrite (sortBy_Permutation defaultCompare). apply NoDup_elements.
  - exact Hin.
  - exact Hinv.
  - intros posts st0. apply updateUniqueCategories_cats.
  - intros post Hc. unfold actualCategory. rewrite Hc. reflexivity.
  - intros posts st0 c. apply updateUniqueCategories_elem.
  - intros st0 w0 cur.
    destruct (fetchAndAppendPosts_categories st0 w0 cur) as (tr0 & Hex0 & Hc0 & _).
    cbv zeta in *. exists tr0. split; [exact Hex0|].
    intros post raw Hp Hraw Hne Hnr. apply getUniqueCategories_In.
    rewrite Hc0. apply elem_of_union_r, elem_of_list_to_set, list_elem_of_omap.
    exists post. split; [now apply list_elem_of_In|].
    apply actualCategory_Some. exists raw. auto.
  - exists tr. split; [exact Hex|]. intros c Hc. apply Hin in Hc.
    destruct (Hsound c Hc) as (post & Hp & Ha).
    apply actualCategory_Some in Ha as (raw & Hraw & -> & _).
    exists post, raw. auto.
  - intros post raw Hp Hraw Hne Hnr.
    destruct (Hcache post Hp) as [H|H]; [now left|right].
    apply getUniqueCategories_In, H, actualCategory_Some. exists raw. auto.
  - intros st0 w0 a. apply step_keeps_categories.
Qed.

End Reachable.
End CategoryProps.

(** ** The walks over the pages of the store *)

Module FetchProps.
Import JSString Post Store.

Lemma follows_next lim continue i cur l1 req recs c l2 :
  follows lim continue i cur (l1 ++ (req, RespOk recs c) :: l2) ->
  continue (i + length l1)%nat (RespOk recs c) = true ->
  exists resp' l2', l2 = (mkRequest lim c, resp') :: l2'.
Proof.
  revert i cur. induction l1 as [|[rq rs] l1 IH]; intros i cur; simpl.
  - rewrite Nat.add_0_r. intros [_ H] Hc. rewrite Hc in H.
    destruct l2 as [|[rq' rs'] l2']; simpl in H; [contradiction|].
    destruct H as [-> _]. eauto.
  - intros [_ H] Hc. destruct (continue i rs).
    + destruct rs as [r' c'| |]; try contradiction.
      apply (IH _ _ H). now rewrite Nat.add_succ_l, <- Nat.add_succ_r.
    + destruct l1; discriminate.
Qed.

Lemma follows_failure_last lim continue i cur tr req resp :
  (forall j r, continue j r = true -> isFailure r = false) ->
  follows lim continue i cur tr -> In (req, resp) tr -> isFailure resp = true ->
  exists l1, tr = l1 ++ [(req, resp)].
Proof.
  intros Hcont. revert i cur. induction tr as [|[rq rs] tr IH]; intros i cur; simpl; [tauto|].
  intros [_ H] [E|Hin] Hf.
  - injection E as -> ->. destruct (continue i resp) eqn:Ec.
    + apply Hcont in Ec. congruence.
    + subst tr. exists []. reflexivity.
  - destruct (continue i rs) eqn:Ec; [|subst tr; destruct Hin].
    destruct rs as [r' c'| |]; try contradiction.
    destruct (IH _ _ H Hin Hf) as [l1 ->]. exists ((rq, RespOk r' c') :: l1). reflexivity.
Qed.

Section Walks.
Variable Store : Type.
Variable listRecords : Store -> ListRequest -> ListResponse * Store.

Lemma call_exchanges (w : World Store) req :
  exchanges (snd (call listRecords w req))
  = exchanges w ++ [(req, fst (call listRecords w req))].
Proof. unfold call. destruct (listRecords (store w) req). reflexivity. Qed.


(** *** The reader's walk *)
Section ReaderWalk.
Import Reader.
Variable sanitize : jsstring -> jsstring.
Variable collection : jsstring.
Variable maxPages : nat.

Lemma pageRecords_default (req : ListRequest) recs c (all : list record) :
  (if (0 <? length (default [] recs))%nat then all ++ default [] recs else all)
  = all ++ pageRecords [(req, RespOk recs c)].
Proof.
  unfold pageRecords. simpl. rewrite app_nil_r.
  destruct recs as [[|r l]|]; simpl; rewrite ?app_nil_r; reflexivity.
Qed.

Lemma fetchAllRecordsForUser_loop_spec fuel :
  forall (w : World Store) n cur all cats,
    (1 <= fuel)%nat -> (maxPages <= fuel + n)%nat ->
    (cur = None \/ truthy cur = true) ->
    exists out cats' w' tr,
      fetchAllRecordsForUser_loop Store listRecords sanitize fuel w collection
        maxPages n cur all cats = (out, cats', w')
      /\ exchanges w' = exchanges w ++ tr
      /\ follows MAX_LIST_LIMIT (continueReader maxPages) (S n) cur tr
      /\ (forall req resp, In (req, resp) tr -> isFailure resp = true ->
            out = Thrown (failureMessage collection resp))
      /\ (Forall (fun e => isFailure (snd e) = false) tr ->
            out = Returned (all ++ pageRecords tr)).
Proof.
  induction fuel as [|f IH]; intros w n cur all cats Hf Hn Hcur; [lia|].
  assert (Hreq : (if truthy cur then cur else None) = cur).
  { destruct Hcur as [ -> | -> ]; reflexivity. }
  cbn [fetchAllRecordsForUser_loop]. unfold fetchRecords.
  change (N.min MAX_LIST_LIMIT MAX_LIST_LIMIT) with MAX_LIST_LIMIT.
  rewrite Hreq. pose proof (call_exchanges w (mkRequest MAX_LIST_LIMIT cur)) as Hex.
  destruct (call listRecords w (mkRequest MAX_LIST_LIMIT cur)) as [resp w1].
  simpl in Hex. destruct resp as [recs c|status statusText body|m].
  - destruct (truthy c) eqn:Hc; simpl negb; cbv iota.
    + destruct (maxPages <=? S n)%nat eqn:Hm.
      * eexists _, _, _, [_]. split; [reflexivity|]. split; [exact Hex|].
        repeat split.
        -- unfold continueReader. simpl. rewrite Hc. simpl.
           apply Nat.leb_le in Hm.
           destruct (Nat.ltb_spec (S n) maxPages); [lia | reflexivity].
        -- intros req resp [ [= <- <-] | [] ]. discriminate.
        -- intros _. f_equal. apply pageRecords_default.
      * apply Nat.leb_gt in Hm.
        destruct (IH w1 (S n) c
                    (if (0 <? length (default [] recs))%nat
                     then all ++ default [] recs else all)
                    (if (0 <? length (default [] recs))%nat
                     then addCategories sanitize cats (default [] recs) else cats))
          as (out & cats' & w' & tr & E & Hex' & Hfol & Hfail & Hok);
          [lia | lia | right; exact Hc |].
        exists out, cats', w', ((mkRequest MAX_LIST_LIMIT cur, RespOk recs c) :: tr).
        split; [exact E|]. split; [rewrite Hex', Hex, <- app_assoc; reflexivity|].
        repeat split.
        -- unfold continueReader. simpl. rewrite Hc. simpl.
           destruct (Nat.ltb_spec (S n) maxPages); [exact Hfol | lia].
        -- intros req resp [ [= <- <-] | Hin ]; [discriminate|]. exact (Hfail _ _ Hin).
        -- intros Hall. apply Forall_cons in Hall as [_ Hall].
           rewrite (Hok Hall), (pageRecords_default (mkRequest MAX_LIST_LIMIT cur) recs c).
           unfold pageRecords. simpl. rewrite app_nil_r, app_assoc. reflexivity.
    + eexists _, _, _, [_]. split; [reflexivity|]. split; [exact Hex|].
      repeat split.
      * unfold continueReader. simpl. rewrite Hc. reflexivity.
      * intros req resp [ [= <- <-] | [] ]. discriminate.
      * intros _. f_equal. apply pageRecords_default.
  - eexists _, _, _, [_]. split; [reflexivity|]. split; [exact Hex|].
    repeat split.
    + intros req resp [ [= <- <-] | [] ] _. reflexivity.
    + intros Hall. apply Forall_cons in Hall as [Hall _]. discriminate.
  - eexists _, _, _, [_]. split; [reflexivity|]. split; [exact Hex|].
    repeat split.
    + intros req resp [ [= <- <-] | [] ] _. reflexivity.
    + intros Hall. apply Forall_cons in Hall as [Hall _]. discriminate.
Qed.

End ReaderWalk.


(** *** The command-line walk *)
Section CliWalk.
Import Cli.

Lemma fetchAllRecords_loop_spec fuel :
  forall (w : World Store) cur all i,
    exists out w' tr,
      fetchAllRecords_loop Store listRecords fuel w cur all = (out, w')
      /\ exchanges w' = exchanges w ++ tr
      /\ (out <> OutOfFuel -> follows 100 continueCli i cur tr)
      /\ (out = OutOfFuel ->
            length tr = fuel /\ followsOpen 100 continueCli i cur tr)
      /\ (forall req resp, In (req, resp) tr -> isFailure resp = true ->
            out = Returned [])
      /\ (out <> OutOfFuel -> Forall (fun e => isFailure (snd e) = false) tr ->
            out = Returned (all ++ pageRecords tr)).
Proof.
  induction fuel as [|f IH]; intros w cur all i.
  - exists OutOfFuel, w, []. simpl. rewrite app_nil_r.
    repeat split; try congruence; try tauto.
  - cbn [fetchAllRecords_loop].
    pose proof (call_exchanges w (mkRequest 100 cur)) as Hex.
    destruct (call listRecords w (mkRequest 100 cur)) as [resp w1].
    simpl in Hex. destruct resp as [[recs|] c|status statusText body|m].
    + destruct (truthy c) eqn:Hc.
      * destruct (IH w1 c (all ++ recs) (S i))
          as (out & w' & tr & E & Hex' & Hfol & Hopen & Hfail & Hok).
        exists out, w', ((mkRequest 100 cur, RespOk (Some recs) c) :: tr).
        split; [exact E|]. split; [rewrite Hex', Hex, <- app_assoc; reflexivity|].
        split; [|split; [|split]].
        -- intros Ho. simpl. rewrite Hc. auto.
        -- intros Ho. destruct (Hopen Ho) as [Hl Hf]. simpl. auto.
        -- intros req resp [ [= <- <-] | Hin ]; [discriminate|]. exact (Hfail _ _ Hin).
        -- intros Ho Hall. apply Forall_cons in Hall as [_ Hall].
           rewrite (Hok Ho Hall). unfold pageRecords. simpl.
           rewrite app_assoc. reflexivity.
      * eexists _, _, [_]. split; [reflexivity|]. split; [exact Hex|].
        split; [|split; [|split]]; try discriminate.
        -- intros _. simpl. rewrite Hc. auto.
        -- intros req resp [ [= <- <-] | [] ]. discriminate.
        -- intros _ _. unfold pageRecords. simpl. rewrite app_nil_r. reflexivity.
    + eexists _, _, [_]. split; [reflexivity|]. split; [exact Hex|].
      split; [|split; [|split]]; try discriminate.
      * intros _. simpl. auto.
      * intros req resp [ [= <- <-] | [] ]. discriminate.
      * intros _ _. unfold pageRecords. simpl. rewrite app_nil_r. reflexivity.
    + eexists _, _, [_]. split; [reflexivity|]. split; [exact Hex|].
      split; [|split; [|split]]; try discriminate.
      * intros _. simpl. auto.
      * intros req resp [ [= <- <-] | [] ] _. reflexivity.
      * intros _ Hall. apply Forall_cons in Hall as [Hall _]. discriminate.
    + eexists _, _, [_]. split; [reflexivity|]. split; [exact Hex|].
      split; [|split; [|split]]; try discriminate.
      * intros _. simpl. auto.
      * intros req resp [ [= <- <-] | [] ] _. reflexivity.
      * intros _ Hall. apply Forall_cons in Hall as [Hall _]. discriminate.
Qed.

Lemma followsOpen_next lim continue i cur l1 req recs c rq' rs' l2' :
  followsOpen lim continue i cur (l1 ++ (req, RespOk recs c) :: (rq', rs') :: l2') ->
  rq' = mkRequest lim c.
Proof.
  revert i cur. induction l1 as [|[rq rs] l1 IH]; intros i cur; simpl.
  - intros (_ & _ & H & _). exact H.
  - intros (_ & _ & H). destruct rs as [r0 c0| |]; try contradiction.
    exact (IH _ _ H).
Qed.

Lemma fetchAllRecords_loop_S fuel (w : World Store) cur all :
  fetchAllRecords_loop Store listRecords (S fuel) w cur all
  = let (resp, w') := call listRecords w (mkRequest 100 cur) in
    match resp with
    | RespOk (Some records) cursor' =>
        if truthy cursor'
        then fetchAllRecords_loop Store listRecords fuel w' cursor' (all ++ records)
        else (Returned (all ++ records), w')
    | RespOk None _ => (Returned all, w')
    | _ => (Returned [], w')
    end.
Proof. reflexivity. Qed.

(** A turn of the loop starts with the request at its cursor. *)
Lemma fetchAllRecords_loop_first fuel (w : World Store) cur all :
  exists resp' l2',
    exchanges (snd (fetchAllRecords_loop Store listRecords (S fuel) w cur all))
    = exchanges w ++ (mkRequest 100 cur, resp') :: l2'.
Proof.
  rewrite fetchAllRecords_loop_S.
  pose proof (call_exchanges w (mkRequest 100 cur)) as Hex.
  destruct (call listRecords w (mkRequest 100 cur)) as [resp w1].
  simpl in Hex. exists resp.
  destruct resp as [[recs|] c|status statusText body|m];
    try (exists []; exact Hex).
  destruct (truthy c); [|exists []; exact Hex].
  destruct (fetchAllRecords_loop_spec fuel w1 c (all ++ recs) 1%nat)
    as (out & w' & tr & E & Hex' & _).
  exists tr. rewrite E. simpl. rewrite Hex', Hex, <- app_assoc. reflexivity.
Qed.

(** Given one more turn, the loop asks for the page after an empty page
    with a cursor, wherever in the walk that page is. *)
Lemma fetchAllRecords_loop_next fuel :
  forall (w : World Store) cur all l1 req c l2,
    exchanges (snd (fetchAllRecords_loop Store listRecords fuel w cur all))
    = exchanges w ++ l1 ++ (req, RespOk (Some []) c) :: l2 ->
    truthy c = true ->
    exists resp' l2',
      exchanges (snd (fetchAllRecords_loop Store listRecords (S fuel) w cur all))
      = exchanges w ++ l1 ++ (req, RespOk (Some []) c) :: (mkRequest 100 c, resp') :: l2'.
Proof.
  induction fuel as [|f IH]; intros w cur all l1 req c l2 H Hc.
  - simpl in H. rewrite <- (app_nil_r (exchanges w)) in H at 1.
    apply app_inv_head in H. destruct l1; discriminate.
  - rewrite fetchAllRecords_loop_S in H.
    rewrite (fetchAllRecords_loop_S (S f)).
    pose proof (call_exchanges w (mkRequest 100 cur)) as Hex.
    destruct (call listRecords w (mkRequest 100 cur)) as [resp w1].
    simpl in Hex.
    assert (Hlast : forall out,
               exchanges (snd (out : Outcome, w1))
               = exchanges w ++ l1 ++ (req, RespOk (Some []) c) :: l2 ->
               l1 = [] /\ l2 = [] /\ resp = RespOk (Some []) c).
    { intros out Ho. simpl in Ho. rewrite Hex in Ho. apply app_inv_head in Ho.
      destruct l1 as [|e1 [|e2 l1]]; try discriminate.
      injection Ho as _ -> <-. auto. }
    destruct resp as [[recs|] c0|status statusText body|m];
      try (destruct (Hlast _ H) as (_ & _ & Hr); discriminate).
    destruct (truthy c0) eqn:Hc0;
      [|destruct (Hlast _ H) as (_ & _ & Hr); injection Hr as -> ->; congruence].
    destruct (fetchAllRecords_loop_spec f w1 c0 (all ++ recs) 1%nat)
      as (out & w' & tr & E & Hex' & _).
    rewrite E in H. simpl in H. rewrite Hex', Hex, <- app_assoc in H.
    apply app_inv_head in H. destruct l1 as [|e1 l1]; simpl in H.
    + injection H as <- -> -> <-.
      destruct (fetchAllRecords_loop_first f w1 c (all ++ [])) as (resp' & l2' & Hf).
      exists resp', l2'. rewrite Hf, Hex, <- app_assoc. reflexivity.
    + injection H as <- H.
      destruct (IH w1 c0 (all ++ recs) l1 req c l2) as (resp' & l2' & Hn);
        [rewrite E; simpl; rewrite Hex', H; reflexivity | exact Hc |].
      exists resp', l2'. rewrite Hn, Hex, <- app_assoc. reflexivity.
Qed.

End CliWalk.

(** *** The editor's batches *)
Section EditorBatches.
Import Editor.

Lemma settle_allPostsLoaded st posts c :
  allPostsLoaded (fetchAndAppendPosts_settle st (BatchOk posts c))
  = negb (truthy c) || (N.of_nat (length posts) <? POSTS_PER_PAGE).
Proof.
  unfold fetchAndAppendPosts_settle.
  destruct (negb (truthy c) || _); reflexivity.
Qed.

Lemma handleLoadMore_loaded st (w : World Store) :
  allPostsLoaded st = true -> handleLoadMore Store listRecords st w = (st, w).
Proof. intros H. unfold handleLoadMore. rewrite H. reflexivity. Qed.

Lemma handleLoadMore_request st (w : World Store) :
  allPostsLoaded st = false -> isLoadingMore st = false -> loggedIn st = true ->
  exists resp,
    exchanges (snd (handleLoadMore Store listRecords st w))
    = exchanges w ++ [(mkRequest POSTS_PER_PAGE (cursor st), resp)].
Proof.
  intros H1 H2 H3. unfold handleLoadMore, fetchAndAppendPosts, fetchBlogPostsBatch.
  rewrite H1, H2. simpl. rewrite H3. simpl.
  pose proof (call_exchanges w (mkRequest POSTS_PER_PAGE (cursor st))) as Hex.
  destruct (call listRecords w (mkRequest POSTS_PER_PAGE (cursor st))) as [resp w1].
  exists resp. destruct resp; exact Hex.
Qed.

End EditorBatches.


(** *** The three walks together *)
Section Together.
Import Cli Reader Editor.
Variable sanitize : jsstring -> jsstring.

Lemma fetchAllRecordsForUser_spec (w : World Store) collection maxPages :
  exists out cats' w' tr,
    fetchAllRecordsForUser Store listRecords sanitize w collection maxPages
    = (out, cats', w')
    /\ exchanges w' = exchanges w ++ tr
    /\ follows MAX_LIST_LIMIT (continueReader maxPages) 1 None tr
    /\ out <> OutOfFuel
    /\ (forall req resp, In (req, resp) tr -> isFailure resp = true ->
          out = if isNotFoundMessage (failureMessage collection resp)
                then Returned []
                else Thrown (failureMessage collection resp))
    /\ (Forall (fun e => isFailure (snd e) = false) tr ->
          out = Returned (pageRecords tr)).
Proof.
  destruct (fetchAllRecordsForUser_loop_spec sanitize collection maxPages
              (S maxPages) w 0%nat None [] ∅)
    as (out & cats' & w' & tr & E & Hex & Hfol & Hfail & Hok);
    [lia | lia | left; reflexivity |].
  unfold fetchAllRecordsForUser. rewrite E.
  assert (Hdec : (exists req resp, In (req, resp) tr /\ isFailure resp = true)
                 \/ Forall (fun e => isFailure (snd e) = false) tr).
  { clear. induction tr as [|[rq rs] tr IH]; [right; constructor|].
    destruct (isFailure rs) eqn:Ef.
    - left. exists rq, rs. split; [left; reflexivity | exact Ef].
    - destruct IH as [(req & resp & Hin & Hf)|Hall].
      + left. exists req, resp. split; [right; exact Hin | exact Hf].
      + right. constructor; [exact Ef | exact Hall]. }
  destruct Hdec as [(req & resp & Hin & Hf)|Hall].
  - pose proof (Hfail _ _ Hin Hf) as ->.
    assert (Hone : forall req' resp', In (req', resp') tr -> isFailure resp' = true ->
                     failureMessage collection resp' = failureMessage collection resp).
    { intros req' resp' Hin' Hf'. pose proof (Hfail _ _ Hin' Hf') as [= <-]. reflexivity. }
    assert (Hno : ~ Forall (fun e => isFailure (snd e) = false) tr).
    { intros Hall. rewrite List.Forall_forall in Hall.
      specialize (Hall _ Hin). simpl in Hall. congruence. }
    cbv beta iota.
    destruct (isNotFoundMessage (failureMessage collection resp)) eqn:Em.
    + exists (Returned []), cats', w', tr.
      split; [reflexivity|]. split; [exact Hex|]. split; [exact Hfol|].
      split; [discriminate|]. split; [|tauto].
      intros req' resp' Hin' Hf'. rewrite (Hone _ _ Hin' Hf'), Em. reflexivity.
    + exists (Thrown (failureMessage collection resp)), cats', w', tr.
      split; [reflexivity|]. split; [exact Hex|]. split; [exact Hfol|].
      split; [discriminate|]. split; [|tauto].
      intros req' resp' Hin' Hf'. rewrite (Hone _ _ Hin' Hf'), Em. reflexivity.
  - pose proof (Hok Hall) as ->. simpl.
    exists (Returned (pageRecords tr)), cats', w', tr.
    split; [reflexivity|]. split; [exact Hex|]. split; [exact Hfol|].
    split; [discriminate|]. split; [|reflexivity].
    intros req resp Hin Hf. rewrite List.Forall_forall in Hall.
    specialize (Hall _ Hin). simpl in Hall. congruence.
Qed.

(** C2, as the code has it.  [fetchAllRecordsForUser] always ends, and
    after its [i]-th page asks for the next one exactly when the page has
    a cursor and [i < maxPages]; [fetchAllRecords] goes on exactly while
    the page has records and a cursor (with too little fuel the model
    stops in the middle of such a walk); neither looks at the number of
    records of a page.  The short-page rule is the editor's:
    [fetchAndAppendPosts] marks the posts all loaded exactly when the
    cursor is absent or the batch is shorter than [POSTS_PER_PAGE], after
    which [handleLoadMore] asks for nothing, and before which it asks for
    one page at the kept cursor. *)
Theorem walks_stop_on_cursor_and_budget :
  (forall (w : World Store) collection maxPages,
      let r := fetchAllRecordsForUser Store listRecords sanitize w collection maxPages in
      fst (fst r) <> OutOfFuel /\
      exists tr, exchanges (snd r) = exchanges w ++ tr
                 /\ follows MAX_LIST_LIMIT (continueReader maxPages) 1 None tr)
  /\ (forall fuel (w : World Store),
        let r := fetchAllRecords Store listRecords fuel w in
        exists tr, exchanges (snd r) = exchanges w ++ tr
          /\ (fst r <> OutOfFuel -> follows 100 continueCli 1 None tr)
          /\ (fst r = OutOfFuel ->
                length tr = fuel /\ followsOpen 100 continueCli 1 None tr))
  /\ (forall st posts c,
        allPostsLoaded (fetchAndAppendPosts_settle st (BatchOk posts c))
        = negb (truthy c) || (N.of_nat (length posts) <? POSTS_PER_PAGE))
  /\ (forall st (w : World Store),
        allPostsLoaded st = true -> handleLoadMore Store listRecords st w = (st, w))
  /\ (forall st (w : World Store),
        allPostsLoaded st = false -> isLoadingMore st = false -> loggedIn st = true ->
        exists resp,
          exchanges (snd (handleLoadMore Store listRecords st w))
          = exchanges w ++ [(mkRequest POSTS_PER_PAGE (cursor st), resp)]).
Proof.
  split; [|split; [|split; [|split]]].
  - intros w collection maxPages r. subst r.
    destruct (fetchAllRecordsForUser_spec w collection maxPages)
      as (out & cats' & w' & tr & -> & Hex & Hfol & Hout & _).
    simpl. split; [exact Hout | eauto].
  - intros fuel w r. subst r. unfold fetchAllRecords.
    destruct (fetchAllRecords_loop_spec fuel w None [] 1%nat)
      as (out & w' & tr & -> & Hex & Hfol & Hopen & _).
    simpl. eauto.
  - apply settle_allPostsLoaded.
  - apply handleLoadMore_loaded.
  - apply handleLoadMore_request.
Qed.

(** C4, as the code has it.  When a page request of a walk fails, it
    is the last request of the walk and the records of the pages before
    it are not returned: [fetchAllRecords] returns the empty array, and
    [fetchAllRecordsForUser] returns the empty array when the error's
    message is that of a missing user or collection
    ([isNotFoundMessage]) and throws the error otherwise. *)
Theorem failed_walk_discards_partial_result :
  (forall fuel (w : World Store),
      let r := fetchAllRecords Store listRecords fuel w in
      exists tr, exchanges (snd r) = exchanges w ++ tr
        /\ forall req resp, In (req, resp) tr -> isFailure resp = true ->
             fst r = Returned []
             /\ exists before, tr = before ++ [(req, resp)])
  /\ (forall (w : World Store) collection maxPages,
        let r := fetchAllRecordsForUser Store listRecords sanitize w collection maxPages in
        exists tr, exchanges (snd r) = exchanges w ++ tr
          /\ forall req resp, In (req, resp) tr -> isFailure resp = true ->
               fst (fst r) = (if isNotFoundMessage (failureMessage collection resp)
                              then Returned []
                              else Thrown (failureMessage collection resp))
               /\ exists before, tr = before ++ [(req, resp)]).
Proof.
  split.
  - intros fuel w r. subst r. unfold fetchAllRecords.
    destruct (fetchAllRecords_loop_spec fuel w None [] 1%nat)
      as (out & w' & tr & -> & Hex & Hfol & _ & Hfail & _).
    simpl. exists tr. split; [exact Hex|]. intros req resp Hin Hf.
    pose proof (Hfail _ _ Hin Hf) as ->. split; [reflexivity|].
    apply (follows_failure_last 100 continueCli 1 None tr req resp);
      [| apply Hfol; discriminate | exact Hin | exact Hf].
    intros j [[recs|] c| |]; simpl; congruence.
  - intros w collection maxPages r. subst r.
    destruct (fetchAllRecordsForUser_spec w collection maxPages)
      as (out & cats' & w' & tr & -> & Hex & Hfol & _ & Hfail & _).
    simpl. exists tr. split; [exact Hex|]. intros req resp Hin Hf.
    split; [exact (Hfail _ _ Hin Hf)|].
    apply (follows_failure_last MAX_LIST_LIMIT (continueReader maxPages) 1 None
             tr req resp); [| exact Hfol | exact Hin | exact Hf].
    intros j [recs c| |]; unfold continueReader; simpl; congruence.
Qed.

Lemma settle_empty_page st c :
  let st' := fetchAndAppendPosts_settle st (BatchOk [] c) in
  cursor st' = c
  /\ fetchedPostsCache st' = fetchedPostsCache st
  /\ allPostsLoaded st' = true.
Proof.
  cbv zeta. unfold fetchAndAppendPosts_settle.
  change (N.of_nat (length (@nil record)) <? POSTS_PER_PAGE) with true.
  rewrite orb_true_r. simpl. unfold appendPosts. simpl.
  rewrite app_nil_r. auto.
Qed.

(** C6, as the code has it.  In [fetchAllRecordsForUser] an empty page
    with a cursor, met before the budget of pages is used up, is followed
    by a request at that cursor.  So it is in [fetchAllRecords], wherever
    in the walk the page is: the request is the next exchange of the run,
    unless the run is one the model cut off at that very page, and it is
    the next exchange of the run with one more turn in either case.  In
    the editor the short-page rule fires on such a page:
    [fetchAndAppendPosts] keeps the cursor of the page and the cache as
    it was, marks the posts all loaded, and [handleLoadMore] asks for
    nothing. *)
Theorem empty_page_with_cursor_goes_on :
  (forall (w : World Store) collection maxPages l1 req recs c l2,
      let r := fetchAllRecordsForUser Store listRecords sanitize w collection maxPages in
      exchanges (snd r) = exchanges w ++ l1 ++ (req, RespOk recs c) :: l2 ->
      default [] recs = [] -> truthy c = true -> (S (length l1) < maxPages)%nat ->
      exists resp' l2', l2 = (mkRequest MAX_LIST_LIMIT c, resp') :: l2')
  /\ (forall fuel (w : World Store) l1 req c l2,
        let r := fetchAllRecords Store listRecords fuel w in
        exchanges (snd r) = exchanges w ++ l1 ++ (req, RespOk (Some []) c) :: l2 ->
        truthy c = true ->
        ((exists resp' l2', l2 = (mkRequest 100 c, resp') :: l2')
         \/ (l2 = [] /\ fst r = OutOfFuel /\ fuel = S (length l1)))
        /\ exists resp' l2',
             exchanges (snd (fetchAllRecords Store listRecords (S fuel) w))
             = exchanges w ++ l1 ++ (req, RespOk (Some []) c)
                 :: (mkRequest 100 c, resp') :: l2')
  /\ (forall st (w : World Store) c,
        let st' := fetchAndAppendPosts_settle st (BatchOk [] c) in
        cursor st' = c
        /\ fetchedPostsCache st' = fetchedPostsCache st
        /\ allPostsLoaded st' = true
        /\ handleLoadMore Store listRecords st' w = (st', w))
  /\ (forall st (w : World Store) cur recs c s',
        isLoadingMore st = false -> loggedIn st = true ->
        listRecords (store w) (mkRequest POSTS_PER_PAGE cur) = (RespOk recs c, s') ->
        default [] recs = [] ->
        let r := fetchAndAppendPosts Store listRecords st w cur in
        exchanges (snd r)
        = exchanges w ++ [(mkRequest POSTS_PER_PAGE cur, RespOk recs c)]
        /\ cursor (fst r) = c
        /\ fetchedPostsCache (fst r) = fetchedPostsCache st
        /\ allPostsLoaded (fst r) = true
        /\ handleLoadMore Store listRecords (fst r) (snd r) = r).
Proof.
  split; [|split; [|split]].
  - intros w collection maxPages l1 req recs c l2 r Hex _ Hc Hn. subst r.
    destruct (fetchAllRecordsForUser_spec w collection maxPages)
      as (out & cats' & w' & tr & E & Hex' & Hfol & _).
    rewrite E in Hex. simpl in Hex. rewrite Hex' in Hex.
    apply app_inv_head in Hex. subst tr.
    apply (follows_next _ _ _ _ _ _ _ _ _ Hfol).
    unfold continueReader. simpl. rewrite Hc. simpl.
    apply Nat.ltb_lt. lia.
  - intros fuel w l1 req c l2 r Hex Hc. subst r. unfold fetchAllRecords in *.
    split; [|exact (fetchAllRecords_loop_next fuel w None [] l1 req c l2 Hex Hc)].
    destruct (fetchAllRecords_loop_spec fuel w None [] 1%nat)
      as (out & w' & tr & E & Hex' & Hfol & Hopen & _).
    rewrite E in Hex |- *. simpl in Hex |- *. rewrite Hex' in Hex.
    apply app_inv_head in Hex. subst tr.
    assert (Ho : out = OutOfFuel \/ out <> OutOfFuel)
      by (destruct out; auto; right; discriminate).
    destruct Ho as [Ho|Ho].
    + destruct (Hopen Ho) as [Hlen Hop]. destruct l2 as [|[rq' rs'] l2'].
      * right. split; [reflexivity|]. split; [exact Ho|].
        rewrite length_app in Hlen. simpl in Hlen. lia.
      * left. rewrite (followsOpen_next _ _ _ _ _ _ _ _ _ _ _ Hop). eauto.
    + left. apply (follows_next _ _ _ _ _ _ _ _ _ (Hfol Ho)). exact Hc.
  - intros st w c st'. subst st'.
    destruct (settle_empty_page st c) as (H1 & H2 & H3).
    repeat split; auto. apply handleLoadMore_loaded, H3.
  - intros st w cur recs c s' Hl Hin El Hr r. subst r.
    unfold fetchAndAppendPosts, fetchBlogPostsBatch. rewrite Hl.
    unfold fetchAndAppendPosts_pending. cbn [loggedIn setIsLoadingMore].
    rewrite Hin. cbn [negb]. unfold call. rewrite El, Hr. cbn [fst snd exchanges].
    destruct (settle_empty_page (setIsLoadingMore true st) c) as (H1 & H2 & H3).
    repeat split; auto. apply handleLoadMore_loaded, H3.
Qed.

End Together.
End Walks.

Import Cli Reader Editor.

(** A page of one record with a cursor is short of the limit of 100,
    and the reader asks for the next page all the same. *)
Lemma reader_walk_goes_on_after_short_page :
  let a := undatedPost "at://did:plc:x/app.blog.post/1" in
  let w := mkWorld [RespOk (Some [a]) (Some (u16 "c1")); RespOk (Some []) None] [] in
  let r := fetchAllRecordsForUser _ scripted (fun s => s) w BLOG_POST_NSID 30 in
  length (exchanges (snd r)) = 2%nat
  /\ ~ follows MAX_LIST_LIMIT (continueBySpec MAX_LIST_LIMIT 30) 1 None
         (exchanges (snd r)).
Proof.
  split; [vm_compute; reflexivity|].
  vm_compute. intros [_ H]. discriminate H.
Qed.

(** The second request fails: [fetchAllRecords] returns the empty
    array, which is what it returns for a collection without records. *)
Lemma fetchAllRecords_failure_returns_empty_array :
  let a := undatedPost "at://did:plc:x/app.blog.post/1" in
  let w := mkWorld [RespOk (Some [a]) (Some (u16 "c1")); RespReject (u16 "network")] [] in
  let r := fetchAllRecords _ scripted 5 w in
  In (mkRequest 100 (Some (u16 "c1")), RespReject (u16 "network")) (exchanges (snd r))
  /\ fst r = Returned []
  /\ forall m, fst r <> Thrown m.
Proof.
  repeat split.
  - vm_compute. right. left. reflexivity.
  - intros m. vm_compute. discriminate.
Qed.

(** The first page is empty and has a cursor: the editor keeps the
    cursor, marks the posts all loaded, and [handleLoadMore] makes no
    request. *)
Lemma load_more_stops_at_empty_page_with_cursor :
  let a := undatedPost "at://did:plc:x/app.blog.post/1" in
  let w := mkWorld [RespOk (Some []) (Some (u16 "c1")); RespOk (Some [a]) None] [] in
  let sw1 := loadInitialData _ scripted (setLoggedIn true initialState) w in
  let sw2 := handleLoadMore _ scripted (fst sw1) (snd sw1) in
  exchanges (snd sw1)
  = [(mkRequest POSTS_PER_PAGE None, RespOk (Some []) (Some (u16 "c1")))]
  /\ cursor (fst sw1) = Some (u16 "c1")
  /\ exchanges (snd sw2) = exchanges (snd sw1)
  /\ fetchedPostsCache (fst sw2) = [].
Proof. vm_compute. repeat split. Qed.
(** Two records and the cursor [c1], then one record and no cursor:
    the reader makes two requests and returns the three records. *)
Lemma walks_stop_on_cursor_and_budget_witness :
  let a := undatedPost "at://did:plc:x/app.blog.post/1" in
  let b := undatedPost "at://did:plc:x/app.blog.post/2" in
  let c := undatedPost "at://did:plc:x/app.blog.post/3" in
  let w := mkWorld [RespOk (Some [a; b]) (Some (u16 "c1")); RespOk (Some [c]) None] [] in
  let r := fetchAllRecordsForUser _ scripted (fun s => s) w BLOG_POST_NSID 30 in
  fst (fst r) = Returned [a; b; c]
  /\ List.map fst (exchanges (snd r))
     = [mkRequest 100 None; mkRequest 100 (Some (u16 "c1"))]
  /\ fst (fst r) <> OutOfFuel.
Proof.
  split; [vm_compute; reflexivity|]. split; [vm_compute; reflexivity|].
  exact (proj1 (proj1 (walks_stop_on_cursor_and_budget _ scripted (fun s => s))
                  (mkWorld [RespOk (Some [undatedPost "at://did:plc:x/app.blog.post/1";
                                          undatedPost "at://did:plc:x/app.blog.post/2"])
                              (Some (u16 "c1"));
                            RespOk (Some [undatedPost "at://did:plc:x/app.blog.post/3"]) None]
                           [])
                  BLOG_POST_NSID 30%nat)).
Defined.

(** A page and then a server error with a message of its own: the
    reader throws, and the record of the first page is not returned. *)
Lemma failed_walk_discards_partial_result_witness :
  let a := undatedPost "at://did:plc:x/app.blog.post/1" in
  let failure := RespStatus 500 (u16 "Internal Server Error") None in
  let w := mkWorld [RespOk (Some [a]) (Some (u16 "c1")); failure] [] in
  let r := fetchAllRecordsForUser _ scripted (fun s => s) w BLOG_POST_NSID 30 in
  fst (fst r) = Thrown (u16 "HTTP error! Status: 500 Internal Server Error").
Proof.
  intros a failure w r.
  destruct (proj2 (failed_walk_discards_partial_result _ scripted (fun s => s))
              w BLOG_POST_NSID 30%nat) as (tr & Hex & Hfail).
  apply (Hfail (mkRequest 100 (Some (u16 "c1"))) failure); [|reflexivity].
  vm_compute in Hex. subst tr. right. left. reflexivity.
Defined.

(** An empty page with the cursor [c1], then a page of one record: the
    reader asks for the second page at [c1]. *)
Lemma empty_page_with_cursor_goes_on_witness :
  let a := undatedPost "at://did:plc:x/app.blog.post/1" in
  let w := mkWorld [RespOk (Some []) (Some (u16 "c1")); RespOk (Some [a]) None] [] in
  let r := fetchAllRecordsForUser _ scripted (fun s => s) w BLOG_POST_NSID 30 in
  fst (fst r) = Returned [a]
  /\ exists resp' l2',
       [(mkRequest 100 (Some (u16 "c1")), RespOk (Some [a]) None)]
       = (mkRequest MAX_LIST_LIMIT (Some (u16 "c1")), resp') :: l2'.
Proof.
  split; [vm_compute; reflexivity|].
  refine (proj1 (empty_page_with_cursor_goes_on _ scripted (fun s => s))
            (mkWorld [RespOk (Some []) (Some (u16 "c1"));
                      RespOk (Some [undatedPost "at://did:plc:x/app.blog.post/1"]) None] [])
            BLOG_POST_NSID 30%nat [] (mkRequest 100 None) (Some []) (Some (u16 "c1")) _
            _ eq_refl eq_refl _).
  - vm_compute. reflexivity.
  - simpl. lia.
Defined.

End FetchProps.

(** ** The export is read back as it was written *)

Module JsonProps.
Import JSString Post Json.

(** *** Numbers *)

Lemma readDigits_stop (s : jsstring) :
  headIs isDigit s = false -> readDigits s = (Decimal.Nil, s).
Proof.
  destruct s as [|c r]; [reflexivity|]. simpl. unfold isDigit. intros H.
  destruct (readDigits r) as [u r'].
  assert (Hc : c < 48 \/ 57 < c).
  { apply andb_false_iff in H as [H|H]; apply N.leb_gt in H; lia. }
  repeat match goal with
         | |- context [c =? ?k] => destruct (N.eqb_spec c k); [lia|]
         end.
  reflexivity.
Qed.

Lemma readDigits_uintCodes (u : Decimal.uint) (rest : jsstring) :
  headIs isDigit rest = false -> readDigits (uintCodes u ++ rest) = (u, rest).
Proof.
  intros H. induction u; simpl; rewrite ?IHu; try reflexivity.
  apply readDigits_stop, H.
Qed.

Lemma uintCodes_head (u : Decimal.uint) :
  u <> Decimal.Nil -> headIs isDigit (uintCodes u) = true.
Proof. intros H. destruct u; try reflexivity. congruence. Qed.

Lemma to_uint_nonnil (n : N) : N.to_uint n <> Decimal.Nil.
Proof.
  destruct n as [|p]; simpl; [discriminate|].
  apply DecimalPos.Unsigned.to_uint_nonnil.
Qed.

Lemma decimal_head (n : N) :
  exists c t, decimal n = c :: t /\ isDigit c = true.
Proof.
  pose proof (uintCodes_head (N.to_uint n) (to_uint_nonnil n)) as H.
  unfold decimal. destruct (uintCodes (N.to_uint n)) as [|c t]; [discriminate|].
  eauto.
Qed.

Lemma readDigits_decimal (n : N) (rest : jsstring) :
  headIs isDigit rest = false ->
  exists u, readDigits (decimal n ++ rest) = (u, rest)
            /\ u <> Decimal.Nil /\ N.of_uint u = n.
Proof.
  intros H. exists (N.to_uint n). unfold decimal.
  rewrite (readDigits_uintCodes _ _ H).
  split; [reflexivity|]. split; [apply to_uint_nonnil | apply DecimalN.Unsigned.of_to].
Qed.

Lemma parseNumber_serializeNumber (n : Z) (rest : jsstring) :
  headIs isDigit rest = false ->
  parseNumber (serializeNumber n ++ rest) = Some (JNum n, rest).
Proof.
  intros H. unfold serializeNumber. destruct (Z.ltb_spec n 0) as [Hn|Hn].
  - simpl. destruct (readDigits_decimal (Z.to_N (- n)) rest H) as (u & -> & Hu & E).
    destruct u; [congruence|..]; rewrite E; do 3 f_equal; lia.
  - destruct (decimal_head (Z.to_N n)) as (c & t & E & Hc).
    destruct (readDigits_decimal (Z.to_N n) rest H) as (u & Hr & Hu & E').
    rewrite E in *. simpl app in *. unfold parseNumber.
    assert ((c =? 45) = false) as ->.
    { unfold isDigit in Hc. apply andb_true_iff in Hc as [Hc _].
      apply N.leb_le in Hc. apply N.eqb_neq. lia. }
    rewrite Hr. destruct u; [congruence|..]; rewrite E'; do 3 f_equal; lia.
Qed.

(** *** Strings *)

Lemma hexValue_hexDigit (d : N) : d < 16 -> hexValue (hexDigit d) = Some d.
Proof.
  intros H.
  assert (E : d = 0 \/ d = 1 \/ d = 2 \/ d = 3 \/ d = 4 \/ d = 5 \/ d = 6 \/ d = 7
              \/ d = 8 \/ d = 9 \/ d = 10 \/ d = 11 \/ d = 12 \/ d = 13 \/ d = 14
              \/ d = 15) by lia.
  repeat (destruct E as [->|E]; [reflexivity|]). subst d. reflexivity.
Qed.

Lemma hex_digits_value (c : N) :
  c < 65536 ->
  (((c / 4096) mod 16 * 16 + (c / 256) mod 16) * 16 + (c / 16) mod 16) * 16
  + c mod 16 = c.
Proof.
  intros H.
  assert (H1 : c / 256 = c / 16 / 16) by (rewrite N.Div0.div_div; reflexivity).
  assert (H2 : c / 4096 = c / 256 / 16) by (rewrite N.Div0.div_div; reflexivity).
  assert (H3 : c / 4096 < 16) by (apply N.Div0.div_lt_upper_bound; lia).
  rewrite (N.mod_small (c / 4096) 16 H3).
  pose proof (N.div_mod c 16 ltac:(lia)) as E0.
  pose proof (N.div_mod (c / 16) 16 ltac:(lia)) as E1.
  pose proof (N.div_mod (c / 256) 16 ltac:(lia)) as E2.
  rewrite <- H1 in E1. rewrite <- H2 in E2. lia.
Qed.

Lemma parseChars_unicodeEscape (c : N) (tail : jsstring) :
  c < 65536 ->
  parseChars (unicodeEscape c ++ tail)
  = match parseChars tail with
    | Some (str, r) => Some (c :: str, r)
    | None => None
    end.
Proof.
  intros H. unfold unicodeEscape.
  change (parseChars ([92; 117; hexDigit ((c / 4096) mod 16); hexDigit ((c / 256) mod 16);
                       hexDigit ((c / 16) mod 16); hexDigit (c mod 16)] ++ tail))
    with (match hexValue (hexDigit ((c / 4096) mod 16)),
                hexValue (hexDigit ((c / 256) mod 16)),
                hexValue (hexDigit ((c / 16) mod 16)),
                hexValue (hexDigit (c mod 16)), parseChars tail with
          | Some a, Some b, Some c', Some d, Some (str, r3) =>
              Some (((a * 16 + b) * 16 + c') * 16 + d :: str, r3)
          | _, _, _, _, _ => None
          end).
  rewrite !hexValue_hexDigit by (apply N.mod_lt; lia).
  rewrite (hex_digits_value c H). reflexivity.
Qed.

Lemma parseChars_raw (c : N) (tail : jsstring) :
  c <> 34 -> c <> 92 -> 32 <= c ->
  parseChars (c :: tail)
  = match parseChars tail with
    | Some (str, r) => Some (c :: str, r)
    | None => None
    end.
Proof.
  intros H1 H2 H3. cbn [parseChars].
  destruct (N.eqb_spec c 34); [congruence|].
  destruct (N.eqb_spec c 92); [congruence|].
  destruct (N.ltb_spec c 32); [lia|]. reflexivity.
Qed.

Lemma parseChars_quoteUnit (paired : bool) (c : N) (tail : jsstring) :
  parseChars (quoteUnit paired c ++ tail)
  = match parseChars tail with
    | Some (str, r) => Some (c :: str, r)
    | None => None
    end.
Proof.
  unfold quoteUnit.
  repeat match goal with
         | |- context [if c =? ?k then _ else _] =>
             destruct (N.eqb_spec c k) as [->|?]; [reflexivity|]
         end.
  destruct (N.ltb_spec c 32) as [Hlt|Hge].
  - apply parseChars_unicodeEscape. lia.
  - destruct ((isHighSurrogate c || isLowSurrogate c) && negb paired) eqn:E.
    + apply parseChars_unicodeEscape.
      apply andb_true_iff in E as [E _]. unfold isHighSurrogate, isLowSurrogate in E.
      apply orb_true_iff in E as [E|E]; apply andb_true_iff in E as [_ E];
        apply N.leb_le in E; lia.
    + apply parseChars_raw; assumption.
Qed.

Lemma parseChars_quoteUnits (prevHigh : bool) (s rest : jsstring) :
  parseChars (quoteUnits prevHigh s ++ 34 :: rest) = Some (s, rest).
Proof.
  revert prevHigh. induction s as [|c s IH]; intros prevHigh; [reflexivity|].
  cbn [quoteUnits]. rewrite <- app_assoc, parseChars_quoteUnit, IH. reflexivity.
Qed.

Lemma quote_app (s rest : jsstring) :
  quote s ++ rest = 34 :: quoteUnits false s ++ 34 :: rest.
Proof. unfold quote. simpl. rewrite <- app_assoc. reflexivity. Qed.

(** *** White space and the start of a value *)

Lemma skipWs_app (ws s : jsstring) :
  forallb isJsonWs ws = true -> skipWs (ws ++ s) = skipWs s.
Proof.
  unfold skipWs. induction ws as [|c ws IH]; simpl; [reflexivity|].
  intros H. apply andb_true_iff in H as [-> H]. auto.
Qed.

Lemma skipWs_head (c : N) (s : jsstring) :
  isJsonWs c = false -> skipWs (c :: s) = c :: s.
Proof. unfold skipWs. simpl. intros ->. reflexivity. Qed.

Lemma valueStart_not_ws (c : N) :
  valueStart c = true ->
  isJsonWs c = false /\ (c =? 93) = false /\ (c =? 125) = false
  /\ (c =? 44) = false.
Proof.
  unfold valueStart, isJsonWs, isDigit. intros H.
  assert (Hc : c = 110 \/ c = 116 \/ c = 102 \/ c = 34 \/ c = 91 \/ c = 123
               \/ c = 45 \/ (48 <= c /\ c <= 57)).
  { repeat (apply orb_true_iff in H as [H|H]);
      try (apply N.eqb_eq in H; tauto).
    apply andb_true_iff in H as [H1 H2]. apply N.leb_le in H1, H2. tauto. }
  repeat split; try (apply N.eqb_neq; lia).
  repeat (apply orb_false_iff; split); apply N.eqb_neq; lia.
Qed.

Lemma serialize_head (indent : jsstring) (v : Json) :
  exists c t, serialize indent v = c :: t /\ valueStart c = true.
Proof.
  destruct v as [|[|]|n|s|[|x xs]|[|[k x] ms]]; simpl;
    try (eexists _, _; split; [reflexivity|reflexivity]).
  unfold serializeNumber. destruct (n <? 0)%Z.
  - eexists _, _. split; reflexivity.
  - destruct (decimal_head (Z.to_N n)) as (c & t & -> & Hc).
    exists c, t. split; [reflexivity|]. unfold valueStart. rewrite Hc.
    repeat rewrite orb_true_r. reflexivity.
Qed.

Lemma skipWs_serialize (indent : jsstring) (v : Json) (rest : jsstring) :
  skipWs (serialize indent v ++ rest) = serialize indent v ++ rest.
Proof.
  destruct (serialize_head indent v) as (c & t & -> & Hc).
  apply skipWs_head, valueStart_not_ws, Hc.
Qed.

(** *** The parser's equations *)

Lemma parseValue_ws (fuel : nat) (ws s : jsstring) :
  forallb isJsonWs ws = true -> parseValue fuel (ws ++ s) = parseValue fuel s.
Proof.
  intros H. destruct fuel; [reflexivity|]. cbn [parseValue].
  rewrite (skipWs_app ws s H). reflexivity.
Qed.

Lemma parseValue_number (f : nat) (n : Z) (rest : jsstring) :
  headIs isDigit rest = false ->
  parseValue (S f) (serializeNumber n ++ rest) = Some (JNum n, rest).
Proof.
  intros H. rewrite <- (parseNumber_serializeNumber n rest H).
  assert (Hs : exists c t, serializeNumber n = c :: t
                           /\ (c = 45 \/ (48 <= c /\ c <= 57))).
  { unfold serializeNumber. destruct (n <? 0)%Z; [eauto|].
    destruct (decimal_head (Z.to_N n)) as (c & t & -> & Hc).
    exists c, t. split; [reflexivity|]. right. unfold isDigit in Hc.
    apply andb_true_iff in Hc as [H1 H2]. apply N.leb_le in H1, H2. lia. }
  destruct Hs as (c & t & -> & Hc). cbn [parseValue app].
  rewrite skipWs_head.
  - repeat match goal with
           | |- context [if c =? ?k then _ else _] =>
               destruct (N.eqb_spec c k); [lia|]
           end.
    reflexivity.
  - unfold isJsonWs. repeat (apply orb_false_iff; split); apply N.eqb_neq; lia.
Qed.

Lemma parseValue_string (f : nat) (s rest : jsstring) :
  parseValue (S f) (quote s ++ rest) = Some (JStr s, rest).
Proof.
  rewrite quote_app. cbn [parseValue]. rewrite skipWs_head by reflexivity.
  cbn [N.eqb Pos.eqb]. cbv iota. rewrite parseChars_quoteUnits. reflexivity.
Qed.

(** *** Arrays and objects *)

Lemma itemsTail_nil ser (indent indent' rest : jsstring) :
  itemsTail ser indent indent' [] ++ rest = (10 :: indent) ++ 93 :: rest.
Proof. simpl. rewrite <- app_assoc. reflexivity. Qed.

Lemma itemsTail_cons ser (indent indent' : jsstring) y l (rest : jsstring) :
  itemsTail ser indent indent' (y :: l) ++ rest
  = 44 :: (10 :: indent') ++ ser y ++ itemsTail ser indent indent' l ++ rest.
Proof. simpl. rewrite <- !app_assoc. reflexivity. Qed.

Lemma membersTail_nil ser (indent indent' rest : jsstring) :
  membersTail ser indent indent' [] ++ rest = (10 :: indent) ++ 125 :: rest.
Proof. simpl. rewrite <- app_assoc. reflexivity. Qed.

Lemma membersTail_cons ser (indent indent' : jsstring) k y l (rest : jsstring) :
  membersTail ser indent indent' ((k, y) :: l) ++ rest
  = 44 :: (10 :: indent') ++ quote k ++ 58 :: [32] ++ ser y
    ++ membersTail ser indent indent' l ++ rest.
Proof.
  cbn [membersTail app]. rewrite <- !app_assoc. cbn [app].
  rewrite <- ?app_assoc. reflexivity.
Qed.

Lemma itemsTail_delimited ser (indent indent' : jsstring) l (rest : jsstring) :
  headIs isDigit (itemsTail ser indent indent' l ++ rest) = false.
Proof. destruct l; reflexivity. Qed.

Lemma membersTail_delimited ser (indent indent' : jsstring) l (rest : jsstring) :
  headIs isDigit (membersTail ser indent indent' l ++ rest) = false.
Proof. destruct l as [|[k y] l]; reflexivity. Qed.

Lemma skipWs_value (ws indent : jsstring) (v : Json) (rest : jsstring) :
  forallb isJsonWs ws = true ->
  exists c t, skipWs (ws ++ serialize indent v ++ rest) = c :: t
              /\ c :: t = serialize indent v ++ rest
              /\ (c =? 93) = false /\ (c =? 125) = false.
Proof.
  intros H. rewrite (skipWs_app _ _ H), skipWs_serialize.
  destruct (serialize_head indent v) as (c & t & -> & Hc).
  destruct (valueStart_not_ws c Hc) as (_ & H1 & H2 & _).
  exists c, (t ++ rest). auto.
Qed.

Lemma indent_gap (indent : jsstring) :
  forallb isJsonWs indent = true -> forallb isJsonWs (indent ++ gap) = true.
Proof. intros H. rewrite forallb_app, H. reflexivity. Qed.

Lemma newline_indent (indent : jsstring) :
  forallb isJsonWs indent = true -> forallb isJsonWs (10 :: indent) = true.
Proof. intros H. simpl. exact H. Qed.

Lemma parseElements_items (xs : list Json) :
  Forall parsesBack xs ->
  forall x, parsesBack x ->
  forall (f : nat) (ws indent rest : jsstring),
    forallb isJsonWs ws = true -> forallb isJsonWs indent = true ->
    (S (weight x) + list_sum (List.map (fun y => S (weight y)) xs) <= f)%nat ->
    parseElements f
      (ws ++ serialize (indent ++ gap) x
          ++ itemsTail (serialize (indent ++ gap)) indent (indent ++ gap) xs ++ rest)
    = Some (x :: xs, rest).
Proof.
  induction 1 as [|y l Hy Hl IH]; intros x Hx f ws indent rest Hws Hi Hf;
    (destruct f as [|f]; [simpl in Hf; lia|]); cbn [parseElements];
    rewrite (parseValue_ws _ _ _ Hws);
    rewrite (Hx (indent ++ gap) f _ (indent_gap indent Hi)
               (itemsTail_delimited _ _ _ _ _))
      by (simpl in Hf; lia).
  - rewrite itemsTail_nil, (skipWs_app (10 :: indent)) by (simpl; exact Hi).
    reflexivity.
  - rewrite itemsTail_cons. rewrite skipWs_head by reflexivity.
    cbn [N.eqb Pos.eqb]. cbv iota.
    rewrite (IH y Hy f (10 :: indent ++ gap) indent rest
               (newline_indent _ (indent_gap indent Hi)) Hi)
      by (simpl in Hf |- *; lia).
    reflexivity.
Qed.

Lemma parseValue_space (f : nat) (s : jsstring) :
  parseValue f (32 :: s) = parseValue f s.
Proof. exact (parseValue_ws f [32] s eq_refl). Qed.

Lemma skipWs_key (ws k s : jsstring) :
  forallb isJsonWs ws = true ->
  exists t, skipWs (ws ++ quote k ++ s) = 34 :: t.
Proof.
  intros H. rewrite (skipWs_app _ _ H), quote_app, skipWs_head by reflexivity.
  eauto.
Qed.

Lemma serialize_array_app (indent : jsstring) x xs (rest : jsstring) :
  serialize indent (JArr (x :: xs)) ++ rest
  = 91 :: (10 :: indent ++ gap) ++ serialize (indent ++ gap) x
      ++ itemsTail (serialize (indent ++ gap)) indent (indent ++ gap) xs ++ rest.
Proof. cbn [serialize app]. cbv zeta. rewrite <- !app_assoc. reflexivity. Qed.

Lemma serialize_object_app (indent : jsstring) k x ms (rest : jsstring) :
  serialize indent (JObj ((k, x) :: ms)) ++ rest
  = 123 :: (10 :: indent ++ gap) ++ quote k ++ 58 :: 32 :: serialize (indent ++ gap) x
      ++ membersTail (serialize (indent ++ gap)) indent (indent ++ gap) ms ++ rest.
Proof.
  cbn [serialize app]. cbv zeta. rewrite <- !app_assoc. cbn [app].
  rewrite <- !app_assoc. reflexivity.
Qed.

Lemma membersTail_cons' ser (indent indent' : jsstring) k y l (rest : jsstring) :
  membersTail ser indent indent' ((k, y) :: l) ++ rest
  = 44 :: (10 :: indent') ++ quote k ++ 58 :: 32 :: ser y
    ++ membersTail ser indent indent' l ++ rest.
Proof.
  cbn [membersTail app]. rewrite <- !app_assoc. cbn [app].
  rewrite <- ?app_assoc. reflexivity.
Qed.

Lemma parseMembers_members (ms : list (jsstring * Json)) :
  Forall (fun kx => parsesBack (snd kx)) ms ->
  forall k x, parsesBack x ->
  forall (f : nat) (ws indent rest : jsstring),
    forallb isJsonWs ws = true -> forallb isJsonWs indent = true ->
    (S (weight x) + list_sum (List.map (fun ky => S (weight (snd ky))) ms) <= f)%nat ->
    parseMembers f
      (ws ++ quote k ++ 58 :: 32 :: serialize (indent ++ gap) x
          ++ membersTail (serialize (indent ++ gap)) indent (indent ++ gap) ms ++ rest)
    = Some ((k, x) :: ms, rest).
Proof.
  induction 1 as [|[k' y] l Hy Hl IH]; intros k x Hx f ws indent rest Hws Hi Hf;
    (destruct f as [|f]; [simpl in Hf; lia|]); cbn [parseMembers];
    rewrite (skipWs_app _ _ Hws), quote_app, skipWs_head by reflexivity;
    cbn [N.eqb Pos.eqb]; cbv iota;
    rewrite parseChars_quoteUnits, skipWs_head by reflexivity;
    cbn [N.eqb Pos.eqb]; cbv iota;
    rewrite parseValue_space;
    rewrite (Hx (indent ++ gap) f _ (indent_gap indent Hi)
               (membersTail_delimited _ _ _ _ _))
      by (simpl in Hf; lia).
  - rewrite membersTail_nil, (skipWs_app (10 :: indent)) by (simpl; exact Hi).
    reflexivity.
  - rewrite membersTail_cons'. rewrite skipWs_head by reflexivity.
    cbn [N.eqb Pos.eqb]. cbv iota.
    rewrite (IH k' y Hy f (10 :: indent ++ gap) indent rest
               (newline_indent _ (indent_gap indent Hi)) Hi)
      by (simpl in Hf |- *; lia).
    reflexivity.
Qed.

Lemma parseValue_serialize (v : Json) : parsesBack v.
Proof.
  induction v as [|b|n|s|l IH|ms IH] using Json_ind;
    intros indent fuel rest Hi Hr Hf;
    (destruct fuel as [|f]; [simpl in Hf; lia|]).
  - reflexivity.
  - destruct b; reflexivity.
  - apply parseValue_number, Hr.
  - apply parseValue_string.
  - destruct l as [|x xs]; [reflexivity|].
    apply Forall_cons in IH as [Hx Hxs].
    rewrite serialize_array_app. cbn [parseValue].
    rewrite skipWs_head by reflexivity. cbn [N.eqb Pos.eqb]. cbv iota.
    destruct (skipWs_value (10 :: indent ++ gap) (indent ++ gap) x
                (itemsTail (serialize (indent ++ gap)) indent (indent ++ gap) xs ++ rest)
                (newline_indent _ (indent_gap indent Hi)))
      as (c & t & -> & _ & -> & _).
    rewrite (parseElements_items xs Hxs x Hx f _ indent rest
               (newline_indent _ (indent_gap indent Hi)) Hi)
      by (simpl in Hf; lia).
    reflexivity.
  - destruct ms as [|[k x] ms]; [reflexivity|].
    apply Forall_cons in IH as [Hx Hms]. simpl in Hx.
    rewrite serialize_object_app. cbn [parseValue].
    rewrite skipWs_head by reflexivity. cbn [N.eqb Pos.eqb]. cbv iota.
    destruct (skipWs_key (10 :: indent ++ gap) k
                (58 :: 32 :: serialize (indent ++ gap) x
                   ++ membersTail (serialize (indent ++ gap)) indent (indent ++ gap) ms
                   ++ rest)
                (newline_indent _ (indent_gap indent Hi))) as (t & ->).
    cbn [N.eqb Pos.eqb]. cbv iota.
    rewrite (parseMembers_members ms Hms k x Hx f _ indent rest
               (newline_indent _ (indent_gap indent Hi)) Hi)
      by (simpl in Hf; lia).
    reflexivity.
Qed.

(** *** Fuel, and the round trip *)

Lemma itemsTail_length ser (indent indent' : jsstring) (l : list Json) :
  Forall (fun y => (weight y <= length (ser y))%nat) l ->
  (list_sum (List.map (fun y => S (weight y)) l)
   <= length (itemsTail ser indent indent' l))%nat.
Proof.
  induction 1 as [|y l Hy _ IH]; [simpl; lia|].
  unfold list_sum in *. cbn [itemsTail fold_right List.map] in *.
  repeat (cbn [length]; rewrite ?length_app). lia.
Qed.

Lemma membersTail_length ser (indent indent' : jsstring)
    (l : list (jsstring * Json)) :
  Forall (fun ky => (weight (snd ky) <= length (ser (snd ky)))%nat) l ->
  (list_sum (List.map (fun ky => S (weight (snd ky))) l)
   <= length (membersTail ser indent indent' l))%nat.
Proof.
  induction 1 as [|[k y] l Hy _ IH]; [simpl; lia|].
  unfold list_sum in *. cbn [membersTail fold_right List.map snd] in *.
  repeat (cbn [length]; rewrite ?length_app). lia.
Qed.

Lemma weight_le_length (v : Json) :
  forall indent, (weight v <= length (serialize indent v))%nat.
Proof.
  induction v as [|b|n|s|l IH|ms IH] using Json_ind; intros indent.
  - simpl. lia.
  - destruct b; simpl; lia.
  - destruct (serialize_head indent (JNum n)) as (c & t & -> & _). simpl. lia.
  - simpl. lia.
  - destruct l as [|x xs]; [simpl; lia|].
    apply Forall_cons in IH as [Hx Hxs].
    pose proof (itemsTail_length (serialize (indent ++ gap)) indent (indent ++ gap) xs
                  (Forall_impl _ _ _ Hxs (fun y Hy => Hy (indent ++ gap)))) as Ht.
    specialize (Hx (indent ++ gap)).
    cbn [serialize weight List.map]. cbv zeta. unfold list_sum in *.
    cbn [fold_right].
    repeat (cbn [length]; rewrite ?length_app). lia.
  - destruct ms as [|[k x] ms]; [simpl; lia|].
    apply Forall_cons in IH as [Hx Hms]. simpl in Hx.
    pose proof (membersTail_length (serialize (indent ++ gap)) indent (indent ++ gap) ms
                  (Forall_impl _ _ _ Hms (fun ky Hy => Hy (indent ++ gap)))) as Ht.
    specialize (Hx (indent ++ gap)).
    cbn [serialize weight List.map snd]. cbv zeta. unfold list_sum in *.
    cbn [fold_right].
    repeat (cbn [length]; rewrite ?length_app). lia.
Qed.

Lemma JSON_parse_stringify (v : Json) : JSON_parse (JSON_stringify v) = Some v.
Proof.
  unfold JSON_parse, JSON_stringify.
  rewrite <- (app_nil_r (serialize [] v)) at 2.
  rewrite (parseValue_serialize v [] _ [] eq_refl eq_refl).
  - reflexivity.
  - pose proof (weight_le_length v []). lia.
Qed.

Lemma entryOf_recordJson (r : PostRecord Json) : entryOf (recordJson r) = Some r.
Proof. destruct r. reflexivity. Qed.

(** C9.  The text [exportPosts] writes for a list of records, and the
    text [triggerJsonExport] hands to the browser, parse back to the
    array of [{uri, cid, value}] objects they were made from, each of
    which stands for the record it came from; and so does the text of
    any value. *)
Theorem export_round_trips (records : list (PostRecord Json)) :
  JSON_parse (exportPosts records) = Some (exportData records)
  /\ JSON_parse (triggerJsonExport records) = Some (exportData records)
  /\ List.map entryOf (List.map recordJson records) = List.map Some records
  /\ (forall v : Json, JSON_parse (JSON_stringify v) = Some v).
Proof.
  repeat split; try apply JSON_parse_stringify.
  rewrite List.map_map. apply List.map_ext. apply entryOf_recordJson.
Qed.
End JsonProps.

(** ** The editor's list view, export and delete *)

Module EditorViewProps.
Import JSString Post Store Projection Editor EditorView.
Import JSStringProps SortProps ProjectionProps CacheProps.

Lemma length_zero_nil {A} (l : list A) : (length l =? 0)%nat = true <-> l = [].
Proof. destruct l; simpl; split; congruence. Qed.

Lemma filter_filter_andb {A} (f g : A -> bool) (l : list A) :
  List.filter g (List.filter f l) = List.filter (fun x => f x && g x) l.
Proof.
  induction l as [|x l IH]; simpl; [reflexivity|].
  destruct (f x); simpl; [destruct (g x)|]; rewrite ?IH; reflexivity.
Qed.

Lemma filter_true {A} (l : list A) : List.filter (fun _ => true) l = l.
Proof. induction l as [|x l IH]; simpl; congruence. Qed.

Section View.
Variable toLowerCase : jsstring -> jsstring.
Variable parseDate : jsstring -> option Z.

(** The projection sorts the posts that pass both filters. *)
Lemma projection_filter posts searchTerm category sortOrder :
  getFilteredAndSortedPosts toLowerCase parseDate posts searchTerm category sortOrder
  = sortBy (sortCompareFn parseDate sortOrder)
      (List.filter (passesFilters toLowerCase searchTerm category) posts).
Proof.
  unfold getFilteredAndSortedPosts, passesFilters. f_equal.
  destruct (nonEmpty category), (nonEmpty searchTerm);
    try destruct (JSString.eqb category (u16 "Recommended"));
    rewrite ?filter_filter_andb; simpl;
    try reflexivity;
    try (apply List.filter_ext; intros; now rewrite ?andb_true_r);
    symmetry; apply filter_true.
Qed.

(** X3.  [getFilteredAndSortedPosts] returns exactly the posts of the
    cache that pass the category filter and the search filter, each as
    often as the cache has it, and posts that the comparator ranks equal
    (the same date, or both unparseable) keep the order of the cache. *)
Theorem projection_keeps_matching_posts posts searchTerm category sortOrder :
  let out := getFilteredAndSortedPosts toLowerCase parseDate posts searchTerm
               category sortOrder in
  let matching := List.filter (passesFilters toLowerCase searchTerm category) posts in
  Permutation out matching
  /\ (forall p, In p out <-> In p posts /\ passesFilters toLowerCase searchTerm category p = true)
  /\ (forall z, List.filter (sameRank (sortCompareFn parseDate sortOrder) z) out
                = List.filter (sameRank (sortCompareFn parseDate sortOrder) z) matching).
Proof.
  cbv zeta. rewrite projection_filter. split; [|split].
  - apply sortBy_Permutation.
  - intros p. rewrite <- filter_In. split; intros H.
    + eapply Permutation_in; [apply sortBy_Permutation|exact H].
    + eapply Permutation_in; [symmetry; apply sortBy_Permutation|exact H].
  - intros z. apply sortBy_stable. apply sortCompareFn_trans.
Qed.

Lemma passesFilters_none (p : record) : passesFilters toLowerCase [] [] p = true.
Proof. reflexivity. Qed.

Lemma projection_unfiltered posts sortOrder :
  Permutation
    (getFilteredAndSortedPosts toLowerCase parseDate posts [] [] sortOrder) posts.
Proof.
  rewrite projection_filter.
  etransitivity; [apply sortBy_Permutation|].
  rewrite (List.filter_ext _ (fun _ => true) passesFilters_none), filter_true.
  reflexivity.
Qed.

(** X4.  [renderPostList] shows the items of the posts that pass the
    filters whenever there is one; the message that nothing matches
    appears only for a cache that has posts none of which passes, and
    so never while no search term and no category is set; and the three
    messages of an empty cache tell a load in flight, a collection known
    to be empty, and the rest apart. *)
Theorem renderPostList_shows_matching_posts (st : State) :
  let cache := fetchedPostsCache st in
  let matching :=
    List.filter (passesFilters toLowerCase (searchTerm st) (filterCategory st)) cache in
  match renderPostList toLowerCase parseDate st with
  | ListItems l =>
      l <> [] /\ Permutation l matching
      /\ l = getFilteredAndSortedPosts toLowerCase parseDate cache
               (searchTerm st) (filterCategory st) (sortOrder st)
  | ListMessage m =>
      (cache = [] /\
       m = if isLoadingMore st then loadingMessage
           else if allPostsLoaded st then noPostsYetMessage
           else noPostsFoundMessage)
      \/ (cache <> [] /\ matching = [] /\ m = noMatchMessage
          /\ (searchTerm st <> [] \/ filterCategory st <> []))
  end.
Proof.
  cbv zeta. unfold renderPostList.
  destruct (length (fetchedPostsCache st) =? 0)%nat eqn:E.
  - apply length_zero_nil in E.
    destruct (isLoadingMore st); [|destruct (allPostsLoaded st)]; left; auto.
  - assert (Hc : fetchedPostsCache st <> []).
    { intros H. apply length_zero_nil in H. congruence. }
    pose proof (projection_keeps_matching_posts (fetchedPostsCache st)
                  (searchTerm st) (filterCategory st) (sortOrder st)) as [HP _].
    cbv zeta in HP.
    destruct (length (getFilteredAndSortedPosts _ _ _ _ _ _) =? 0)%nat eqn:E2.
    + right. apply length_zero_nil in E2. rewrite E2 in HP.
      apply Permutation_nil in HP.
      repeat split; auto.
      destruct (searchTerm st) as [|c s] eqn:Es; [|left; discriminate].
      destruct (filterCategory st) as [|c s] eqn:Ef; [|right; discriminate].
      exfalso. apply Hc.
      rewrite (List.filter_ext _ (fun _ => true) passesFilters_none), filter_true in HP.
      exact HP.
    + repeat split; auto.
      intros H. apply length_zero_nil in H. congruence.
Qed.

(** X5.  [handleExport] exports nothing for an empty cache and otherwise
    every post of the cache once, in the comparator order of the current
    sort order; the search term and the category filter of the list view
    have no part in it. *)
Theorem handleExport_exports_whole_cache (st : State) :
  match handleExport toLowerCase parseDate st with
  | NothingToExport => fetchedPostsCache st = []
  | ExportFile l =>
      fetchedPostsCache st <> []
      /\ Permutation l (fetchedPostsCache st)
      /\ StronglySorted (cmpLe (sortCompareFn parseDate (sortOrder st))) l
  end
  /\ forall term c,
       handleExport toLowerCase parseDate
         (handleSearchChange term (handleFilterChange c st))
       = handleExport toLowerCase parseDate st.
Proof.
  split; [|reflexivity].
  unfold handleExport.
  destruct (length (fetchedPostsCache st) =? 0)%nat eqn:E.
  - now apply length_zero_nil.
  - split; [|split].
    + intros H. apply length_zero_nil in H. congruence.
    + apply projection_unfiltered.
    + apply projection_sorted.
Qed.

End View.

Lemma setIsLoadingMore_undo (st : State) :
  isLoadingMore st = false -> setIsLoadingMore false (setIsLoadingMore true st) = st.
Proof. destruct st; simpl. intros ->. reflexivity. Qed.

Section Batches.
Variable Store : Type.
Variable listRecords : Store -> ListRequest -> ListResponse * Store.

Abbreviation handleLoadMore' := (handleLoadMore Store listRecords) (only parsing).
Abbreviation fetchAndAppendPosts' := (fetchAndAppendPosts Store listRecords) (only parsing).
Abbreviation loadInitialData' := (loadInitialData Store listRecords) (only parsing).

(** X6.  The Load More button tells what a click does.  It is hidden
    exactly when all posts are loaded; when [updateLoadMoreButton] leaves
    it disabled, [handleLoadMore] changes nothing and asks the store
    nothing; when it leaves it enabled, [handleLoadMore] of a logged-in
    editor asks the store for one page of [POSTS_PER_PAGE] records at
    the kept cursor. *)
Theorem load_more_button_tells_what_a_click_does
    (st : State) (button : Button) (w : World Store) :
  hidden (updateLoadMoreButton st button) = allPostsLoaded st
  /\ (disabled (updateLoadMoreButton st button) = true ->
      handleLoadMore' st w = (st, w))
  /\ (disabled (updateLoadMoreButton st button) = false ->
      loggedIn st = true ->
      exists resp,
        exchanges (snd (handleLoadMore' st w))
        = exchanges w ++ [(mkRequest POSTS_PER_PAGE (cursor st), resp)]).
Proof.
  unfold updateLoadMoreButton. simpl. split; [|split].
  - now rewrite negb_involutive.
  - intros H. unfold handleLoadMore.
    destruct (allPostsLoaded st), (isLoadingMore st); simpl in *;
      try reflexivity; discriminate.
  - intros H Hin.
    destruct (allPostsLoaded st) eqn:E1, (isLoadingMore st) eqn:E2;
      simpl in H; try discriminate.
    unfold handleLoadMore, fetchAndAppendPosts, fetchBlogPostsBatch.
    rewrite E1, E2. simpl. rewrite Hin. simpl.
    destruct (listRecords (store w) (mkRequest POSTS_PER_PAGE (cursor st)))
      as [resp s1] eqn:El.
    unfold call. rewrite El. exists resp. destruct resp; reflexivity.
Qed.

(** X7.  A batch that fails leaves the editor's state as it was: when
    the editor is not logged in (no request is made then), or the store
    answers the request with a failure, [fetchAndAppendPosts] returns the
    very state it was called in, with the posts, the cursor, the
    categories and the flags of before. *)
Theorem failed_batch_keeps_the_state (st : State) (w : World Store)
    (cur : option jsstring) :
  isLoadingMore st = false ->
  (loggedIn st = false
   \/ isFailure (fst (listRecords (store w) (mkRequest POSTS_PER_PAGE cur))) = true) ->
  fst (fetchAndAppendPosts' st w cur) = st
  /\ (loggedIn st = false -> snd (fetchAndAppendPosts' st w cur) = w).
Proof.
  intros Hl Hf. unfold fetchAndAppendPosts, fetchBlogPostsBatch. rewrite Hl.
  unfold fetchAndAppendPosts_pending. simpl.
  destruct (loggedIn st) eqn:E; simpl.
  - destruct Hf as [Hf|Hf]; [discriminate|].
    unfold call.
    destruct (listRecords (store w) (mkRequest POSTS_PER_PAGE cur)) as [resp s1].
    simpl in Hf. split; [|discriminate].
    destruct resp; try discriminate; simpl;
      unfold fetchAndAppendPosts_settle; apply setIsLoadingMore_undo, Hl.
  - split; [|reflexivity].
    unfold fetchAndAppendPosts_settle. apply setIsLoadingMore_undo, Hl.
Qed.

Lemma appendPosts_nil {V} (batch : list (PostRecord V)) : appendPosts [] batch = batch.
Proof.
  unfold appendPosts. simpl.
  induction batch as [|p b IH]; simpl; [reflexivity|].
  rewrite bool_decide_eq_false_2 by set_solver. simpl. congruence.
Qed.

(** X8.  [loadInitialData] starts over: whatever the cache held, after
    it the cache holds the records of the one page it asked for (from
    the start of the collection, [POSTS_PER_PAGE] records), and nothing
    when the request failed or the editor is not logged in; the search
    term, the category filter and the sort order stay, and no load is
    left in flight. *)
Theorem loadInitialData_holds_the_first_page (st : State) (w : World Store) :
  let st' := fst (loadInitialData' st w) in
  let w' := snd (loadInitialData' st w) in
  exists tr,
    exchanges w' = exchanges w ++ tr
    /\ fetchedPostsCache st' = pageRecords tr
    /\ (tr = [] /\ loggedIn st = false
        \/ exists resp, tr = [(mkRequest POSTS_PER_PAGE None, resp)]
                        /\ loggedIn st = true
                        /\ (isFailure resp = true ->
                            cursor st' = None /\ allPostsLoaded st' = false))
    /\ isLoadingMore st' = false
    /\ searchTerm st' = searchTerm st
    /\ filterCategory st' = filterCategory st
    /\ sortOrder st' = sortOrder st.
Proof.
  cbv zeta. unfold loadInitialData, fetchAndAppendPosts, fetchBlogPostsBatch.
  simpl. destruct (loggedIn st) eqn:E; simpl.
  - unfold call.
    destruct (listRecords (store w) (mkRequest POSTS_PER_PAGE None)) as [resp s1].
    exists [(mkRequest POSTS_PER_PAGE None, resp)].
    destruct resp as [recs c|status text body|m]; simpl.
    + split; [reflexivity|]. split.
      * destruct (negb (truthy c) || _); simpl;
          rewrite appendPosts_nil, app_nil_r; destruct recs; reflexivity.
      * split; [right; eexists; repeat split; discriminate|].
        destruct (negb (truthy c) || _); repeat split.
    + repeat split. right. eexists. repeat split.
    + repeat split. right. eexists. repeat split.
  - exists []. rewrite app_nil_r. repeat split. left. split; reflexivity.
Qed.

(** X9.  One entry per [uri], through everything the editor does.  When
    no page of the store repeats a [uri] and every created record comes
    with a [uri] that is not in the cache, a cache with one entry per
    [uri] has one entry per [uri] after any sequence of logins, logouts,
    loads, saves, deletes and changes of the list controls. *)
Theorem editor_keeps_one_entry_per_uri
    (sw : State * World Store) (actions : list Action) :
  (forall s req recs c,
     fst (listRecords s req) = RespOk (Some recs) c -> NoDup (List.map uri recs)) ->
  freshCreates Store listRecords sw actions ->
  NoDup (List.map uri (fetchedPostsCache (fst sw))) ->
  NoDup (List.map uri (fetchedPostsCache (fst (run Store listRecords sw actions)))).
Proof.
  intros Hstore. revert sw.
  assert (Hfetch : forall st w cur,
             NoDup (List.map uri (fetchedPostsCache st)) ->
             NoDup (List.map uri
                      (fetchedPostsCache (fst (fetchAndAppendPosts' st w cur))))).
  { intros st w cur Hn. unfold fetchAndAppendPosts, fetchBlogPostsBatch.
    destruct (isLoadingMore st); [exact Hn|]. simpl.
    destruct (loggedIn st); simpl; [|exact Hn].
    unfold call.
    destruct (listRecords (store w) (mkRequest POSTS_PER_PAGE cur))
      as [resp s1] eqn:El.
    destruct resp as [recs c|status text body|m]; simpl; try exact Hn.
    assert (Hb : NoDup (List.map uri (default [] recs))).
    { destruct recs as [recs|]; [|apply NoDup_nil_2].
      apply (Hstore (store w) (mkRequest POSTS_PER_PAGE cur) recs c).
      now rewrite El. }
    destruct (negb (truthy c) || _); simpl; now apply appendPosts_NoDup. }
  induction actions as [|a rest IH]; intros [st w] Hfresh Hn; [exact Hn|].
  simpl in Hfresh. destruct Hfresh as [Hf Hrest].
  simpl. apply IH; [exact Hrest|].
  destruct a; simpl in *; try exact Hn.
  - apply Hfetch. apply NoDup_nil_2.
  - apply NoDup_nil_2.
  - apply Hfetch. apply NoDup_nil_2.
  - unfold handleLoadMore.
    destruct (allPostsLoaded st || isLoadingMore st); [exact Hn|]. now apply Hfetch.
  - destruct (truthy rkey) eqn:Er.
    + unfold replacePost. rewrite List.map_map.
      erewrite List.map_ext; [exact Hn|].
      intros p. simpl. destruct (JSString.eqb (uri p) (uri newRecord)) eqn:Ee;
        [apply eqb_eq in Ee; congruence | reflexivity].
    + simpl. apply NoDup_cons. split; [|exact Hn].
      intros Hin. apply (Hf eq_refl). now apply list_elem_of_In.
  - apply NoDup_uri_filter, Hn.
Qed.

Lemma step_logged_out (st : State) (w : World Store) (a : Action) :
  loggedIn st = false -> a <> Login ->
  loggedIn (fst (step Store listRecords (st, w) a)) = false
  /\ snd (step Store listRecords (st, w) a) = w.
Proof using Type.
  intros Hl Ha. destruct a; try contradiction; cbn [step fst snd];
    try (split; [exact Hl|reflexivity]).
  - split; reflexivity.
  - unfold loadInitialData, fetchAndAppendPosts, fetchBlogPostsBatch.
    cbn. rewrite Hl. split; [exact Hl|reflexivity].
  - unfold handleLoadMore, fetchAndAppendPosts, fetchBlogPostsBatch.
    destruct (allPostsLoaded st || isLoadingMore st);
      [split; [exact Hl|reflexivity]|].
    destruct (isLoadingMore st); [split; [exact Hl|reflexivity]|].
    cbn. rewrite Hl. split; [exact Hl|reflexivity].
Qed.

Lemma run_logged_out (actions : list Action) :
  ~ In Login actions ->
  forall (st : State) (w : World Store),
    loggedIn st = false ->
    loggedIn (fst (run Store listRecords (st, w) actions)) = false
    /\ snd (run Store listRecords (st, w) actions) = w.
Proof using Type.
  unfold run. induction actions as [|a actions IH]; intros Hn st w Hl;
    [split; [exact Hl|reflexivity]|].
  cbn [fold_left].
  destruct (step_logged_out st w a Hl) as [H1 H2];
    [intros ->; apply Hn; now left|].
  destruct (step Store listRecords (st, w) a) as [st1 w1]. simpl in H1, H2.
  subst w1. apply IH; [|exact H1]. intros H. apply Hn. now right.
Qed.

(** X10.  Logged out, the editor asks the store nothing.  [handleLogout]
    puts the state back to the initial one, whatever it was; and
    whatever is done after it short of a new login (load more, reload,
    search, filter, sort, the cache updates of a save or a delete), the
    editor stays logged out and the store and the log of its exchanges
    are the ones of the logout. *)
Theorem logged_out_editor_asks_the_store_nothing
    (st : State) (w : World Store) (actions : list Action) :
  ~ In Login actions ->
  let after := run Store listRecords (handleLogout st, w) actions in
  handleLogout st = initialState
  /\ loggedIn (fst after) = false
  /\ snd after = w.
Proof using Type.
  intros Hn. cbv zeta. split; [reflexivity|].
  now apply run_logged_out.
Qed.

End Batches.

(** X11.  [handleDeletePost] changes the cache only when the user
    confirmed and the store deleted the record.  Then no entry with the
    deleted [uri] is left, the other entries stay in their order, the
    posts count as not all loaded (the Load More button comes back), and
    the set of categories is the one of before, also when the deleted
    post was the only one of its category. *)
Theorem handleDeletePost_removes_that_post_only
    (u : jsstring) (confirmed : bool) (failure : option jsstring) (st : State) :
  let st' := handleDeletePost u confirmed failure st in
  (confirmed = false \/ failure <> None -> st' = st)
  /\ (confirmed = true -> failure = None ->
      (forall p, In p (fetchedPostsCache st') <->
                 In p (fetchedPostsCache st) /\ uri p <> u)
      /\ sublist (fetchedPostsCache st') (fetchedPostsCache st)
      /\ allPostsLoaded st' = false
      /\ uniqueCategories st' = uniqueCategories st
      /\ cursor st' = cursor st).
Proof.
  cbv zeta. unfold handleDeletePost. split.
  - intros [->| H]; [reflexivity|].
    destruct confirmed; [|reflexivity]. destruct failure; [reflexivity|congruence].
  - intros -> ->. simpl. split; [|split].
    + intros p. rewrite filter_In. rewrite negb_true_iff, eqb_neq. reflexivity.
    + apply sublist_filter_stdlib.
    + repeat split.
Qed.

Lemma logged_out_editor_asks_the_store_nothing_witness :
  let a := undatedPost "at://did:plc:x/app.blog.post/1" in
  let st := setFetchedPostsCache [a] (setLoggedIn true initialState) in
  let w := mkWorld tt [] in
  snd (run unit (onePage [a]) (handleLogout st, w)
         [LoadMore; LoadInitialData; SearchChange (u16 "x"); LoadMore]) = w.
Proof.
  refine (proj2 (proj2 (logged_out_editor_asks_the_store_nothing unit
    (onePage [undatedPost "at://did:plc:x/app.blog.post/1"])
    (setFetchedPostsCache [undatedPost "at://did:plc:x/app.blog.post/1"]
       (setLoggedIn true initialState))
    (mkWorld tt [])
    [LoadMore; LoadInitialData; SearchChange (u16 "x"); LoadMore] _))).
  intros H. repeat (destruct H as [H|H]; [discriminate|]). exact H.
Defined.

Lemma failed_batch_keeps_the_state_witness :
  let a := undatedPost "at://did:plc:x/app.blog.post/1" in
  let st := setCursor (Some (u16 "c1"))
              (setFetchedPostsCache [a] (setLoggedIn true initialState)) in
  let w := mkWorld [RespStatus 500 (u16 "Internal Server Error") None] [] in
  fst (fetchAndAppendPosts _ scripted st w (cursor st)) = st.
Proof.
  exact (proj1 (failed_batch_keeps_the_state _ scripted
    (setCursor (Some (u16 "c1"))
       (setFetchedPostsCache [undatedPost "at://did:plc:x/app.blog.post/1"]
          (setLoggedIn true initialState)))
    (mkWorld [RespStatus 500 (u16 "Internal Server Error") None] [])
    (Some (u16 "c1")) eq_refl (or_intror eq_refl))).
Defined.

Lemma editor_keeps_one_entry_per_uri_witness :
  let a := undatedPost "at://did:plc:x/app.blog.post/1" in
  let b := undatedPost "at://did:plc:x/app.blog.post/2" in
  let n := undatedPost "at://did:plc:x/app.blog.post/9" in
  NoDup (List.map uri
    (fetchedPostsCache
       (fst (run unit (onePage [a; b]) (initialState, mkWorld tt [])
               [Login; Saved None n; LoadMore; Saved (Some (u16 "2")) b;
                Deleted (uri a); LoadInitialData])))).
Proof.
  apply (editor_keeps_one_entry_per_uri unit
           (onePage [undatedPost "at://did:plc:x/app.blog.post/1";
                     undatedPost "at://did:plc:x/app.blog.post/2"])
           (initialState, mkWorld tt [])).
  - intros s req recs c H. injection H as <- <-. compute_done.
  - vm_compute. repeat split; try discriminate.
    intros _ H. repeat (destruct H as [H|H]; [discriminate|]). exact H.
  - apply NoDup_nil_2.
Defined.

Lemma handleDeletePost_removes_that_post_only_witness :
  let a := undatedPost "at://did:plc:x/app.blog.post/1" in
  let b := undatedPost "at://did:plc:x/app.blog.post/2" in
  let st := setFetchedPostsCache [a; b] (setAllPostsLoaded true initialState) in
  let st' := handleDeletePost (uri a) true None st in
  fetchedPostsCache st' = [b] /\ allPostsLoaded st' = false
  /\ sublist (fetchedPostsCache st') (fetchedPostsCache st).
Proof.
  cbv zeta. split; [reflexivity|]. split; [reflexivity|].
  exact (proj1 (proj2 (proj2 (handleDeletePost_removes_that_post_only
    (uri (undatedPost "at://did:plc:x/app.blog.post/1")) true None
    (setFetchedPostsCache
       [undatedPost "at://did:plc:x/app.blog.post/1";
        undatedPost "at://did:plc:x/app.blog.post/2"]
       (setAllPostsLoaded true initialState))) eq_refl eq_refl))).
Defined.

End EditorViewProps.

(** ** Handles and DIDs *)

Module ValidateProps.
Import JSString Validate JSStringProps.

Lemma dropPrefix_Some (p s r : jsstring) : dropPrefix p s = Some r <-> s = p ++ r.
Proof.
  revert s. induction p as [|a p IH]; intros s; simpl.
  - split; congruence.
  - destruct s as [|b s]; [split; discriminate|].
    destruct (a =? b) eqn:E.
    + apply N.eqb_eq in E. subst b. rewrite IH. split; congruence.
    + apply N.eqb_neq in E. split; [discriminate|congruence].
Qed.

Lemma startsWith_nil (s : jsstring) : startsWith s [] = true.
Proof. now destruct s. Qed.

Lemma startsWith_app (p r : jsstring) : startsWith (p ++ r) p = true.
Proof. induction p as [|a p IH]; simpl; [now destruct r|]. now rewrite N.eqb_refl. Qed.

Lemma startsWith_one (c : N) (s : jsstring) :
  startsWith s [c] = headIs (N.eqb c) s.
Proof.
  destruct s as [|b s]; simpl; [reflexivity|].
  destruct s; now rewrite andb_true_r.
Qed.

Lemma lastIs_snoc P (s : jsstring) (x : N) : lastIs P (s ++ [x]) = P x.
Proof.
  induction s as [|c s IH]; simpl; [reflexivity|].
  destruct (s ++ [x]) eqn:E; [now destruct s|exact IH].
Qed.

Lemma endsWith_one (c : N) (s : jsstring) :
  endsWith s [c] = lastIs (N.eqb c) s.
Proof.
  unfold endsWith. destruct s as [|b s] using rev_ind; [reflexivity|].
  rewrite rev_app_distr, lastIs_snoc. apply startsWith_one.
Qed.

Lemma lastIs_cons P (c d : N) (s : jsstring) : lastIs P (c :: d :: s) = lastIs P (d :: s).
Proof. reflexivity. Qed.

Lemma lastIs_forallb (P Q : N -> bool) (s : jsstring) :
  forallb P s = true -> lastIs Q s = true -> exists c, In c s /\ P c = true /\ Q c = true.
Proof.
  induction s as [|c s IH]; [discriminate|].
  intros H HQ. simpl in H. apply andb_true_iff in H as [H1 H2].
  destruct s as [|d s].
  - exists c. simpl in HQ. repeat split; auto. now left.
  - rewrite lastIs_cons in HQ. destruct (IH H2 HQ) as (x & Hx & ? & ?).
    exists x. repeat split; auto. now right.
Qed.

Lemma lastIs_weaken (P Q : N -> bool) (s : jsstring) :
  (forall c, In c s -> P c = true -> Q c = true) -> lastIs P s = true -> lastIs Q s = true.
Proof.
  induction s as [|c s IH]; [auto|]. intros H HP.
  destruct s as [|d s].
  - simpl in *. apply H; auto.
  - rewrite lastIs_cons in *. apply IH; [|exact HP].
    intros x Hx. apply H. now right.
Qed.

Lemma lastIs_negb (P : N -> bool) (s : jsstring) :
  s <> [] -> lastIs P s = false -> lastIs (fun c => negb (P c)) s = true.
Proof.
  induction s as [|c s IH]; [congruence|]. intros _ H.
  destruct s as [|d s].
  - simpl in *. now rewrite H.
  - rewrite lastIs_cons in *. apply IH; [discriminate|exact H].
Qed.

Lemma split_nonnil (sep : N) (s : jsstring) : split sep s <> [].
Proof.
  destruct s as [|c s]; simpl; [discriminate|].
  destruct (c =? sep); [discriminate|]. destruct (split sep s); discriminate.
Qed.

(** Without two separators in a row and without one at the end, every
    piece after the first is non-empty, and the first is empty exactly
    when the string starts with the separator. *)
Lemma split_pieces (sep : N) (s : jsstring) :
  s <> [] -> includes s [sep; sep] = false -> lastIs (N.eqb sep) s = false ->
  Forall (fun l => l <> []) (List.tl (split sep s))
  /\ (headIs (N.eqb sep) s = false -> List.hd [] (split sep s) <> []).
Proof.
  induction s as [|c s IH]; [congruence|]. intros _ Hi Hl.
  simpl in Hi. apply orb_false_iff in Hi as [Hs Hi].
  destruct s as [|d s].
  - simpl in *. rewrite N.eqb_sym in Hl. rewrite Hl. simpl.
    split; [constructor|discriminate].
  - rewrite lastIs_cons in Hl.
    destruct (IH ltac:(discriminate) Hi Hl) as [IH1 IH2].
    pose proof (split_nonnil sep (d :: s)) as Hn.
    assert (Hsplit : split sep (c :: d :: s)
                     = if c =? sep then [] :: split sep (d :: s)
                       else match split sep (d :: s) with
                            | p :: ps => (c :: p) :: ps
                            | [] => [[c]]
                            end) by reflexivity.
    rewrite Hsplit. clear Hsplit.
    assert (Hh : headIs (N.eqb sep) (d :: s) = (sep =? d)) by reflexivity.
    rewrite Hh in IH2. clear Hh.
    remember (split sep (d :: s)) as sp eqn:Esp. clear Esp.
    destruct sp as [|p ps]; [congruence|].
    simpl in IH1, IH2.
    destruct (c =? sep) eqn:E.
    + apply N.eqb_eq in E. subst c.
      assert (Hd : (sep =? d) = false).
      { simpl in Hs. rewrite N.eqb_refl, startsWith_nil, andb_true_r in Hs.
        exact Hs. }
      split; [|simpl; rewrite N.eqb_refl; discriminate].
      simpl. constructor; [apply IH2, Hd | exact IH1].
    + simpl. split; [exact IH1|discriminate].
Qed.

Lemma split_chars (P : N -> bool) (sep : N) (s : jsstring) :
  forallb P s = true ->
  Forall (fun l => forallb (fun c => P c && negb (c =? sep)) l = true) (split sep s).
Proof.
  induction s as [|c s IH]; simpl; intros H; [repeat constructor|].
  apply andb_true_iff in H as [H1 H2]. specialize (IH H2).
  destruct (c =? sep) eqn:E; [constructor; auto|].
  destruct (split sep s) as [|p ps]; [repeat constructor; simpl; now rewrite H1, E|].
  inversion IH; subst. constructor; [|assumption].
  simpl. now rewrite H1, E.
Qed.

Lemma split_two (sep : N) (s : jsstring) :
  includes s [sep] = true -> (2 <= length (split sep s))%nat.
Proof.
  induction s as [|c s IH]; [discriminate|]. intros H.
  simpl in H. simpl split. destruct (c =? sep) eqn:E.
  - pose proof (split_nonnil sep s). destruct (split sep s); [congruence|simpl; lia].
  - rewrite N.eqb_sym, E in H. simpl in H. specialize (IH H).
    destruct (split sep s); simpl in *; lia.
Qed.

Lemma lastIs_app P (p t : jsstring) : t <> [] -> lastIs P (p ++ t) = lastIs P t.
Proof.
  intros Ht. induction p as [|c p IH]; [reflexivity|].
  simpl app. destruct (p ++ t) eqn:E; [destruct p, t; simpl in E; congruence|].
  rewrite lastIs_cons. exact IH.
Qed.

Lemma didTail_shape (prefix t : jsstring) :
  forallb isDidChar prefix = true -> didTail t = true ->
  forallb isDidChar (prefix ++ t) = true /\ lastIs isAlnum (prefix ++ t) = true
  /\ (length prefix + 1 <= length (prefix ++ t))%nat.
Proof.
  unfold didTail. intros Hp Ht. apply andb_true_iff in Ht as [H1 H2].
  assert (Hn : t <> []) by (intros ->; discriminate).
  rewrite forallb_app, Hp, H1, lastIs_app, length_app by exact Hn.
  repeat split; auto. destruct t; [congruence|simpl; lia].
Qed.

Lemma valid_DID_is_no_handle (did : jsstring) :
  isValidDID did = true -> isValidHandle did = false.
Proof.
  unfold isValidDID. intros H.
  destruct (dropPrefix (u16 "did:") did) as [r|] eqn:E1; [|discriminate].
  apply dropPrefix_Some in E1. subst did.
  unfold isValidHandle. destruct (_ || _); [reflexivity|].
  replace (forallb isHandleChar (u16 "did:" ++ r)) with false
    by (rewrite forallb_app; reflexivity).
  now rewrite andb_false_r.
Qed.

(** X12.  What [isValidDID] accepts: a string that starts with
    [did:plc:] or [did:web:], has at least one more character, consists
    of characters of [[A-Za-z0-9._:%-]] only (so none that HTML or a URL
    query gives a meaning to) and ends with a letter or a digit.  No
    such string is a handle for [isValidHandle]. *)
Theorem isValidDID_shape (did : jsstring) :
  isValidDID did = true ->
  (startsWith did (u16 "did:plc:") = true \/ startsWith did (u16 "did:web:") = true)
  /\ forallb isDidChar did = true
  /\ lastIs isAlnum did = true
  /\ (9 <= length did)%nat
  /\ isValidHandle did = false.
Proof.
  intros H. pose proof (valid_DID_is_no_handle did H) as Hh.
  unfold isValidDID in H.
  destruct (dropPrefix (u16 "did:") did) as [r|] eqn:E1; [|discriminate].
  apply dropPrefix_Some in E1. subst did.
  destruct (dropPrefix (u16 "plc:") r) as [t|] eqn:E2.
  - apply dropPrefix_Some in E2. subst r.
    destruct (didTail_shape (u16 "did:plc:") t eq_refl H) as (A & B & C).
    change (u16 "did:" ++ u16 "plc:" ++ t) with (u16 "did:plc:" ++ t) in *.
    repeat split; auto. left. apply startsWith_app.
  - destruct (dropPrefix (u16 "web:") r) as [t|] eqn:E3; [|discriminate].
    apply dropPrefix_Some in E3. subst r.
    destruct (didTail_shape (u16 "did:web:") t eq_refl H) as (A & B & C).
    change (u16 "did:" ++ u16 "web:" ++ t) with (u16 "did:web:" ++ t) in *.
    repeat split; auto. right. apply startsWith_app.
Qed.

(** X13.  What [isValidHandle] accepts: 3 to 256 characters that split
    at the dots into at least two labels, every label non-empty and made
    of letters, digits and hyphens, the last label at least two
    characters long, the first and the last character of the handle a
    letter or a digit. *)
Theorem isValidHandle_labels (handle : jsstring) :
  isValidHandle handle = true ->
  let labels := split dot handle in
  (3 <= length handle <= 256)%nat
  /\ (2 <= length labels)%nat
  /\ Forall (fun l => l <> []
                      /\ forallb (fun c => isAlnum c || isHyphen c) l = true) labels
  /\ (2 <= length (List.last labels []))%nat
  /\ headIs isAlnum handle = true
  /\ lastIs isAlnum handle = true.
Proof.
  unfold isValidHandle. intros H.
  destruct ((length handle <? 3)%nat || (256 <? length handle)%nat) eqn:E1;
    [discriminate|].
  apply orb_false_iff in E1 as [L1 L2].
  apply Nat.ltb_ge in L1, L2.
  destruct (nonEmpty handle && forallb isHandleChar handle) eqn:E2;
    [|discriminate]. simpl in H.
  apply andb_true_iff in E2 as [N1 C1].
  destruct (includes handle (u16 "..") || _ || _ || _ || _) eqn:E3;
    [discriminate|].
  apply orb_false_iff in E3 as [E3 Eh]. apply orb_false_iff in E3 as [E3 Sh].
  apply orb_false_iff in E3 as [E3 Ed]. apply orb_false_iff in E3 as [Ei Sd].
  destruct (includes handle (u16 ".")) eqn:E4; [|discriminate]. simpl in H.
  destruct (length (List.last (split dot handle) []) <? 2)%nat eqn:E5;
    [discriminate|]. apply Nat.ltb_ge in E5.
  change (u16 ".") with [dot] in *. change (u16 "-") with [hyphen] in *.
  change (u16 "..") with [dot; dot] in *.
  rewrite startsWith_one in *. rewrite endsWith_one in *.
  assert (Hne : handle <> []) by (intros ->; discriminate).
  cbv zeta. split; [lia|]. split; [now apply split_two|].
  split; [|split; [exact E5|split]].
  - destruct (split_pieces dot handle Hne) as [T1 T2]; auto.
    pose proof (split_chars isHandleChar dot handle C1) as T3.
    pose proof (split_nonnil dot handle) as T4.
    destruct (split dot handle) as [|l0 ls]; [congruence|].
    simpl in T1, T2. specialize (T2 ltac:(assumption)).
    assert (T5 : Forall (fun l => l <> []) (l0 :: ls)) by (constructor; auto).
    apply List.Forall_forall. intros l Hl.
    rewrite List.Forall_forall in T3, T5. split; [apply T5, Hl|].
    eapply SlugProps.forallb_weaken; [|apply T3, Hl].
    intros c Hc. unfold isHandleChar in Hc.
    destruct (isAlnum c), (isHyphen c), (c =? dot); simpl in *; congruence.
  - destruct handle as [|c s]; [congruence|].
    change (isHandleChar c && forallb isHandleChar s = true) in C1.
    apply andb_true_iff in C1 as [C1 _].
    change ((dot =? c) = false) in Sd. change ((hyphen =? c) = false) in Sh.
    change (isAlnum c = true).
    unfold isHandleChar, isHyphen in C1.
    rewrite (N.eqb_sym c dot), (N.eqb_sym c hyphen), Sd, Sh in C1.
    now rewrite !orb_false_r in C1.
  - eapply lastIs_weaken;
      [|apply (lastIs_negb (fun c => (dot =? c) || (hyphen =? c)) handle Hne)].
    + intros c Hc Hn. rewrite forallb_forall in C1. specialize (C1 c Hc).
      unfold isHandleChar, isHyphen in C1.
      rewrite (N.eqb_sym c dot), (N.eqb_sym c hyphen) in C1.
      cbv beta in Hn. apply negb_true_iff, orb_false_iff in Hn as [Hn1 Hn2].
      rewrite Hn1, Hn2 in C1. now rewrite !orb_false_r in C1.
    + clear -Ed Eh Hne. induction handle as [|c s IH]; [congruence|].
      destruct s as [|d s]; [simpl in *; now rewrite Ed, Eh|].
      rewrite lastIs_cons in *. apply IH; auto; discriminate.
Qed.

Lemma truthy_default (o : option jsstring) :
  truthy o = true -> o = Some (default [] o).
Proof. destruct o; [reflexivity|discriminate]. Qed.

(** X14.  The reader goes nowhere with an identifier its validators
    refuse.  [handleRouteChange] opens the post view or the list view
    only for a [DID] parameter that [isValidDID] accepts;
    [handleSearchSubmit] takes a query for a DID exactly when
    [isValidDID] accepts it and for a handle exactly when
    [isValidHandle] does (no query is both, so the order of the two
    tests decides nothing), and does nothing while a search is
    loading. *)
Theorem reader_goes_only_to_valid_targets
    (decodeURIComponent : jsstring -> option jsstring)
    (didParam viewPostSlug categoryParam : option jsstring)
    (isLoading : bool) (query : jsstring) :
  match handleRouteChange decodeURIComponent didParam viewPostSlug
          categoryParam with
  | SinglePostView did slug =>
      didParam = Some did /\ isValidDID did = true
      /\ decodeURIComponent (default [] viewPostSlug) = Some slug
  | ListView did => didParam = Some did /\ isValidDID did = true
  | SearchView | RouteThrows => True
  end
  /\ (handleSearchSubmit isLoading query = SearchDid query
      <-> isLoading = false /\ isValidDID query = true)
  /\ (handleSearchSubmit isLoading query = SearchHandle query
      <-> isLoading = false /\ isValidHandle query = true)
  /\ handleSearchSubmit true query = SearchNothing.
Proof.
  split; [|split; [|split;
    [|unfold handleSearchSubmit; now rewrite orb_true_r]]].
  - unfold handleRouteChange.
    destruct (if truthy categoryParam then _ else _); [|exact I].
    destruct (truthy didParam) eqn:Ed;
      [|now rewrite andb_false_r; simpl].
    apply truthy_default in Ed.
    destruct (isValidDID (default [] didParam)) eqn:Ev;
      [|now rewrite !andb_false_r; simpl].
    destruct (truthy viewPostSlug); simpl; [|auto].
    destruct (decodeURIComponent (default [] viewPostSlug)); auto.
  - unfold handleSearchSubmit. split.
    + destruct (negb (nonEmpty query) || isLoading) eqn:E; [discriminate|].
      apply orb_false_iff in E as [_ ->].
      destruct (isValidDID query); [auto|].
      destruct (isValidHandle query); discriminate.
    + intros [-> H]. rewrite H.
      destruct query; [discriminate|]. reflexivity.
  - unfold handleSearchSubmit. split.
    + destruct (negb (nonEmpty query) || isLoading) eqn:E; [discriminate|].
      apply orb_false_iff in E as [_ ->].
      destruct (isValidDID query); [discriminate|].
      destruct (isValidHandle query); [auto|discriminate].
    + intros [-> H].
      destruct (isValidDID query) eqn:Ev;
        [apply valid_DID_is_no_handle in Ev; congruence|].
      rewrite H. destruct query; [discriminate|]. reflexivity.
Qed.

Lemma isValidDID_shape_witness :
  let did := u16 "did:plc:xglrcj6gmrpktysohindaqhj" in
  forallb isDidChar did = true /\ isValidHandle did = false.
Proof.
  pose proof (isValidDID_shape (u16 "did:plc:xglrcj6gmrpktysohindaqhj") eq_refl)
    as (_ & H1 & _ & _ & H2).
  exact (conj H1 H2).
Defined.

Lemma isValidHandle_labels_witness :
  let handle := u16 "alice.bsky.social" in
  split dot handle = [u16 "alice"; u16 "bsky"; u16 "social"]
  /\ (2 <= length (split dot handle))%nat.
Proof.
  split; [reflexivity|].
  exact (proj1 (proj2 (isValidHandle_labels (u16 "alice.bsky.social") eq_refl))).
Defined.

End ValidateProps.

(** ** Slugs in the editor and in the command-line manager *)

Module SlugUseProps.
Import JSString Slug CliManage JSStringProps SlugProps ValidateProps.

Lemma lowerOrDigit_not_hyphen (c : N) : isLowerOrDigit c = true -> isHyphen c = false.
Proof.
  unfold isLowerOrDigit, isLowerAscii, isDigit, isHyphen, hyphen.
  intros H. apply not_true_is_false. intros W.
  bool_arith H. bool_arith W. lia.
Qed.

Lemma hyphen_not_lowerOrDigit (c : N) : isHyphen c = true -> isLowerOrDigit c = false.
Proof.
  intros H. destruct (isLowerOrDigit c) eqn:E; [|reflexivity].
  apply lowerOrDigit_not_hyphen in E. congruence.
Qed.

(** The pattern of [validateSlug], read as a property of the string. *)
Lemma slugGroups_spec (s : jsstring) :
  slugGroups s
  = forallb (fun c => isLowerOrDigit c || isHyphen c) s
    && noAdjacent isHyphen s && negb (lastIs isHyphen s).
Proof.
  induction s as [|c s IH]; [reflexivity|].
  change (slugGroups (c :: s))
    with (if isLowerOrDigit c then slugGroups s
          else if isHyphen c then
            match s with
            | d :: _ => isLowerOrDigit d && slugGroups s
            | [] => false
            end
          else false).
  change (forallb (fun c => isLowerOrDigit c || isHyphen c) (c :: s))
    with ((isLowerOrDigit c || isHyphen c)
          && forallb (fun c => isLowerOrDigit c || isHyphen c) s).
  destruct (isLowerOrDigit c) eqn:El.
  - pose proof (lowerOrDigit_not_hyphen c El) as Eh.
    rewrite IH. destruct s as [|d s]; [simpl; now rewrite Eh|].
    rewrite lastIs_cons.
    change (noAdjacent isHyphen (c :: d :: s))
      with (negb (isHyphen c && isHyphen d) && noAdjacent isHyphen (d :: s)).
    rewrite Eh. reflexivity.
  - destruct (isHyphen c) eqn:Eh; [|reflexivity].
    destruct s as [|d s]; [simpl; now rewrite Eh|].
    rewrite lastIs_cons, IH.
    change (noAdjacent isHyphen (c :: d :: s))
      with (negb (isHyphen c && isHyphen d) && noAdjacent isHyphen (d :: s)).
    rewrite Eh.
    change (forallb (fun c => isLowerOrDigit c || isHyphen c) (d :: s))
      with ((isLowerOrDigit d || isHyphen d)
            && forallb (fun c => isLowerOrDigit c || isHyphen c) s).
    destruct (isLowerOrDigit d) eqn:Ed.
    + rewrite (lowerOrDigit_not_hyphen d Ed). reflexivity.
    + destruct (isHyphen d); cbn [orb andb negb];
        rewrite ?andb_false_r; reflexivity.
Qed.

Lemma slugPattern_spec (s : jsstring) :
  slugPattern s = true <->
  s <> []
  /\ forallb (fun c => isLowerOrDigit c || isHyphen c) s = true
  /\ noAdjacent isHyphen s = true
  /\ headIs isHyphen s = false /\ lastIs isHyphen s = false.
Proof.
  destruct s as [|c s]; [simpl; split; [discriminate|intros []; congruence]|].
  unfold slugPattern. rewrite slugGroups_spec.
  change (forallb (fun c => isLowerOrDigit c || isHyphen c) (c :: s))
    with ((isLowerOrDigit c || isHyphen c)
          && forallb (fun c => isLowerOrDigit c || isHyphen c) s).
  change (headIs isHyphen (c :: s)) with (isHyphen c).
  destruct (isLowerOrDigit c) eqn:El.
  - pose proof (lowerOrDigit_not_hyphen c El) as Eh. rewrite Eh.
    destruct s as [|d s].
    + simpl. rewrite Eh. split; [repeat split; auto; discriminate|reflexivity].
    + rewrite lastIs_cons.
      change (noAdjacent isHyphen (c :: d :: s))
        with (negb (isHyphen c && isHyphen d) && noAdjacent isHyphen (d :: s)).
      rewrite Eh. simpl negb. rewrite !andb_true_l.
      rewrite !andb_true_iff, negb_true_iff.
      split; [intros [[A B] C]|intros (_ & A & B & _ & C)];
        repeat split; auto; discriminate.
  - simpl. split; [discriminate|].
    intros (_ & A & _ & B & _). rewrite B in A. discriminate.
Qed.

Lemma validateSlug_Valid (s : jsstring) :
  validateSlug s = Valid <-> slugPattern s = true.
Proof.
  unfold validateSlug. destruct s as [|c s]; [split; discriminate|].
  change (nonEmpty (c :: s)) with true. cbn [negb].
  destruct (slugPattern (c :: s)); cbn [negb]; split;
    solve [reflexivity | discriminate].
Qed.

Section Sanitizers.
Variable toLowerCase : jsstring -> jsstring.
Hypothesis toLowerCase_no_upper :
  forall s, forallb (fun c => negb (isUpperAscii c)) (toLowerCase s) = true.
Hypothesis toLowerCase_slug :
  forall s, forallb isSlugChar s = true -> toLowerCase s = s.

Lemma sanitizeSlug_final (x : jsstring) :
  sanitizeSlug toLowerCase x true
  = stripEnd isHyphen (stripStart isHyphen (sanitizeSlug toLowerCase x false)).
Proof. destruct x; reflexivity. Qed.

(** X1.  What [sanitizeSlug] returns is made of the characters
    [[a-z0-9_-]], has no two hyphens in a row and, when [final] is set,
    no hyphen at either end. *)
Theorem sanitizeSlug_output_shape (x : jsstring) (final : bool) :
  let slug := sanitizeSlug toLowerCase x final in
  forallb isSlugChar slug = true
  /\ noAdjacent isHyphen slug = true
  /\ (final = true -> headIs isHyphen slug = false /\ lastIs isHyphen slug = false).
Proof using toLowerCase_no_upper.
  exact (sanitizeSlug_sanitized toLowerCase toLowerCase_no_upper x final).
Qed.

(** X2.  Leaving the slug field after typing gives the slug that
    leaving it at once would have given: the final pass over a slug that
    the pass without [final] already cleaned is the final pass over the
    text itself, and it only strips the hyphens at the two ends. *)
Theorem sanitizeSlug_final_after_input (x : jsstring) :
  sanitizeSlug toLowerCase (sanitizeSlug toLowerCase x false) true
  = sanitizeSlug toLowerCase x true
  /\ sanitizeSlug toLowerCase x true
     = stripEnd isHyphen (stripStart isHyphen (sanitizeSlug toLowerCase x false)).
Proof using toLowerCase_no_upper toLowerCase_slug.
  split; [|apply sanitizeSlug_final].
  rewrite (sanitizeSlug_final (sanitizeSlug toLowerCase x false)).
  rewrite (sanitizeSlug_fixes_sanitized toLowerCase toLowerCase_slug _ false)
    by (apply sanitizeSlug_sanitized, toLowerCase_no_upper).
  symmetry. apply sanitizeSlug_final.
Qed.

Lemma slug_pattern_chars (s : jsstring) :
  forallb (fun c => isLowerOrDigit c || isHyphen c) s = true
  <-> forallb isSlugChar s = true /\ forallb (fun c => negb (c =? 95)) s = true.
Proof.
  induction s as [|c s IH]; simpl; [tauto|].
  rewrite !andb_true_iff, IH.
  assert (H : isLowerOrDigit c || isHyphen c = true
              <-> isSlugChar c = true /\ negb (c =? 95) = true).
  { unfold isSlugChar, isLowerOrDigit.
    destruct (c =? 95) eqn:E.
    - apply N.eqb_eq in E. subst c. simpl. split; [discriminate|intros []; discriminate].
    - rewrite orb_false_r. simpl. tauto. }
  tauto.
Qed.

(** X15.  The slug test of the command-line manager against the two
    sanitizers.  A slug that [validateSlug] accepts is left as it is by
    the clean-up of [promptForField] and by the editor's [sanitizeSlug];
    and the slug the editor saves, [sanitizeSlug x true], is accepted by
    [validateSlug] exactly when it is not empty and has no underscore
    (which the editor keeps and the manager refuses). *)
Theorem validateSlug_and_the_sanitizers (s x : jsstring) :
  (validateSlug s = Valid ->
   cleanSlug toLowerCase s = s
   /\ sanitizeSlug toLowerCase s true = s
   /\ sanitizeSlug toLowerCase s false = s)
  /\ (validateSlug (sanitizeSlug toLowerCase x true) = Valid
      <-> sanitizeSlug toLowerCase x true <> []
          /\ forallb (fun c => negb (c =? 95)) (sanitizeSlug toLowerCase x true) = true).
Proof using toLowerCase_no_upper toLowerCase_slug.
  split.
  - intros H. apply validateSlug_Valid, slugPattern_spec in H
      as (Hne & Hc & Hn & Hh & Hl).
    apply slug_pattern_chars in Hc as [Hc _].
    assert (Hs : forall final, sanitized final s) by (repeat split; auto).
    split; [|split; apply sanitizeSlug_fixes_sanitized; auto].
    unfold cleanSlug. rewrite (toLowerCase_slug _ Hc).
    assert (Hw : forallb (fun c => negb (isWhiteSpace c)) s = true).
    { eapply forallb_weaken; [|exact Hc]. intros d Hd.
      now rewrite (slugChar_not_whitespace d Hd). }
    destruct (forallb_head_last _ _ Hw) as [Hh' Hl'].
    unfold trim. rewrite (stripStart_id _ _ Hh'), (stripEnd_id _ _ Hl').
    rewrite (collapseRuns_none _ _ _ Hw).
    unfold stripNonWord. apply filter_all.
    eapply forallb_weaken; [|exact Hc]. apply slugChar_word.
  - destruct (sanitizeSlug_sanitized toLowerCase toLowerCase_no_upper x true)
      as (Hc & Hn & Hf).
    destruct (Hf eq_refl) as [Hh Hl].
    rewrite validateSlug_Valid, slugPattern_spec, slug_pattern_chars.
    tauto.
Qed.

End Sanitizers.

Lemma sanitizeSlug_output_shape_witness :
  let slug := sanitizeSlug toLowerAscii (u16 " --Hello,   World_2-- ") true in
  slug = u16 "hello-world_2" /\ forallb isSlugChar slug = true.
Proof.
  split; [reflexivity|].
  exact (proj1 (sanitizeSlug_output_shape toLowerAscii toLowerAscii_no_upper
                  (u16 " --Hello,   World_2-- ") true)).
Defined.

Lemma sanitizeSlug_final_after_input_witness :
  let x := u16 "My post - " in
  sanitizeSlug toLowerAscii x false = u16 "my-post-"
  /\ sanitizeSlug toLowerAscii (sanitizeSlug toLowerAscii x false) true
     = sanitizeSlug toLowerAscii x true.
Proof.
  split; [reflexivity|].
  exact (proj1 (sanitizeSlug_final_after_input toLowerAscii toLowerAscii_no_upper
                  toLowerAscii_slug (u16 "My post - "))).
Defined.

Lemma validateSlug_and_the_sanitizers_witness :
  cleanSlug toLowerAscii (u16 "my-first-post") = u16 "my-first-post"
  /\ validateSlug (sanitizeSlug toLowerAscii (u16 "my_post") true) <> Valid.
Proof.
  pose proof (validateSlug_and_the_sanitizers toLowerAscii toLowerAscii_no_upper
                toLowerAscii_slug (u16 "my-first-post") (u16 "my_post")) as [H1 H2].
  split.
  - exact (proj1 (H1 eq_refl)).
  - intros H. apply H2 in H as [_ H]. vm_compute in H. discriminate.
Defined.

End SlugUseProps.

(** ** The pages of the command-line manager *)

Module CliManageProps.
Import JSString Post Store CliManage.

Lemma goodNav_more known known' nav :
  goodNav known nav -> goodNav (known ++ known') nav.
Proof.
  intros [H1 H2]. split; [exact H1|].
  eapply List.Forall_impl; [|exact H2].
  intros c [->|H]; [now left|right]. apply in_or_app. now left.
Qed.

Lemma goodNav_navigate known nextCursor sel nav nav' :
  goodNav known nav -> (nextCursor = None \/ In nextCursor known) ->
  navigate nextCursor sel nav = Some nav' -> goodNav known nav'.
Proof.
  intros [H1 H2] Hc. unfold navigate. destruct sel.
  - destruct (truthy nextCursor); intros [= <-]; [|split; assumption].
    split; simpl; [lia|]. constructor; assumption.
  - destruct (history nav) as [|c h] eqn:E; intros [= <-]; [split; congruence|].
    inversion H2 as [|? ? _ H3]; subst.
    split; simpl; [simpl in H1; lia|exact H3].
  - discriminate.
  - intros [= <-]. split; assumption.
Qed.

(** X16.  The page counter of [managePosts] counts the history: from a
    state in which the page number is one more than the number of kept
    cursors, every move leads to such a state.  So whenever the prompt
    offers the previous page there is a cursor to go back to, and the
    previous page after the next page is the page the list was on, with
    the same history. *)
Theorem navigate_counts_the_history
    (nav : Nav) (n : nat) (nextCursor : option jsstring) (sel : Selection) :
  pageNumber nav = (1 + Z.of_nat (length (history nav)))%Z ->
  (forall nav', navigate nextCursor sel nav = Some nav' ->
     pageNumber nav' = (1 + Z.of_nat (length (history nav')))%Z)
  /\ (offered n nextCursor nav SelectPrev = true ->
      exists c h, history nav = c :: h
                  /\ navigate nextCursor SelectPrev nav
                     = Some (mkNav c (pageNumber nav - 1) h))
  /\ (truthy nextCursor = true ->
      exists nav1, navigate nextCursor SelectNext nav = Some nav1
                   /\ currentCursor nav1 = nextCursor
                   /\ forall c', navigate c' SelectPrev nav1 = Some nav).
Proof.
  intros H. split; [|split].
  - intros nav'. unfold navigate. destruct sel.
    + destruct (truthy nextCursor); intros [= <-]; [|exact H].
      simpl. lia.
    + destruct (history nav) as [|c h] eqn:E; intros [= <-];
        [now rewrite E|].
      simpl. simpl in H. lia.
    + discriminate.
    + intros [= <-]. exact H.
  - unfold offered, navigate. intros Ho. apply Z.ltb_lt in Ho.
    destruct (history nav) as [|c h]; [simpl in H; lia|].
    exists c, h. split; reflexivity.
  - intros Ht. unfold navigate at 1. rewrite Ht. eexists. split; [reflexivity|].
    split; [reflexivity|]. intros c'. simpl.
    destruct nav as [cur p h]. simpl. do 2 f_equal. lia.
Qed.

Section Pages.
Variable Store : Type.
Variable listRecords : Store -> ListRequest -> ListResponse * Store.

Lemma fetchRecordPage_spec (w : World Store) (lim : N) (cur : option jsstring) :
  exists resp,
    exchanges (snd (fetchRecordPage Store listRecords w lim cur))
    = exchanges w ++ [(mkRequest lim cur, resp)]
    /\ (snd (fst (fetchRecordPage Store listRecords w lim cur)) = None
        \/ In (snd (fst (fetchRecordPage Store listRecords w lim cur)))
             (returnedCursors [(mkRequest lim cur, resp)])).
Proof.
  unfold fetchRecordPage, call.
  destruct (listRecords (store w) (mkRequest lim cur)) as [resp s1].
  exists resp. destruct resp; simpl; auto.
Qed.

Lemma returnedCursors_app tr1 tr2 :
  returnedCursors (tr1 ++ tr2) = returnedCursors tr1 ++ returnedCursors tr2.
Proof. unfold returnedCursors. apply flat_map_app. Qed.

Lemma managePosts_loop_spec (selections : list Selection) :
  forall (w : World Store) (nav : Nav) (known : list (option jsstring)),
    goodNav known nav ->
    exists tr,
      exchanges (snd (managePosts_loop Store listRecords w nav selections))
      = exchanges w ++ tr
      /\ (1 <= length tr <= S (length selections))%nat
      /\ goodNav (known ++ returnedCursors tr)
           (fst (managePosts_loop Store listRecords w nav selections))
      /\ forall l1 req resp l2,
           tr = l1 ++ (req, resp) :: l2 ->
           limit req = POSTS_PER_PAGE_CLI
           /\ (cursorParam req = None
               \/ In (cursorParam req) (known ++ returnedCursors l1)).
Proof.
  induction selections as [|sel rest IH]; intros w nav known G.
  - cbn [managePosts_loop].
    destruct (fetchRecordPage_spec w POSTS_PER_PAGE_CLI (currentCursor nav))
      as (resp & Hex & Hc).
    destruct (fetchRecordPage Store listRecords w POSTS_PER_PAGE_CLI
                (currentCursor nav)) as [[records nextCursor] w'].
    simpl in Hex, Hc.
    exists [(mkRequest POSTS_PER_PAGE_CLI (currentCursor nav), resp)].
    assert (Hone : forall l1 req resp0 l2,
               [(mkRequest POSTS_PER_PAGE_CLI (currentCursor nav), resp)]
               = l1 ++ (req, resp0) :: l2 ->
               limit req = POSTS_PER_PAGE_CLI
               /\ (cursorParam req = None
                   \/ In (cursorParam req) (known ++ returnedCursors l1))).
    { intros l1 req resp0 l2 E.
      destruct l1 as [|e l1]; [|destruct l1; discriminate].
      injection E as <- _ _. split; [reflexivity|]. simpl.
      destruct G as [_ G]. inversion G as [|? ? [G1|G1] _]; subst; auto.
      right. apply in_or_app. now left. }
    destruct ((length records =? 0)%nat && (pageNumber nav =? 1)%Z);
      simpl; (split; [exact Hex|]); (split; [simpl; lia|]);
      (split; [now apply goodNav_more|exact Hone]).
  - cbn [managePosts_loop].
    destruct (fetchRecordPage_spec w POSTS_PER_PAGE_CLI (currentCursor nav))
      as (resp & Hex & Hc).
    destruct (fetchRecordPage Store listRecords w POSTS_PER_PAGE_CLI
                (currentCursor nav)) as [[records nextCursor] w'].
    simpl in Hex, Hc.
    set (e0 := (mkRequest POSTS_PER_PAGE_CLI (currentCursor nav), resp)) in *.
    assert (Hone : forall l1 req resp0 l2,
               [e0] = l1 ++ (req, resp0) :: l2 ->
               limit req = POSTS_PER_PAGE_CLI
               /\ (cursorParam req = None
                   \/ In (cursorParam req) (known ++ returnedCursors l1))).
    { intros l1 req resp0 l2 E.
      destruct l1 as [|e l1]; [|destruct l1; discriminate].
      injection E as <- _ _. split; [reflexivity|]. simpl.
      destruct G as [_ G]. inversion G as [|? ? [G1|G1] _]; subst; auto.
      right. apply in_or_app. now left. }
    assert (Hstop : exists tr,
               exchanges w' = exchanges w ++ tr
               /\ (1 <= length tr <= S (length (sel :: rest)))%nat
               /\ goodNav (known ++ returnedCursors tr) nav
               /\ forall l1 req resp0 l2,
                    tr = l1 ++ (req, resp0) :: l2 ->
                    limit req = POSTS_PER_PAGE_CLI
                    /\ (cursorParam req = None
                        \/ In (cursorParam req) (known ++ returnedCursors l1))).
    { exists [e0]. split; [exact Hex|]. split; [simpl; lia|].
      split; [now apply goodNav_more|exact Hone]. }
    destruct ((length records =? 0)%nat && (pageNumber nav =? 1)%Z);
      [exact Hstop|].
    destruct (navigate nextCursor sel nav) as [nav'|] eqn:En; [|exact Hstop].
    assert (G' : goodNav (known ++ returnedCursors [e0]) nav').
    { eapply goodNav_navigate; [apply goodNav_more, G| |exact En].
      destruct Hc as [Hc|Hc]; [now left|right; apply in_or_app; now right]. }
    destruct (IH w' nav' _ G') as (tr & Htr & Hlen & Hg & Hreq).
    exists (e0 :: tr). split; [|split; [|split]].
    + rewrite Htr, Hex, <- app_assoc. reflexivity.
    + simpl. simpl in Hlen. lia.
    + change (e0 :: tr) with ([e0] ++ tr).
      rewrite returnedCursors_app, app_assoc. exact Hg.
    + intros l1 req resp0 l2 E. destruct l1 as [|e l1].
      * apply (Hone [] req resp0 []). simpl in *. congruence.
      * injection E as <- E. destruct (Hreq l1 req resp0 l2 E) as [H1 H2].
        split; [exact H1|].
        change (e0 :: l1) with ([e0] ++ l1).
        rewrite returnedCursors_app, app_assoc. exact H2.
Qed.

Lemma fetchRecordPage_pageOf (w : World Store) (lim : N) (cur : option jsstring) :
  exists resp,
    fst (fetchRecordPage Store listRecords w lim cur) = pageOf resp
    /\ exchanges (snd (fetchRecordPage Store listRecords w lim cur))
       = exchanges w ++ [(mkRequest lim cur, resp)].
Proof.
  unfold fetchRecordPage, call.
  destruct (listRecords (store w) (mkRequest lim cur)) as [resp s1].
  exists resp. destruct resp; split; reflexivity.
Qed.

Lemma managePosts_loop_manages (selections : list Selection) :
  forall (w : World Store) (nav : Nav),
    exists tr,
      exchanges (snd (managePosts_loop Store listRecords w nav selections))
      = exchanges w ++ tr
      /\ manages nav selections tr.
Proof.
  induction selections as [|sel rest IH]; intros w nav; cbn [managePosts_loop];
    destruct (fetchRecordPage_pageOf w POSTS_PER_PAGE_CLI (currentCursor nav))
      as (resp & Hp & Hex);
    destruct (fetchRecordPage Store listRecords w POSTS_PER_PAGE_CLI
                (currentCursor nav)) as [[records nextCursor] w'];
    cbn [fst snd] in Hp, Hex.
  - exists [(mkRequest POSTS_PER_PAGE_CLI (currentCursor nav), resp)].
    split; [destruct (_ && _); exact Hex|].
    cbn [manages]. split; [reflexivity|]. destruct (_ && _); reflexivity.
  - assert (E1 : fst (pageOf resp) = records) by now rewrite <- Hp.
    assert (E2 : snd (pageOf resp) = nextCursor) by now rewrite <- Hp.
    destruct ((length records =? 0)%nat && (pageNumber nav =? 1)%Z) eqn:Ee.
    + exists [(mkRequest POSTS_PER_PAGE_CLI (currentCursor nav), resp)].
      split; [exact Hex|]. cbn [manages]. rewrite E1, Ee. split; reflexivity.
    + destruct (navigate nextCursor sel nav) as [nav'|] eqn:En.
      * destruct (IH w' nav') as (tr & Htr & Hm).
        exists ((mkRequest POSTS_PER_PAGE_CLI (currentCursor nav), resp) :: tr).
        split; [rewrite Htr, Hex, <- app_assoc; reflexivity|].
        cbn [manages]. rewrite E1, E2, Ee, En. split; [reflexivity|exact Hm].
      * exists [(mkRequest POSTS_PER_PAGE_CLI (currentCursor nav), resp)].
        split; [exact Hex|]. cbn [manages]. rewrite E1, E2, Ee, En.
        split; reflexivity.
Qed.

(** One request at the start, and one more after each choice that is
    answered and is not the one to go back. *)
Lemma manages_count tr :
  forall nav selections,
    manages nav selections tr ->
    exists answered rest,
      selections = answered ++ rest
      /\ length tr = S (length answered)
      /\ Forall (fun sel => sel <> SelectBack) answered.
Proof.
  induction tr as [|[req resp] tr IH]; intros nav selections; [intros []|].
  cbn [manages]. intros [_ H].
  assert (Hstop : tr = [] ->
            exists answered rest,
              selections = answered ++ rest
              /\ length ((req, resp) :: tr) = S (length answered)
              /\ Forall (fun sel => sel <> SelectBack) answered).
  { intros ->. exists [], selections. repeat split. constructor. }
  destruct (_ && _); [exact (Hstop H)|].
  destruct selections as [|sel rest]; [exact (Hstop H)|].
  destruct (navigate (snd (pageOf resp)) sel nav) as [nav'|] eqn:En;
    [|exact (Hstop H)].
  destruct (IH nav' rest H) as (answered & rest' & -> & Hlen & Hall).
  exists (sel :: answered), rest'. split; [reflexivity|].
  split; [simpl; now rewrite Hlen|].
  constructor; [|exact Hall]. intros ->. discriminate En.
Qed.

(** After a failed request the list does not move forward: the next
    request is at the cursor of the failed one, or at the cursor of an
    earlier request. *)
Lemma manages_after_failure tr :
  forall nav selections seen,
    manages nav selections tr ->
    (forall c, In c (history nav) -> In c seen) ->
    forall l1 req resp req' resp' l2,
      tr = l1 ++ (req, resp) :: (req', resp') :: l2 ->
      isFailure resp = true ->
      cursorParam req' = cursorParam req
      \/ In (cursorParam req') (seen ++ List.map (fun e => cursorParam (fst e)) l1).
Proof.
  induction tr as [|[rq rs] tr IH]; intros nav selections seen; [intros []|].
  cbn [manages]. intros [-> H] Hseen l1 req resp req' resp' l2 E Hf.
  destruct l1 as [|e1 l1]; simpl in E.
  - injection E as <- <- ->.
    assert (Hp : pageOf rs = ([], None)) by (destruct rs; [discriminate| |]; reflexivity).
    rewrite Hp in H. cbn [fst snd length Nat.eqb andb] in H.
    destruct (pageNumber nav =? 1)%Z; [discriminate|].
    destruct selections as [|sel rest]; [discriminate|].
    cbn [cursorParam].
    destruct sel; cbn [navigate truthy] in H; try discriminate.
    + left. cbn [manages] in H. now destruct H as [-> _].
    + destruct (history nav) as [|c h] eqn:Eh; cbn [manages] in H;
        destruct H as [-> _]; cbn [cursorParam currentCursor]; [now left|].
      right. apply in_or_app. left. apply Hseen. now left.
    + left. cbn [manages] in H. now destruct H as [-> _].
  - injection E as <- ->.
    destruct (_ && _); [destruct l1; discriminate|].
    destruct selections as [|sel rest]; [destruct l1; discriminate|].
    destruct (navigate (snd (pageOf rs)) sel nav) as [nav'|] eqn:En;
      [|destruct l1; discriminate].
    assert (Hseen' : forall c, In c (history nav') ->
                       In c (seen ++ [currentCursor nav])).
    { intros c Hc. apply in_or_app. unfold navigate in En.
      destruct sel.
      - destruct (truthy (snd (pageOf rs))); injection En as <-;
          [destruct Hc as [<- |Hc]; [right; now left|left; now apply Hseen]
          |left; now apply Hseen].
      - destruct (history nav) as [|c0 h] eqn:Eh; injection En as <-.
        + rewrite Eh in Hc. destruct Hc.
        + left. apply Hseen. now right.
      - discriminate.
      - injection En as <-. left. now apply Hseen. }
    destruct (IH nav' rest _ H Hseen' l1 req resp req' resp' l2 eq_refl Hf)
      as [Hs|Hs]; [now left|right].
    cbn [List.map fst cursorParam]. rewrite <- app_assoc in Hs. exact Hs.
Qed.

(** X17.  The requests of [managePosts].  Whatever the user chooses at
    the prompts, the manager asks the store for one page of 15 records
    at the start and for one more after each answered prompt that is not
    the one to go back, and for no other; the cursor of every request is
    none (the first page) or a cursor that an earlier page of this walk
    came with: going back and forth never makes up a cursor.  A failed
    request counts as an empty page without a cursor: when it is the
    first request the manager ends, and after a later one the next
    request is at the same cursor or at the cursor of an earlier request.
    At the end the page number is one more than the number of cursors
    kept. *)
Theorem managePosts_asks_with_returned_cursors
    (w : World Store) (selections : list Selection) :
  let nav := fst (managePosts Store listRecords w selections) in
  let w' := snd (managePosts Store listRecords w selections) in
  exists tr,
    exchanges w' = exchanges w ++ tr
    /\ (1 <= length tr <= S (length selections))%nat
    /\ pageNumber nav = (1 + Z.of_nat (length (history nav)))%Z
    /\ (forall l1 req resp l2,
         tr = l1 ++ (req, resp) :: l2 ->
         limit req = POSTS_PER_PAGE_CLI
         /\ (cursorParam req = None \/ In (cursorParam req) (returnedCursors l1)))
    /\ manages initialNav selections tr
    /\ (exists answered rest,
          selections = answered ++ rest
          /\ length tr = S (length answered)
          /\ Forall (fun sel => sel <> SelectBack) answered)
    /\ (forall req resp l2,
          tr = (req, resp) :: l2 -> isFailure resp = true -> l2 = [])
    /\ (forall l1 req resp req' resp' l2,
          tr = l1 ++ (req, resp) :: (req', resp') :: l2 ->
          isFailure resp = true ->
          cursorParam req' = cursorParam req
          \/ In (cursorParam req') (List.map (fun e => cursorParam (fst e)) l1)).
Proof.
  cbv zeta. unfold managePosts.
  assert (G : goodNav [] initialNav).
  { split; [reflexivity|]. repeat constructor. }
  destruct (managePosts_loop_spec selections w initialNav [] G)
    as (tr & H1 & H2 & [H3 _] & H4).
  destruct (managePosts_loop_manages selections w initialNav) as (tr' & H1' & Hm).
  rewrite H1 in H1'. apply app_inv_head in H1'. subst tr'.
  exists tr. split; [exact H1|]. split; [exact H2|]. split; [exact H3|].
  split; [intros l1 req resp l2 E; apply (H4 l1 req resp l2 E)|].
  split; [exact Hm|]. split; [exact (manages_count tr _ _ Hm)|]. split.
  - intros req resp l2 -> Hf. cbn [manages] in Hm. destruct Hm as [_ Hm].
    destruct resp as [recs c| |]; [discriminate|exact Hm|exact Hm].
  - intros l1 req resp req' resp' l2 E Hf.
    apply (manages_after_failure tr initialNav selections [] Hm
             ltac:(intros c []) l1 req resp req' resp' l2 E Hf).
Qed.

End Pages.

Lemma navigate_counts_the_history_witness :
  navigate None SelectPrev
    (mkNav (Some (u16 "c2")) 3 [Some (u16 "c1"); None])
  = Some (mkNav (Some (u16 "c1")) 2 [None]).
Proof.
  destruct (proj1 (proj2 (navigate_counts_the_history
      (mkNav (Some (u16 "c2")) 3 [Some (u16 "c1"); None]) 0 None SelectPrev
      eq_refl)) eq_refl) as (c & h & E & H).
  injection E as <- <-. exact H.
Defined.

End CliManageProps.

(** ** The reader's search of a post by its slug *)

Module ReaderFindProps.
Import JSString Post Store Reader ReaderFind.

Lemma find_first {A} (f : A -> bool) (l : list A) (x : A) :
  List.find f l = Some x ->
  f x = true
  /\ exists before after,
       l = before ++ x :: after /\ forallb (fun y => negb (f y)) before = true.
Proof.
  induction l as [|a l IH]; [discriminate|]. simpl.
  destruct (f a) eqn:E.
  - intros [= <-]. split; [exact E|]. exists [], l. split; reflexivity.
  - intros H. destruct (IH H) as (Hx & before & after & -> & Hb).
    split; [exact Hx|]. exists (a :: before), after.
    split; [reflexivity|]. simpl. now rewrite E.
Qed.

Lemma find_none_forallb {A} (f : A -> bool) (l : list A) :
  List.find f l = None -> forallb (fun y => negb (f y)) l = true.
Proof.
  induction l as [|a l IH]; [reflexivity|]. simpl.
  destruct (f a); [discriminate|]. exact IH.
Qed.

Section Find.
Variable Store : Type.
Variable listRecords : Store -> ListRequest -> ListResponse * Store.

(** The outcome of a search over the exchanges [tr] it made. *)
Lemma findRecordBySlug_loop_spec (collection slug : jsstring) (maxPages : nat)
    (fuel : nat) :
  forall (w : World Store) (n : nat) (cur : option jsstring),
    (1 <= fuel)%nat -> (maxPages <= fuel + n)%nat ->
    exists tr,
      exchanges (snd (findRecordBySlug_loop Store listRecords fuel w collection
                        slug maxPages n cur))
      = exchanges w ++ tr
      /\ (1 <= length tr)%nat
      /\ (length tr <= 1 \/ length tr + n <= maxPages)%nat
      /\ Forall (fun e => limit (fst e) = MAX_LIST_LIMIT) tr
      /\ match fst (findRecordBySlug_loop Store listRecords fuel w collection
                      slug maxPages n cur) with
         | FoundRecord r =>
             slugIs slug r = true
             /\ exists before after,
                  pageRecords tr = before ++ r :: after
                  /\ forallb (fun y => negb (slugIs slug y)) before = true
         | NotFound =>
             forallb (fun y => negb (slugIs slug y)) (pageRecords tr) = true
         | FindOutOfFuel => False
         end.
Proof.
  induction fuel as [|f IH]; intros w n cur Hf Hn; [lia|].
  cbn [findRecordBySlug_loop]. unfold fetchRecords.
  change (N.min MAX_LIST_LIMIT MAX_LIST_LIMIT) with MAX_LIST_LIMIT.
  set (req := mkRequest MAX_LIST_LIMIT (if truthy cur then cur else None)).
  unfold call. destruct (listRecords (store w) req) as [resp s1].
  destruct resp as [recs c|status statusText body|m]; simpl.
  - assert (Hp : pageRecords [(req, RespOk recs c)] = default [] recs).
    { unfold pageRecords. simpl. rewrite app_nil_r. now destruct recs. }
    destruct (List.find (slugIs slug) (default [] recs)) as [r|] eqn:Efind.
    + exists [(req, RespOk recs c)]. cbn [fst snd exchanges].
      split; [reflexivity|]. split; [simpl; lia|]. split; [left; simpl; lia|].
      split; [repeat constructor|].
      rewrite Hp. now apply find_first.
    + apply find_none_forallb in Efind.
      destruct (truthy c) eqn:Hc; simpl.
      * destruct (maxPages <=? S n)%nat eqn:Hm.
        -- exists [(req, RespOk recs c)]. cbn [fst snd exchanges].
           split; [reflexivity|]. split; [simpl; lia|].
           split; [left; simpl; lia|]. split; [repeat constructor|].
           rewrite Hp. exact Efind.
        -- apply Nat.leb_gt in Hm.
           destruct (IH (mkWorld s1 (exchanges w ++ [(req, RespOk recs c)]))
                       (S n) c) as (tr & Hex & Hl1 & Hl2 & Hlim & Hres);
             [lia|lia|].
           exists ((req, RespOk recs c) :: tr).
           split; [rewrite Hex; simpl; now rewrite <- app_assoc|].
           split; [simpl; lia|]. split; [right; simpl; lia|].
           split; [constructor; [reflexivity|exact Hlim]|].
           assert (Hcons : pageRecords ((req, RespOk recs c) :: tr)
                           = default [] recs ++ pageRecords tr).
           { rewrite <- Hp. unfold pageRecords. simpl. now rewrite app_nil_r. }
           rewrite Hcons.
           destruct (fst (findRecordBySlug_loop Store listRecords f _ collection
                            slug maxPages (S n) c)) as [r| |].
           ++ destruct Hres as (Hr & before & after & -> & Hb).
              split; [exact Hr|]. exists (default [] recs ++ before), after.
              split; [now rewrite <- app_assoc|].
              rewrite forallb_app, Efind, Hb. reflexivity.
           ++ rewrite forallb_app, Efind, Hres. reflexivity.
           ++ exact Hres.
      * exists [(req, RespOk recs c)]. cbn [fst snd exchanges].
        split; [reflexivity|]. split; [simpl; lia|]. split; [left; simpl; lia|].
        split; [repeat constructor|].
        rewrite Hp. exact Efind.
  - exists [(req, RespStatus status statusText body)]. simpl.
    split; [reflexivity|]. split; [lia|]. split; [left; lia|].
    split; [repeat constructor|reflexivity].
  - exists [(req, RespReject m)]. simpl.
    split; [reflexivity|]. split; [lia|]. split; [left; lia|].
    split; [repeat constructor|reflexivity].
Qed.

(** X18.  [findRecordBySlug] returns the first record with the slug.
    It asks for pages of 100 records, at least one and at most
    [maxPagesToCheck] (one when that is zero); when it returns a record,
    the record has the requested slug and no record before it in the
    pages fetched has; when it returns [null], no record of the pages
    fetched has the slug (a failed request counts as a page without
    records: the error is not passed on). *)
Theorem findRecordBySlug_returns_the_first_match
    (w : World Store) (collection slug : jsstring) (maxPagesToCheck : nat) :
  exists tr,
    exchanges (snd (findRecordBySlug Store listRecords w collection slug
                      maxPagesToCheck))
    = exchanges w ++ tr
    /\ (1 <= length tr <= Nat.max 1 maxPagesToCheck)%nat
    /\ Forall (fun e => limit (fst e) = MAX_LIST_LIMIT) tr
    /\ match fst (findRecordBySlug Store listRecords w collection slug
                    maxPagesToCheck) with
       | FoundRecord r =>
           slugIs slug r = true
           /\ exists before after,
                pageRecords tr = before ++ r :: after
                /\ forallb (fun y => negb (slugIs slug y)) before = true
       | NotFound =>
           forallb (fun y => negb (slugIs slug y)) (pageRecords tr) = true
       | FindOutOfFuel => False
       end.
Proof.
  unfold findRecordBySlug.
  destruct (findRecordBySlug_loop_spec collection slug maxPagesToCheck
              (S maxPagesToCheck) w 0 None) as (tr & H1 & H2 & H3 & H4 & H5);
    [lia|lia|].
  exists tr. split; [exact H1|]. split; [lia|]. split; [exact H4|exact H5].
Qed.

End Find.
End ReaderFindProps.

(** ** The bookmark bot *)

Module BotProps.
Import JSString Post Store Bot ValidateProps.

Lemma charToEscape_not_hyphen (c : N) : isCharToEscape c = true -> isHyphen c = false.
Proof.
  intros H. destruct (isHyphen c) eqn:E; [|reflexivity].
  apply N.eqb_eq in E. subst c. discriminate.
Qed.

Lemma backslash_not_special : isMarkdownSpecial backslash = false.
Proof. reflexivity. Qed.

Lemma special_not_backslash (c : N) : isMarkdownSpecial c = true -> c <> backslash.
Proof. intros H ->. discriminate. Qed.

(** The two replacements amount to one pass. *)
Lemma escapeChars_twice (s : jsstring) :
  escapeChars isHyphen (escapeChars isCharToEscape s) = flat_map escaped s.
Proof.
  induction s as [|c s IH]; [reflexivity|].
  cbn [escapeChars flat_map]. unfold escaped at 1, isMarkdownSpecial.
  destruct (isCharToEscape c) eqn:E1.
  - cbn [escapeChars orb app]. rewrite (charToEscape_not_hyphen c E1).
    change (isHyphen backslash) with false. cbv iota. now rewrite IH.
  - cbn [escapeChars orb]. destruct (isHyphen c); cbn [app]; now rewrite IH.
Qed.

Lemma escaped_head (s : jsstring) :
  headIs isMarkdownSpecial (flat_map escaped s) = false.
Proof.
  destruct s as [|c s]; [reflexivity|]. cbn [flat_map]. unfold escaped.
  destruct (isMarkdownSpecial c) eqn:E; [reflexivity|exact E].
Qed.

Lemma escaped_injective (a : jsstring) :
  forall b, flat_map escaped a = flat_map escaped b -> a = b.
Proof.
  induction a as [|x a IH]; intros [|y b]; cbn [flat_map].
  - reflexivity.
  - unfold escaped at 1. destruct (isMarkdownSpecial y); discriminate.
  - unfold escaped at 1. destruct (isMarkdownSpecial x); discriminate.
  - unfold escaped at 1 3. destruct (isMarkdownSpecial x) eqn:Ex, (isMarkdownSpecial y) eqn:Ey;
      cbn [app].
    + intros [= -> H]. f_equal. now apply IH.
    + intros [= <- H]. pose proof (escaped_head b) as Hb.
      rewrite <- H in Hb. simpl in Hb. congruence.
    + intros [= -> H]. pose proof (escaped_head a) as Ha.
      rewrite H in Ha. simpl in Ha. congruence.
    + intros [= -> H]. f_equal. now apply IH.
Qed.

Lemma escaped_preceded (s : jsstring) :
  forall l1 c l2,
    flat_map escaped s = l1 ++ c :: l2 -> isMarkdownSpecial c = true ->
    lastIs (N.eqb backslash) l1 = true.
Proof.
  induction s as [|x s IH]; intros l1 c l2; cbn [flat_map].
  - destruct l1; discriminate.
  - unfold escaped at 1. destruct (isMarkdownSpecial x) eqn:Ex; cbn [app].
    + destruct l1 as [|a l1].
      * intros [= <- _] Hc. discriminate.
      * destruct l1 as [|b l1]; [intros [= <- _ _] _; reflexivity|].
        intros [= <- <- H] Hc. rewrite lastIs_cons.
        pose proof (IH _ _ _ H Hc) as Hl.
        destruct l1; [discriminate|]. rewrite lastIs_cons. exact Hl.
    + destruct l1 as [|a l1].
      * intros [= <- _] Hc. congruence.
      * intros [= <- H] Hc. pose proof (IH _ _ _ H Hc) as Hl.
        destruct l1; [discriminate|]. rewrite lastIs_cons. exact Hl.
Qed.

(** X19.  [escapeMarkdownV2] puts one backslash before each of the
    eighteen characters [_*[]()~`>#+=|{}.!-] and changes nothing else:
    its two replacements never touch each other's work.  So in its
    result each of these characters stands right after a backslash, and
    two different texts never get the same result. *)
Theorem escapeMarkdownV2_escapes_each_special_once (text : jsstring) :
  escapeMarkdownV2 text = flat_map escaped text
  /\ (forall l1 c l2,
        escapeMarkdownV2 text = l1 ++ c :: l2 -> isMarkdownSpecial c = true ->
        lastIs (N.eqb backslash) l1 = true)
  /\ (forall other, escapeMarkdownV2 text = escapeMarkdownV2 other -> text = other).
Proof.
  assert (H : forall s, escapeMarkdownV2 s = flat_map escaped s).
  { intros [|c s]; [reflexivity|]. unfold escapeMarkdownV2.
    cbn [nonEmpty negb]. apply escapeChars_twice. }
  split; [apply H|]. split.
  - intros l1 c l2. rewrite H. apply escaped_preceded.
  - intros other. rewrite !H. apply escaped_injective.
Qed.

Section List.
Variable Store : Type.
Variable listRecords : Store -> ListRequest -> ListResponse * Store.

Lemma listAllRecords_loop_spec fuel :
  forall (w : World Store) cur all i,
    (cur = None \/ truthy cur = true) ->
    exists tr,
      exchanges (snd (listAllRecords_loop Store listRecords fuel w cur all))
      = exchanges w ++ tr
      /\ (fst (listAllRecords_loop Store listRecords fuel w cur all) = OutOfFuel ->
          length tr = fuel /\ followsOpen 100 (fun _ => hasCursor) i cur tr)
      /\ (fst (listAllRecords_loop Store listRecords fuel w cur all) <> OutOfFuel ->
          follows 100 (fun _ => hasCursor) i cur tr
          /\ (Forall (fun e => isFailure (snd e) = false) tr ->
              fst (listAllRecords_loop Store listRecords fuel w cur all)
              = Returned (all ++ pageRecords tr))
          /\ (forall req resp, In (req, resp) tr -> isFailure resp = true ->
              fst (listAllRecords_loop Store listRecords fuel w cur all)
              = Returned [])).
Proof.
  induction fuel as [|f IH]; intros w cur all i Hcur.
  - exists []. simpl. rewrite app_nil_r. repeat split; congruence.
  - assert (Hreq : (if truthy cur then cur else None) = cur).
    { destruct Hcur as [ -> | -> ]; reflexivity. }
    cbn [listAllRecords_loop]. rewrite Hreq.
    pose proof (FetchProps.call_exchanges Store listRecords w (mkRequest 100 cur))
      as Hex.
    destruct (call listRecords w (mkRequest 100 cur)) as [resp w1].
    simpl in Hex. destruct resp as [recs c|status statusText body|m].
    + assert (Hp : pageRecords [(mkRequest 100 cur, RespOk recs c)]
                   = default [] recs).
      { unfold pageRecords. simpl. rewrite app_nil_r. now destruct recs. }
      destruct (truthy c) eqn:Hc.
      * destruct (IH w1 c (all ++ default [] recs) (S i)) as (tr & Hex' & Ho & Hr);
          [now right|].
        exists ((mkRequest 100 cur, RespOk recs c) :: tr).
        split; [rewrite Hex', Hex, <- app_assoc; reflexivity|]. split.
        -- intros E. destruct (Ho E) as [Hl Hf]. simpl. rewrite Hc. auto.
        -- intros E. destruct (Hr E) as (Hf & Hok & Hfail).
           split; [simpl; rewrite Hc; auto|]. split.
           ++ intros Hall. apply Forall_cons in Hall as [_ Hall].
              rewrite (Hok Hall), <- app_assoc. reflexivity.
           ++ intros req resp [ [= <- <-] | Hin ]; [discriminate|].
              exact (Hfail _ _ Hin).
      * exists [(mkRequest 100 cur, RespOk recs c)].
        split; [exact Hex|]. split; [discriminate|]. intros _.
        split; [simpl; rewrite Hc; auto|]. split.
        -- intros _. cbn [fst]. now rewrite Hp.
        -- intros req resp [ [= <- <-] | [] ]. discriminate.
    + exists [(mkRequest 100 cur, RespStatus status statusText body)].
      split; [exact Hex|]. split; [discriminate|]. intros _.
      split; [simpl; auto|]. split.
      * intros Hall. apply Forall_cons in Hall as [Hall _]. discriminate.
      * intros req resp _ _. reflexivity.
    + exists [(mkRequest 100 cur, RespReject m)].
      split; [exact Hex|]. split; [discriminate|]. intros _.
      split; [simpl; auto|]. split.
      * intros Hall. apply Forall_cons in Hall as [Hall _]. discriminate.
      * intros req resp _ _. reflexivity.
Qed.

(** X20.  [listAllRecords] of the bot.  Without a session it returns the
    empty array and asks the store nothing.  With one, its requests ask
    for pages of 100 records; the first has no cursor and each next one
    the cursor of the page before, as long as a page comes with one.
    When every request succeeds the result is the records of all pages
    in order; when one fails it is the last request and the result is
    the empty array, the records of the pages before it included. *)
Theorem listAllRecords_all_pages_or_nothing (fuel : nat) (w : World Store) :
  listAllRecords Store listRecords false fuel w = (Returned [], w)
  /\ exists tr,
       exchanges (snd (listAllRecords Store listRecords true fuel w))
       = exchanges w ++ tr
       /\ (fst (listAllRecords Store listRecords true fuel w) = OutOfFuel ->
           length tr = fuel /\ followsOpen 100 (fun _ => hasCursor) 1 None tr)
       /\ (fst (listAllRecords Store listRecords true fuel w) <> OutOfFuel ->
           follows 100 (fun _ => hasCursor) 1 None tr
           /\ (Forall (fun e => isFailure (snd e) = false) tr ->
               fst (listAllRecords Store listRecords true fuel w)
               = Returned (pageRecords tr))
           /\ (forall req resp, In (req, resp) tr -> isFailure resp = true ->
               fst (listAllRecords Store listRecords true fuel w) = Returned []
               /\ exists before, tr = before ++ [(req, resp)])).
Proof.
  split; [reflexivity|]. unfold listAllRecords. cbn [negb].
  destruct (listAllRecords_loop_spec fuel w None [] 1%nat (or_introl eq_refl))
    as (tr & Hex & Ho & Hr).
  exists tr. split; [exact Hex|]. split; [exact Ho|].
  intros E. destruct (Hr E) as (Hf & Hok & Hfail).
  split; [exact Hf|]. split; [exact Hok|].
  intros req resp Hin Hfl. split; [exact (Hfail _ _ Hin Hfl)|].
  eapply FetchProps.follows_failure_last; eauto.
  intros j [recs c| |]; simpl; congruence.
Qed.

End List.
End BotProps.

(** ** The editor's stored session *)

Module SessionProps.
Import JSString Json Session JSStringProps JsonProps.

(** *** [JSON.stringify] without a gap, read back *)

Lemma stringify_head (v : Json) :
  exists c t, stringify v = c :: t /\ valueStart c = true.
Proof.
  destruct v as [|[|]|n|s|[|x xs]|[|[k x] ms]]; simpl;
    try (eexists _, _; split; [reflexivity|reflexivity]).
  unfold serializeNumber. destruct (n <? 0)%Z.
  - eexists _, _. split; reflexivity.
  - destruct (decimal_head (Z.to_N n)) as (c & t & -> & Hc).
    exists c, t. split; [reflexivity|]. unfold valueStart. rewrite Hc.
    repeat rewrite orb_true_r. reflexivity.
Qed.

Lemma stringify_starts (v : Json) (rest : jsstring) :
  exists c t, stringify v ++ rest = c :: t
              /\ skipWs (c :: t) = c :: t
              /\ (c =? 93) = false /\ (c =? 125) = false.
Proof.
  destruct (stringify_head v) as (c & t & -> & Hc).
  destruct (valueStart_not_ws c Hc) as (Hw & H1 & H2 & _).
  exists c, (t ++ rest). repeat split; auto. now apply skipWs_head.
Qed.

Lemma itemsRest_delimited ser l (rest : jsstring) :
  headIs isDigit (itemsRest ser l ++ rest) = false.
Proof. destruct l; reflexivity. Qed.

Lemma membersRest_delimited ser l (rest : jsstring) :
  headIs isDigit (membersRest ser l ++ rest) = false.
Proof. destruct l as [|[k y] l]; reflexivity. Qed.

Lemma itemsRest_cons ser y l (rest : jsstring) :
  itemsRest ser (y :: l) ++ rest = 44 :: ser y ++ itemsRest ser l ++ rest.
Proof. cbn [itemsRest app]. now rewrite <- app_assoc. Qed.

Lemma membersRest_cons ser k y l (rest : jsstring) :
  membersRest ser ((k, y) :: l) ++ rest
  = 44 :: quote k ++ 58 :: ser y ++ membersRest ser l ++ rest.
Proof.
  cbn [membersRest app]. rewrite <- app_assoc. cbn [app].
  now rewrite <- app_assoc.
Qed.

Lemma parseElements_itemsRest (xs : list Json) :
  Forall readsBack xs ->
  forall x, readsBack x ->
  forall (f : nat) (rest : jsstring),
    (S (weight x) + list_sum (List.map (fun y => S (weight y)) xs) <= f)%nat ->
    parseElements f (stringify x ++ itemsRest stringify xs ++ rest)
    = Some (x :: xs, rest).
Proof.
  induction 1 as [|y l Hy Hl IH]; intros x Hx f rest Hf;
    (destruct f as [|f]; [simpl in Hf; lia|]); cbn [parseElements];
    rewrite (Hx f _ (itemsRest_delimited _ _ _)) by (simpl in Hf; lia).
  - cbn [itemsRest app]. rewrite skipWs_head by reflexivity. reflexivity.
  - rewrite itemsRest_cons. rewrite skipWs_head by reflexivity.
    cbn [N.eqb Pos.eqb]. cbv iota.
    rewrite (IH y Hy f rest) by (simpl in Hf |- *; lia).
    reflexivity.
Qed.

Lemma parseMembers_membersRest (ms : list (jsstring * Json)) :
  Forall (fun kx => readsBack (snd kx)) ms ->
  forall k x, readsBack x ->
  forall (f : nat) (rest : jsstring),
    (S (weight x) + list_sum (List.map (fun ky => S (weight (snd ky))) ms) <= f)%nat ->
    parseMembers f
      (quote k ++ 58 :: stringify x ++ membersRest stringify ms ++ rest)
    = Some ((k, x) :: ms, rest).
Proof.
  induction 1 as [|[k' y] l Hy Hl IH]; intros k x Hx f rest Hf;
    (destruct f as [|f]; [simpl in Hf; lia|]); cbn [parseMembers];
    rewrite quote_app, skipWs_head by reflexivity;
    cbn [N.eqb Pos.eqb]; cbv iota;
    rewrite parseChars_quoteUnits, skipWs_head by reflexivity;
    cbn [N.eqb Pos.eqb]; cbv iota;
    rewrite (Hx f _ (membersRest_delimited _ _ _)) by (simpl in Hf; lia).
  - cbn [membersRest app]. rewrite skipWs_head by reflexivity. reflexivity.
  - rewrite membersRest_cons. rewrite skipWs_head by reflexivity.
    cbn [N.eqb Pos.eqb]. cbv iota.
    rewrite (IH k' y Hy f rest) by (simpl in Hf |- *; lia).
    reflexivity.
Qed.

Lemma parseValue_stringify (v : Json) : readsBack v.
Proof.
  induction v as [|b|n|s|l IH|ms IH] using Json_ind;
    intros fuel rest Hr Hf;
    (destruct fuel as [|f]; [simpl in Hf; lia|]).
  - reflexivity.
  - destruct b; reflexivity.
  - apply parseValue_number, Hr.
  - apply parseValue_string.
  - destruct l as [|x xs]; [reflexivity|].
    apply Forall_cons in IH as [Hx Hxs].
    cbn [stringify app parseValue]. rewrite <- app_assoc.
    rewrite skipWs_head by reflexivity. cbn [N.eqb Pos.eqb]. cbv iota.
    destruct (stringify_starts x (itemsRest stringify xs ++ rest))
      as (c & t & E & Hs & H93 & _).
    rewrite (parseElements_itemsRest xs Hxs x Hx f rest) by (simpl in Hf; lia).
    rewrite E, Hs, H93. reflexivity.
  - destruct ms as [|[k x] ms]; [reflexivity|].
    apply Forall_cons in IH as [Hx Hms]. simpl in Hx.
    cbn [stringify app parseValue]. rewrite <- app_assoc. cbn [app].
    rewrite <- app_assoc.
    rewrite skipWs_head by reflexivity. cbn [N.eqb Pos.eqb]. cbv iota.
    rewrite (parseMembers_membersRest ms Hms k x Hx f rest)
      by (simpl in Hf; lia).
    rewrite quote_app, skipWs_head by reflexivity.
    cbn [N.eqb Pos.eqb]. cbv iota. reflexivity.
Qed.

Lemma itemsRest_length (l : list Json) :
  Forall (fun y => (weight y <= length (stringify y))%nat) l ->
  (S (list_sum (List.map (fun y => S (weight y)) l))
   <= length (itemsRest stringify l))%nat.
Proof.
  induction 1 as [|y l Hy Hl IH]; [simpl; lia|].
  cbn [itemsRest List.map length]. rewrite length_app.
  unfold list_sum in *. cbn [fold_right]. lia.
Qed.

Lemma membersRest_length (l : list (jsstring * Json)) :
  Forall (fun ky => (weight (snd ky) <= length (stringify (snd ky)))%nat) l ->
  (S (list_sum (List.map (fun ky => S (weight (snd ky))) l))
   <= length (membersRest stringify l))%nat.
Proof.
  induction 1 as [|[k y] l Hy Hl IH]; [simpl; lia|]. simpl in Hy.
  cbn [membersRest List.map length snd]. rewrite length_app.
  cbn [length]. rewrite length_app.
  unfold list_sum in *. cbn [fold_right]. lia.
Qed.

Lemma stringify_length (v : Json) : (weight v <= length (stringify v))%nat.
Proof.
  induction v as [|b|n|s|l IH|ms IH] using Json_ind.
  - simpl. lia.
  - destruct b; simpl; lia.
  - destruct (stringify_head (JNum n)) as (c & t & -> & _). simpl. lia.
  - simpl. lia.
  - destruct l as [|x xs]; [simpl; lia|].
    apply Forall_cons in IH as [Hx Hxs].
    pose proof (itemsRest_length xs Hxs) as Ht.
    cbn [stringify weight List.map length]. rewrite length_app.
    unfold list_sum in *. cbn [fold_right]. lia.
  - destruct ms as [|[k x] ms]; [simpl; lia|].
    apply Forall_cons in IH as [Hx Hms]. simpl in Hx.
    pose proof (membersRest_length ms Hms) as Ht.
    cbn [stringify weight List.map length snd]. rewrite length_app.
    cbn [length]. rewrite length_app.
    unfold list_sum in *. cbn [fold_right]. lia.
Qed.

Lemma JSON_parse_compact (v : Json) : JSON_parse (stringify v) = Some v.
Proof.
  unfold JSON_parse.
  rewrite <- (app_nil_r (stringify v)) at 2.
  rewrite (parseValue_stringify v _ [] eq_refl).
  - reflexivity.
  - pose proof (stringify_length v). lia.
Qed.

Lemma stringify_nonEmpty (v : Json) : nonEmpty (stringify v) = true.
Proof. destruct (stringify_head v) as (c & t & -> & _). reflexivity. Qed.

Lemma loadSessionFromLocal_stored (v : Json) (ls : gmap jsstring jsstring) :
  ls !! LOCALSTORAGE_SESSION_KEY = Some (stringify v) ->
  loadSessionFromLocal ls = (Some v, ls).
Proof.
  intros H. unfold loadSessionFromLocal.
  now rewrite H, stringify_nonEmpty, JSON_parse_compact.
Qed.

Lemma loadSessionFromLocal_none (ls : gmap jsstring jsstring) :
  ls !! LOCALSTORAGE_SESSION_KEY = None ->
  loadSessionFromLocal ls = (None, ls).
Proof. intros H. unfold loadSessionFromLocal. now rewrite H. Qed.

(** X21.  What [saveSessionToLocal] stores, [loadSessionFromLocal]
    gives back: the object with the session, the time of the save and
    the time of the login, which is the time of the save for a login and
    whenever no time (or [0], or [null]) was handed on, and the time
    handed on otherwise.  The other items of the storage stay, and after
    [clearLocalSessionData] nothing is loaded. *)
Theorem saved_session_is_loaded_back (now : Z) (sessionData : Json)
    (isInitialLogin : bool) (existingInitialLoginAt : Json)
    (ls : gmap jsstring jsstring) :
  let ls' := saveSessionToLocal now sessionData isInitialLogin
               existingInitialLoginAt ls in
  loadSessionFromLocal ls'
  = (Some (JObj [(u16 "session", sessionData); (u16 "savedAt", JNum now);
                 (u16 "initialLoginAt",
                  if isInitialLogin || negb (jsTruthy existingInitialLoginAt)
                  then JNum now else existingInitialLoginAt)]), ls')
  /\ (forall key, key <> LOCALSTORAGE_SESSION_KEY -> ls' !! key = ls !! key)
  /\ loadSessionFromLocal (clearLocalSessionData ls')
     = (None, clearLocalSessionData ls').
Proof.
  cbv zeta. split; [|split].
  - assert (E : dataToStore now sessionData isInitialLogin existingInitialLoginAt
                = JObj [(u16 "session", sessionData); (u16 "savedAt", JNum now);
                        (u16 "initialLoginAt",
                         if isInitialLogin || negb (jsTruthy existingInitialLoginAt)
                         then JNum now else existingInitialLoginAt)]).
    { unfold dataToStore.
      destruct isInitialLogin; cbn [negb andb orb];
        [reflexivity | destruct (jsTruthy existingInitialLoginAt); reflexivity]. }
    rewrite <- E. apply loadSessionFromLocal_stored.
    unfold saveSessionToLocal. apply lookup_insert_eq.
  - intros key Hk. unfold saveSessionToLocal.
    apply lookup_insert_ne. congruence.
  - apply loadSessionFromLocal_none. unfold clearLocalSessionData.
    apply lookup_delete_eq.
Qed.

Section Timeout.
Variable expiredByCoercion : Z -> Json -> bool.

Abbreviation check' := (attemptResumeSession_check expiredByCoercion) (only parsing).
Abbreviation attempt' := (attemptResumeSession expiredByCoercion) (only parsing).
Abbreviation resumes' := (resumes expiredByCoercion) (only parsing).

Lemma dataToStore_kept (s t0 : Z) (session : Json) :
  t0 <> 0%Z ->
  dataToStore s session false (JNum t0)
  = JObj [(u16 "session", session); (u16 "savedAt", JNum s);
          (u16 "initialLoginAt", JNum t0)].
Proof.
  intros H. unfold dataToStore. cbn [negb andb jsTruthy].
  destruct (Z.eqb_spec t0 0); [contradiction|reflexivity].
Qed.

Lemma handleLogin_saved_kept (t0 : Z) (session : Json)
    (ls : gmap jsstring jsstring) :
  t0 <> 0%Z ->
  handleLogin_saved t0 session ls = saveSessionToLocal t0 session false (JNum t0) ls.
Proof.
  intros H. unfold handleLogin_saved, saveSessionToLocal.
  now rewrite dataToStore_kept.
Qed.

Lemma check_stored (now s t0 : Z) (ms : list (jsstring * Json))
    (ls : gmap jsstring jsstring) :
  t0 <> 0%Z ->
  ls !! LOCALSTORAGE_SESSION_KEY
  = Some (stringify (dataToStore s (JObj ms) false (JNum t0))) ->
  check' now ls
  = if (maxAgeMillis <? now - t0)%Z
    then (SessionExpired, clearLocalSessionData ls)
    else (CallResume (JObj ms) (JNum t0), ls).
Proof using Type.
  intros Ht H. unfold attemptResumeSession_check.
  rewrite (loadSessionFromLocal_stored _ _ H), dataToStore_kept by exact Ht.
  change (member (u16 "session") (JObj _)) with (Some (JObj ms)).
  change (member (u16 "initialLoginAt") (JObj _)) with (Some (JNum t0)).
  cbn [jsTruthy negb orb sessionExpired].
  destruct (Z.eqb_spec t0 0); [contradiction|reflexivity].
Qed.

Lemma check_none (now : Z) (ls : gmap jsstring jsstring) :
  ls !! LOCALSTORAGE_SESSION_KEY = None -> check' now ls = (NoStoredSession, ls).
Proof using Type.
  intros H. unfold attemptResumeSession_check.
  now rewrite (loadSessionFromLocal_none _ H).
Qed.

Lemma last_cons_default {A} (x d : A) (l : list A) :
  List.last (x :: l) d = List.last l x.
Proof.
  revert x d. induction l as [|y l IH]; intros x d; [reflexivity|].
  change (List.last (x :: y :: l) d) with (List.last (y :: l) d).
  rewrite IH. symmetry. apply IH.
Qed.

Lemma resumes_stored (t0 : Z) (loads : list (Z * Z * list (jsstring * Json))) :
  t0 <> 0%Z ->
  forall ls : gmap jsstring jsstring,
    (ls !! LOCALSTORAGE_SESSION_KEY = None
     \/ exists s ms,
          ls !! LOCALSTORAGE_SESSION_KEY
          = Some (stringify (dataToStore s (JObj ms) false (JNum t0)))) ->
    let ls' := resumes' loads ls in
    ls' !! LOCALSTORAGE_SESSION_KEY = None
    \/ exists s ms,
         ls' !! LOCALSTORAGE_SESSION_KEY
         = Some (stringify (dataToStore s (JObj ms) false (JNum t0))).
Proof using Type.
  intros Ht. cbv zeta.
  induction loads as [|[[now later] ms'] loads IH]; intros ls H; [exact H|].
  cbn [resumes]. apply IH. unfold attemptResumeSession.
  destruct H as [H|(s & ms & H)].
  - rewrite (check_none _ _ H). left. exact H.
  - rewrite (check_stored now s t0 ms ls Ht H).
    destruct (maxAgeMillis <? now - t0)%Z; cbn [snd].
    + left. apply lookup_delete_eq.
    + right. exists later, ms'. apply lookup_insert_eq.
Qed.

Lemma resumes_in_time (t0 : Z) (ls : gmap jsstring jsstring)
    (loads : list (Z * Z * list (jsstring * Json))) :
  t0 <> 0%Z ->
  Forall (fun l => (fst (fst l) - t0 <= maxAgeMillis)%Z) loads ->
  forall s ms,
    resumes' loads (saveSessionToLocal s (JObj ms) false (JNum t0) ls)
    = saveSessionToLocal (List.last (List.map (fun l => snd (fst l)) loads) s)
        (JObj (List.last (List.map snd loads) ms)) false (JNum t0) ls.
Proof using Type.
  intros Ht. induction 1 as [|[[now later] ms'] loads Hl Hls IH]; intros s ms;
    [reflexivity|].
  cbn [resumes List.map fst snd]. rewrite !last_cons_default.
  rewrite <- IH. f_equal. unfold attemptResumeSession.
  rewrite (check_stored now s t0 ms _ Ht) by apply lookup_insert_eq.
  cbn [fst] in Hl. destruct (Z.ltb_spec maxAgeMillis (now - t0)); [lia|].
  cbn [snd]. unfold saveSessionToLocal. apply insert_insert_eq.
Qed.

(** X22.  The time of the login ends the session, however often it was
    resumed.  After a login at [t0] and any number of page loads that
    resumed the session and saved it again, a page load later than
    [maxAgeMillis] after [t0] does not resume it, whatever the server
    would answer: [attemptResumeSession] gives [false] and the item is
    removed from the storage. *)
Theorem resumed_session_ends_with_the_login_time
    (t0 : Z) (ms0 : list (jsstring * Json))
    (loads : list (Z * Z * list (jsstring * Json)))
    (ls : gmap jsstring jsstring) (now later : Z) (resumed : option Json) :
  t0 <> 0%Z ->
  (maxAgeMillis < now - t0)%Z ->
  let ls' := resumes' loads (handleLogin_saved t0 (JObj ms0) ls) in
  attempt' now later resumed ls' = (false, clearLocalSessionData ls')
  /\ clearLocalSessionData ls' !! LOCALSTORAGE_SESSION_KEY = None.
Proof using Type.
  intros Ht Hlate. cbv zeta. split; [|apply lookup_delete_eq].
  destruct (resumes_stored t0 loads Ht (handleLogin_saved t0 (JObj ms0) ls))
    as [H|(s & ms & H)].
  - right. exists t0, ms0. rewrite handleLogin_saved_kept by exact Ht.
    apply lookup_insert_eq.
  - unfold attemptResumeSession. rewrite (check_none _ _ H).
    unfold clearLocalSessionData. now rewrite delete_id.
  - unfold attemptResumeSession. rewrite (check_stored now s t0 ms _ Ht H).
    destruct (Z.ltb_spec maxAgeMillis (now - t0)); [reflexivity|lia].
Qed.

(** X23.  Within the time, the session is resumed with what was stored
    last.  After a login at [t0] and page loads within [maxAgeMillis]
    of [t0] that resumed the session, the storage is the one a single
    save of the session resumed last would leave, with the time of the
    login still [t0]; and a page load within the time asks the server to
    resume that session. *)
Theorem resumed_session_keeps_the_login_time
    (t0 : Z) (ms0 : list (jsstring * Json))
    (loads : list (Z * Z * list (jsstring * Json)))
    (ls : gmap jsstring jsstring) (now : Z) :
  t0 <> 0%Z ->
  Forall (fun l => (fst (fst l) - t0 <= maxAgeMillis)%Z) loads ->
  (now - t0 <= maxAgeMillis)%Z ->
  let ls' := resumes' loads (handleLogin_saved t0 (JObj ms0) ls) in
  let session := JObj (List.last (List.map snd loads) ms0) in
  let savedAt := List.last (List.map (fun l => snd (fst l)) loads) t0 in
  ls' = saveSessionToLocal savedAt session false (JNum t0) ls
  /\ fst (loadSessionFromLocal ls')
     = Some (JObj [(u16 "session", session); (u16 "savedAt", JNum savedAt);
                   (u16 "initialLoginAt", JNum t0)])
  /\ check' now ls' = (CallResume session (JNum t0), ls').
Proof using Type.
  intros Ht Hloads Hnow. cbv zeta.
  rewrite handleLogin_saved_kept, (resumes_in_time t0 ls loads Ht Hloads)
    by exact Ht.
  split; [reflexivity|]. split.
  - rewrite <- (dataToStore_kept _ t0 _ Ht).
    erewrite loadSessionFromLocal_stored; [reflexivity|apply lookup_insert_eq].
  - erewrite check_stored; [|exact Ht|apply lookup_insert_eq].
    destruct (Z.ltb_spec maxAgeMillis (now - t0)); [lia|reflexivity].
Qed.

End Timeout.

Lemma resumed_session_ends_with_the_login_time_witness :
  let ls' := resumes (fun _ _ => false)
               [(1600000, 1600200, [(u16 "did", JStr (u16 "did:plc:x"))])]%Z
               (handleLogin_saved 1000000 (JObj [(u16 "did", JStr (u16 "did:plc:x"))]) ∅) in
  attemptResumeSession (fun _ _ => false) 1900001 1900300
    (Some (JObj [(u16 "did", JStr (u16 "did:plc:x"))])) ls'
  = (false, clearLocalSessionData ls').
Proof.
  exact (proj1 (resumed_session_ends_with_the_login_time (fun _ _ => false)
    1000000 [(u16 "did", JStr (u16 "did:plc:x"))]
    [(1600000, 1600200, [(u16 "did", JStr (u16 "did:plc:x"))])]%Z ∅
    1900001 1900300 (Some (JObj [(u16 "did", JStr (u16 "did:plc:x"))]))
    ltac:(discriminate) ltac:(reflexivity))).
Defined.

Lemma resumed_session_keeps_the_login_time_witness :
  let ls' := resumes (fun _ _ => false)
               [(1600000, 1600200, [(u16 "did", JStr (u16 "did:plc:y"))])]%Z
               (handleLogin_saved 1000000 (JObj [(u16 "did", JStr (u16 "did:plc:x"))]) ∅) in
  attemptResumeSession_check (fun _ _ => false) 1900000 ls'
  = (CallResume (JObj [(u16 "did", JStr (u16 "did:plc:y"))]) (JNum 1000000), ls').
Proof.
  refine (proj2 (proj2 (resumed_session_keeps_the_login_time (fun _ _ => false)
    1000000 [(u16 "did", JStr (u16 "did:plc:x"))]
    [(1600000, 1600200, [(u16 "did", JStr (u16 "did:plc:y"))])]%Z ∅
    1900000 ltac:(discriminate) _ ltac:(discriminate)))).
  apply List.Forall_cons; [discriminate|apply List.Forall_nil].
Defined.

End SessionProps.

(** ** The tags of the command line tool *)

Module CliTagsProps.
Import JSString Validate CliTags JSStringProps ValidateProps.

Lemma split_no_sep (sep : N) (p : jsstring) :
  forallb (fun c => negb (c =? sep)) p = true -> split sep p = [p].
Proof.
  induction p as [|c p IH]; [reflexivity|]. simpl. intros H.
  apply andb_true_iff in H as [H1 H2]. apply negb_true_iff in H1.
  now rewrite H1, (IH H2).
Qed.

Lemma split_app_sep (sep : N) (p s : jsstring) :
  forallb (fun c => negb (c =? sep)) p = true ->
  split sep (p ++ sep :: s) = p :: split sep s.
Proof.
  induction p as [|c p IH]; simpl; intros H.
  - now rewrite N.eqb_refl.
  - apply andb_true_iff in H as [H1 H2]. apply negb_true_iff in H1.
    now rewrite H1, (IH H2).
Qed.

Lemma split_join (x : jsstring) (l : list jsstring) :
  Forall (fun t => noComma t = true) (x :: l) ->
  split comma (join (u16 ", ") (x :: l)) = x :: List.map (cons 32) l.
Proof.
  revert x. induction l as [|y l IH]; intros x H.
  - apply split_no_sep. now inversion H.
  - inversion H as [|? ? Hx Hl]; subst.
    change (join (u16 ", ") (x :: y :: l))
      with (x ++ comma :: 32 :: join (u16 ", ") (y :: l)).
    rewrite split_app_sep by exact Hx.
    change (split comma (32 :: join (u16 ", ") (y :: l)))
      with (match split comma (join (u16 ", ") (y :: l)) with
            | p :: ps => (32 :: p) :: ps
            | [] => [[32]]
            end).
    now rewrite (IH y Hl).
Qed.

Lemma trimmedTags_clean (l : list jsstring) :
  Forall (fun t => nonEmpty t = true /\ trim t = t) (trimmedTags l).
Proof.
  unfold trimmedTags. apply List.Forall_forall. intros t Ht.
  apply filter_In in Ht as [Ht Hn]. apply in_map_iff in Ht as (p & <- & _).
  split; [exact Hn|apply trim_trimmed].
Qed.

Lemma noComma_trim (p : jsstring) : noComma p = true -> noComma (trim p) = true.
Proof. intros H. unfold trim, noComma. now apply SlugProps.forallb_stripEnd, SlugProps.forallb_stripStart. Qed.

Lemma trimmedTags_noComma (l : list jsstring) :
  Forall (fun t => noComma t = true) l ->
  Forall (fun t => noComma t = true) (trimmedTags l).
Proof.
  intros H. unfold trimmedTags. apply List.Forall_forall. intros t Ht.
  apply filter_In in Ht as [Ht _]. apply in_map_iff in Ht as (p & <- & Hp).
  apply noComma_trim. revert p Hp. now apply List.Forall_forall.
Qed.

Lemma trimmedTags_id (l : list jsstring) :
  Forall (fun t => nonEmpty t = true /\ trim t = t) l -> trimmedTags l = l.
Proof.
  unfold trimmedTags. induction 1 as [|t l [Hn Ht] Hl IH]; [reflexivity|].
  simpl. now rewrite Ht, Hn, IH.
Qed.

Lemma trimmedTags_spaced (l : list jsstring) :
  Forall (fun t => nonEmpty t = true /\ trim t = t) l ->
  trimmedTags (List.map (cons 32) l) = l.
Proof.
  unfold trimmedTags. induction 1 as [|t l [Hn Ht] Hl IH]; [reflexivity|].
  simpl List.map. change (trim (32 :: t)) with (trim t).
  simpl. now rewrite Ht, Hn, IH.
Qed.

Lemma join_comma (x y : jsstring) (l : list jsstring) :
  noComma (join (u16 ", ") (x :: y :: l)) = false.
Proof.
  change (join (u16 ", ") (x :: y :: l))
    with (x ++ comma :: 32 :: join (u16 ", ") (y :: l)).
  unfold noComma. rewrite forallb_app. simpl. apply andb_false_r.
Qed.

Lemma storeTags_cases (value : jsstring) :
  storeTags (promptForField_tags value) = TagsArray []
  \/ storeTags (promptForField_tags value) = TagsString value.
Proof.
  unfold promptForField_tags.
  destruct (JSString.eqb value CLEAR_INPUT_COMMAND); [now left|now right].
Qed.

Lemma enterTags_last (answers : list jsstring) (value : jsstring) (tags : TagsField) :
  enterTags (answers ++ [value]) tags = storeTags (promptForField_tags value).
Proof. unfold enterTags. now rewrite fold_left_app. Qed.

Lemma enterTags_cases (answers : list jsstring) (tags : TagsField) :
  answers <> [] ->
  enterTags answers tags = TagsArray []
  \/ exists value, enterTags answers tags = TagsString value.
Proof.
  intros H. destruct (exists_last H) as (l & value & ->).
  rewrite enterTags_last.
  destruct (storeTags_cases value) as [-> | ->]; [now left|right; now exists value].
Qed.

(** X24.  [createPost] saves no tag.  Whatever is answered at the
    prompts for the tags of a new post, at the entry and at any edit
    before the save, text or the clear command, the review shows no tags
    and the record is saved with an empty array of tags: an answer is
    kept as a string, and only an array is taken over. *)
Theorem createPost_saves_no_tag (answers : list jsstring) :
  createPost_tags (enterTags answers TagsUndefined) = []
  /\ reviewTags (enterTags answers TagsUndefined) = [].
Proof.
  destruct answers as [|a answers]; [split; reflexivity|].
  destruct (enterTags_cases (a :: answers) TagsUndefined ltac:(discriminate))
    as [-> | [value ->]]; split; reflexivity.
Qed.

(** X25.  The tags [editPost] saves are trimmed and not empty; and once
    the field was answered at a prompt, none of them has a comma in it,
    since the answer is split at the commas. *)
Theorem editPost_saves_clean_tags (tags : TagsField) :
  Forall (fun t => nonEmpty t = true /\ trim t = t) (editPost_tags tags)
  /\ (forall answers, answers <> [] ->
      Forall cleanTag (editPost_tags (enterTags answers tags))).
Proof.
  assert (Hstr : forall s, Forall cleanTag (editPost_tags (TagsString s))).
  { intros s. unfold editPost_tags. destruct (nonEmpty s); [|constructor].
    pose proof (trimmedTags_clean (split comma s)) as H1.
    assert (H2 : Forall (fun t => noComma t = true) (trimmedTags (split comma s))).
    { apply trimmedTags_noComma.
      eapply List.Forall_impl; [|apply (split_chars (fun _ => true) comma s)].
      - intros p Hp. exact Hp.
      - now apply forallb_forall. }
    rewrite List.Forall_forall in *. intros t Ht.
    destruct (H1 t Ht). repeat split; auto. }
  split.
  - destruct tags as [|s|l]; [constructor| |apply trimmedTags_clean].
    eapply List.Forall_impl; [|apply (Hstr s)]. intros t (H1 & H2 & _). now split.
  - intros answers Ha.
    destruct (enterTags_cases answers tags Ha) as [-> | [value ->]];
      [constructor|apply Hstr].
Qed.

(** X26.  Tags survive an answer that is the default of the prompt.
    The prompt for the tags of a post offers them joined by a comma and
    a space; when the tags are trimmed, not empty and without commas, as
    [editPost] saves them, an answer equal to that default gives the
    same tags back at the save.  The one exception is the single tag
    that reads as the clear command: it is lost. *)
Theorem editPost_keeps_the_tags_at_the_default (tags : list jsstring) :
  Forall cleanTag tags ->
  let answer := tagsDefault (TagsArray tags) in
  (tags <> [CLEAR_INPUT_COMMAND] ->
   editPost_tags (enterTags [answer] (TagsArray tags)) = tags)
  /\ (tags = [CLEAR_INPUT_COMMAND] ->
      editPost_tags (enterTags [answer] (TagsArray tags)) = []).
Proof.
  intros Hc. cbv zeta. split; [|intros ->; reflexivity]. intros Hne.
  assert (H1 : Forall (fun t => nonEmpty t = true /\ trim t = t) tags).
  { eapply List.Forall_impl; [|exact Hc]. intros t (? & ? & _). now split. }
  assert (H2 : Forall (fun t => noComma t = true) tags).
  { eapply List.Forall_impl; [|exact Hc]. now intros t (_ & _ & ?). }
  cbn [enterTags fold_left tagsDefault]. unfold promptForField_tags.
  destruct (JSString.eqb (join (u16 ", ") tags) CLEAR_INPUT_COMMAND) eqn:E.
  - exfalso. apply eqb_eq in E. destruct tags as [|x [|y l]].
    + discriminate E.
    + apply Hne. simpl in E. now rewrite E.
    + pose proof (join_comma x y l) as Hj. rewrite E in Hj. discriminate Hj.
  - cbn [storeTags editPost_tags]. destruct tags as [|x l]; [reflexivity|].
    assert (Hn : nonEmpty (join (u16 ", ") (x :: l)) = true).
    { inversion H1 as [|? ? [Hx _] _]; subst.
      destruct x; [discriminate|]. destruct l; reflexivity. }
    rewrite Hn, split_join by exact H2.
    inversion H1 as [|? ? [Hx Ht] Hl]; subst.
    unfold trimmedTags. cbn [List.map List.filter]. rewrite Ht, Hx.
    f_equal. now apply trimmedTags_spaced.
Qed.

Lemma editPost_keeps_the_tags_at_the_default_witness :
  editPost_tags (enterTags [u16 "rocq, proofs"] (TagsArray [u16 "rocq"; u16 "proofs"]))
  = [u16 "rocq"; u16 "proofs"].
Proof.
  refine (proj1 (editPost_keeps_the_tags_at_the_default
                   [u16 "rocq"; u16 "proofs"] _) _).
  - repeat (apply List.Forall_cons; [repeat split|]). apply List.Forall_nil.
  - discriminate.
Defined.

End CliTagsProps.

(** ** The list of the reader *)

Module ReaderListProps.
Import JSString Post Projection Validate ReaderList SortProps ProjectionProps.

Lemma insertBy_ext {A} (cmp1 cmp2 : A -> A -> Z) (x : A) (l : list A) :
  (forall y, In y l -> (cmp1 x y <=? 0)%Z = (cmp2 x y <=? 0)%Z) ->
  insertBy cmp1 x l = insertBy cmp2 x l.
Proof.
  induction l as [|y l IH]; intros H; [reflexivity|].
  cbn [insertBy]. rewrite (H y) by now left.
  destruct (cmp2 x y <=? 0)%Z; [reflexivity|].
  f_equal. apply IH. intros z Hz. apply H. now right.
Qed.

Lemma sortBy_ext {A} (cmp1 cmp2 : A -> A -> Z) (l : list A) :
  (forall a b, In a l -> In b l -> (cmp1 a b <=? 0)%Z = (cmp2 a b <=? 0)%Z) ->
  sortBy cmp1 l = sortBy cmp2 l.
Proof.
  induction l as [|x l IH]; intros H; [reflexivity|].
  cbn [sortBy]. rewrite IH by (intros a b Ha Hb; apply H; now right).
  apply insertBy_ext. intros y Hy. apply H; [now left|]. right.
  eapply Permutation_in; [apply sortBy_Permutation|exact Hy].
Qed.

Lemma StronglySorted_members {A} (R R' : A -> A -> Prop) (l : list A) :
  (forall a b, In a l -> In b l -> R a b -> R' a b) ->
  StronglySorted R l -> StronglySorted R' l.
Proof.
  intros H Hs. induction Hs as [|x l Hs IH Hx]; constructor.
  - apply IH. intros a b Ha Hb. apply H; now right.
  - rewrite List.Forall_forall in *. intros y Hy.
    apply H; [now left|now right|now apply Hx].
Qed.

Section List.
Variable toLowerCase : jsstring -> jsstring.
Variable parseDate : jsstring -> option Z.
Hypothesis toLowerCase_empty : toLowerCase [] = [].

Abbreviation record := (PostRecord PostValue).

Lemma listCompareFn_sign (currentSort : jsstring) (a b : record) :
  dateOf parseDate a <> None -> dateOf parseDate b <> None ->
  (listCompareFn parseDate currentSort a b <=? 0)%Z
  = (sortCompareFn parseDate currentSort a b <=? 0)%Z.
Proof using Type.
  unfold listCompareFn, sortCompareFn, compareAsc, compareDesc.
  destruct (dateOf parseDate a) as [x|], (dateOf parseDate b) as [y|];
    try congruence. intros _ _.
  destruct (JSString.eqb currentSort (u16 "oldest"));
    repeat match goal with |- context [(?p <? ?q)%Z] => destruct (Z.ltb_spec p q) end;
    match goal with |- (?u <=? 0)%Z = _ => destruct (Z.leb_spec u 0) end;
    try reflexivity; lia.
Qed.

Lemma sortCompareFn_inDateOrder (currentSort : jsstring) (a b : record) :
  dateOf parseDate a <> None -> dateOf parseDate b <> None ->
  cmpLe (sortCompareFn parseDate currentSort) a b ->
  inDateOrder parseDate currentSort a b.
Proof using Type.
  unfold cmpLe, inDateOrder, sortCompareFn, compareAsc, compareDesc.
  destruct (dateOf parseDate a) as [x|], (dateOf parseDate b) as [y|];
    try congruence. intros _ _ H. exists x, y. split; [reflexivity|].
  split; [reflexivity|].
  destruct (JSString.eqb currentSort (u16 "oldest"));
    repeat match goal with H : context [(?p <? ?q)%Z] |- _ =>
             destruct (Z.ltb_spec p q) end; lia.
Qed.

Lemma passesListFilters_unfiltered (p : record) :
  passesListFilters toLowerCase [] [] p = true.
Proof using toLowerCase_empty.
  unfold passesListFilters. rewrite toLowerCase_empty. reflexivity.
Qed.

(** X27.  The list of the reader, when no post has a date that cannot
    be read.  [applyFiltersSortAndRenderList] shows posts exactly when
    some post passes the filters: then it shows the passing posts, each
    once, in the order of their dates (a post without a date counting as
    1970-01-01), posts of one date in the order of the collection, which
    is the order the editor shows them in.  Otherwise it shows a
    message; the one for a user without posts is shown only when there
    is no post and no filter, and the last message of the function is
    never shown. *)
Theorem reader_list_is_the_passing_posts_by_date
    (posts : list record) (did term cat sort : jsstring) :
  Forall (fun a => unparseableDate parseDate a = false) posts ->
  let passing := List.filter (passesListFilters toLowerCase term cat) posts in
  match applyFiltersSortAndRenderList toLowerCase parseDate posts did term cat sort with
  | ShowPosts out =>
      passing <> []
      /\ Permutation out passing
      /\ StronglySorted (inDateOrder parseDate sort) out
      /\ out = sortBy (sortCompareFn parseDate sort) passing
  | ShowMessage m =>
      passing = []
      /\ m <> NoneForFilters
      /\ (forall link, m = NoBlogPosts link -> posts = [] /\ term = [] /\ cat = [])
  end.
Proof using toLowerCase_empty.
  intros Hd. cbv zeta. unfold applyFiltersSortAndRenderList.
  set (passing := List.filter (passesListFilters toLowerCase term cat) posts).
  assert (Hdates : forall a, In a passing -> dateOf parseDate a <> None).
  { intros a Ha. apply filter_In in Ha as [Ha _].
    rewrite List.Forall_forall in Hd. specialize (Hd a Ha).
    rewrite dateOf_unparseable. congruence. }
  assert (Hsort : sortBy (listCompareFn parseDate sort) passing
                  = sortBy (sortCompareFn parseDate sort) passing).
  { apply sortBy_ext. intros a b Ha Hb. apply listCompareFn_sign; auto. }
  rewrite Hsort.
  pose proof (sortBy_Permutation (sortCompareFn parseDate sort) passing) as Hp.
  destruct passing as [|p l] eqn:E.
  - cbn [sortBy length]. change (0 <? 0)%nat with false. cbv iota.
    destruct term as [|c term], cat as [|d cat]; cbn [nonEmpty andb];
      try (split; [reflexivity|split; [discriminate|intros link; discriminate]]).
    assert (Hall : passing = posts).
    { unfold passing. erewrite List.filter_ext; [apply EditorViewProps.filter_true|].
      intros q. apply passesListFilters_unfiltered. }
    rewrite <- Hall, E. cbn [length Nat.eqb].
    split; [reflexivity|]. split; [discriminate|]. intros link _. repeat split.
  - assert (Hlen : (0 <? length (sortBy (sortCompareFn parseDate sort) (p :: l)))%nat
                   = true).
    { rewrite (Permutation_length Hp). reflexivity. }
    rewrite Hlen. split; [discriminate|]. split; [exact Hp|].
    split; [|reflexivity].
    eapply StronglySorted_members;
      [|apply sortBy_sorted;
        [apply sortCompareFn_total|apply sortCompareFn_trans]].
    intros a b Ha Hb. apply sortCompareFn_inDateOrder; apply Hdates;
      eapply Permutation_in; eauto.
Qed.

End List.

Lemma reader_list_is_the_passing_posts_by_date_witness :
  let a := datedPost "at://did:plc:x/app.blog.post/1" "2024-01-01" in
  let b := datedPost "at://did:plc:x/app.blog.post/2" "2024-06-01" in
  let c := undatedPost "at://did:plc:x/app.blog.post/3" in
  match applyFiltersSortAndRenderList toLowerAscii parseIsoDate [a; b; c]
          (u16 "did:plc:x") [] [] (u16 "oldest") with
  | ShowPosts out =>
      out = sortBy (sortCompareFn parseIsoDate (u16 "oldest")) [a; b; c]
  | ShowMessage _ => False
  end.
Proof.
  cbv zeta.
  pose proof (reader_list_is_the_passing_posts_by_date toLowerAscii parseIsoDate
    eq_refl
    [datedPost "at://did:plc:x/app.blog.post/1" "2024-01-01";
     datedPost "at://did:plc:x/app.blog.post/2" "2024-06-01";
     undatedPost "at://did:plc:x/app.blog.post/3"]
    (u16 "did:plc:x") [] [] (u16 "oldest")
    ltac:(repeat (apply List.Forall_cons; [reflexivity|]); apply List.Forall_nil))
    as H.
  cbv zeta in H.
  destruct (applyFiltersSortAndRenderList _ _ _ _ _ _ _) as [out|m].
  - exact (proj2 (proj2 (proj2 H))).
  - destruct H as [H _]. discriminate H.
Defined.

End ReaderListProps.

(** ** The scenarios of the specification *)

Module Scenarios.
Import JSString Post Store Slug Projection Cli Reader Editor.

(** Scenario A: two records and a cursor, then one record and no
    cursor.  Both walks return the three records, and the editor has
    them all after one more load. *)
Example scenario_A_fetchAllRecords :
  let a := undatedPost "at://did:plc:x/app.blog.post/1" in
  let b := undatedPost "at://did:plc:x/app.blog.post/2" in
  let c := undatedPost "at://did:plc:x/app.blog.post/3" in
  let w := mkWorld [RespOk (Some [a; b]) (Some (u16 "c1")); RespOk (Some [c]) None] [] in
  fst (fetchAllRecords _ scripted 5 w) = Returned [a; b; c].
Proof. vm_compute. reflexivity. Qed.

(** Scenario C: with the filter "Recommended" the projection returns the
    one recommended record, whatever its category. *)
Example scenario_C_recommended_filter :
  let r := mkRecord (u16 "at://did:plc:x/app.blog.post/2") (u16 "cid")
             (mkValue None None None None (Some (u16 "Travel")) None None (Some true)) in
  getFilteredAndSortedPosts toLowerAscii parseIsoDate
    [datedPost "at://did:plc:x/app.blog.post/1" "2024-01-01"; r;
     undatedPost "at://did:plc:x/app.blog.post/3"]
    [] (u16 "Recommended") (u16 "newest") = [r].
Proof. vm_compute. reflexivity. Qed.

(** Scenario D. *)
Example scenario_D_sanitizeSlug :
  sanitizeSlug toLowerAscii (u16 "  My First Post!! ") true = u16 "my-first-post"
  /\ sanitizeSlug toLowerAscii (u16 "  My First Post!! ") false = u16 "my-first-post".
Proof. split; vm_compute; reflexivity. Qed.

(** Scenario E: a record is created and deleted at once; the cache is
    as before. *)
Example scenario_E_create_then_delete :
  let a := undatedPost "at://did:plc:x/app.blog.post/1" in
  let n := undatedPost "at://did:plc:x/app.blog.post/9" in
  let st := setFetchedPostsCache [a] initialState in
  fetchedPostsCache
    (handleDeletePost_deleted (uri n) (handleSavePost_saved None n st)) = [a].
Proof. vm_compute. reflexivity. Qed.

End Scenarios.
